(** * Keyword retrieval engine of the "Ask Andrew" apps

    Shallow embedding of [loadIndex], [performSearch] and [searchContext]
    of [ask-andrew/script.js] (class [AskAndrew]) and of
    [computing-history/computing-local/app.js], with the properties of the
    retrieval engine proved over the embedding.  The chat around the
    engine ([sendMessage], [generateResponse], the prompts, the "Learn
    more" line, the simple response, the typing animation) and the text
    helpers of the computing-history page ([extractKeywords],
    [truncateToFirstSentence], the remembered exchanges, the cleaning of
    the model's answer, the file of prohibited words) follow.

    A JavaScript string is a sequence of UTF-16 code units.  The development
    works with the code units below 256 (Rocq's [ascii]), where
    [String.prototype.toLowerCase], the regular-expression class [\s] and
    [String.prototype.trim] are given by the small tables of module [JS]. *)

From Stdlib Require Import Ascii String ZArith Lia.
From stdpp Require Import gmap strings list fin_maps sorting.

Local Open Scope Z_scope.
Local Open Scope nat_scope.

(** ** JavaScript primitives used by the engine *)

Module JS.

(** [\s] of a regular expression without the [u] flag, and the characters
    removed by [trim]: TAB, LF, VT, FF, CR, SPACE and NO-BREAK SPACE are
    the members below 256. *)
Definition is_space (c : ascii) : bool :=
  let n := nat_of_ascii c in
  ((9 <=? n) && (n <=? 13)) || (n =? 32) || (n =? 160).

(** [[a-z0-9]] *)
Definition is_lower_alnum (c : ascii) : bool :=
  let n := nat_of_ascii c in
  ((97 <=? n) && (n <=? 122)) || ((48 <=? n) && (n <=? 57)).

(** Lower-casing of one code unit: A-Z and the Latin-1 capitals
    U+00C0..U+00DE (without the multiplication sign U+00D7) move up by 32. *)
Definition lower_char (c : ascii) : ascii :=
  let n := nat_of_ascii c in
  if ((65 <=? n) && (n <=? 90))
     || ((192 <=? n) && (n <=? 222) && negb (n =? 215))
  then ascii_of_nat (n + 32) else c.

Fixpoint map_chars (f : ascii -> ascii) (s : string) : string :=
  match s with
  | EmptyString => EmptyString
  | String c r => String (f c) (map_chars f r)
  end.

(** [s.toLowerCase()] *)
Definition toLowerCase (s : string) : string := map_chars lower_char s.

Fixpoint trimStart (s : string) : string :=
  match s with
  | EmptyString => EmptyString
  | String c r => if is_space c then trimStart r else s
  end.

Fixpoint trimEnd (s : string) : string :=
  match s with
  | EmptyString => EmptyString
  | String c r =>
      match trimEnd r with
      | EmptyString => if is_space c then EmptyString else String c EmptyString
      | r' => String c r'
      end
  end.

(** [s.trim()] *)
Definition trim (s : string) : string := trimEnd (trimStart s).

(** [s.replace(/[^a-z0-9\s]/g, ' ')] *)
Definition replace_non_alnum (s : string) : string :=
  map_chars (fun c => if is_lower_alnum c || is_space c then c else " "%char) s.

(** [s.replace(/\s+/g, ' ')]: every maximal run of white space becomes one
    space.  [in_run] tells that the previous character was white space. *)
Fixpoint collapse_from (in_run : bool) (s : string) : string :=
  match s with
  | EmptyString => EmptyString
  | String c r =>
      if is_space c
      then (if in_run then collapse_from true r
            else String " " (collapse_from true r))
      else String c (collapse_from false r)
  end.

Definition collapse_spaces (s : string) : string := collapse_from false s.

(** [s.split(' ')]: never empty, [''.split(' ')] is [['']]. *)
Fixpoint split_space (s : string) : list string :=
  match s with
  | EmptyString => [EmptyString]
  | String c r =>
      if Ascii.eqb c " " then EmptyString :: split_space r
      else match split_space r with
           | w :: ws => String c w :: ws
           | [] => [String c EmptyString]
           end
  end.

(** [arr.join(' ')] *)
Fixpoint join_space (ws : list string) : string :=
  match ws with
  | [] => EmptyString
  | [w] => w
  | w :: rest => w +:+ " " +:+ join_space rest
  end.

(** [arr.join(sep)] *)
Fixpoint join_with (sep : string) (ws : list string) : string :=
  match ws with
  | [] => EmptyString
  | [w] => w
  | w :: rest => w +:+ sep +:+ join_with sep rest
  end.

(** [arr.slice(i, j)] for [0 <= i <= j]; both ends are clamped to the
    length of the array. *)
Definition slice {A} (i j : nat) (arr : list A) : list A :=
  take (j - i) (drop i arr).

(** [s.includes(k)]: [k] occurs in [s] as a contiguous substring. *)
Fixpoint includes (s k : string) : bool :=
  String.prefix k s ||
  match s with
  | EmptyString => false
  | String _ r => includes r k
  end.

(** A JavaScript [Set] of strings keeps its members in insertion order. *)
Definition Set_has (x : string) (s : list string) : bool :=
  bool_decide (x ∈ s).

Definition Set_add (x : string) (s : list string) : list string :=
  if Set_has x s then s else s ++ [x].

(** [new Set(arr)] *)
Definition Set_from (arr : list string) : list string :=
  foldl (fun s x => Set_add x s) [] arr.

(** A JavaScript [Map] with string keys keeps its entries in the order in
    which the keys were first set; this is the order of [forEach]. *)
Section OrderedMap.
Context {V : Type}.

Fixpoint Map_get (k : string) (m : list (string * V)) : option V :=
  match m with
  | [] => None
  | (k', v) :: r => if String.eqb k' k then Some v else Map_get k r
  end.

Definition Map_has (k : string) (m : list (string * V)) : bool :=
  match Map_get k m with Some _ => true | None => false end.

Fixpoint Map_set (k : string) (v : V) (m : list (string * V))
  : list (string * V) :=
  match m with
  | [] => [(k, v)]
  | (k', v') :: r =>
      if String.eqb k' k then (k', v) :: r else (k', v') :: Map_set k v r
  end.

(** [m.get(k).field = ...]: the object stored under [k] is changed in
    place.  On a missing key JavaScript throws; the engine only calls
    it on a key that is present. *)
Fixpoint Map_alter (f : V -> V) (k : string) (m : list (string * V))
  : list (string * V) :=
  match m with
  | [] => []
  | (k', v) :: r =>
      if String.eqb k' k then (k', f v) :: r else (k', v) :: Map_alter f k r
  end.
End OrderedMap.

(** [arr.sort(cmp)]: the sort of an array is stable; [cmp a b <= 0] keeps
    [a] before [b].  Insertion from the right gives the stable order. *)
Fixpoint sort_insert {A} (cmp : A -> A -> Z) (x : A) (l : list A) : list A :=
  match l with
  | [] => [x]
  | y :: r => if (cmp x y <=? 0)%Z then x :: y :: r
              else y :: sort_insert cmp x r
  end.

Definition Array_sort {A} (cmp : A -> A -> Z) (arr : list A) : list A :=
  foldr (sort_insert cmp) [] arr.

(** A string in a condition: the empty string is the only falsy one. *)
Definition truthy (s : string) : bool := negb (String.eqb s "").

(** The iterations [i = 0, 1, ...] of [for (let i = 0; i <= bound; i++)],
    where [bound] may be negative. *)
Definition for_upto {A} (bound : Z) (body : nat -> A) : list A :=
  body <$> seq 0 (Z.to_nat (bound + 1)).

End JS.

(** ** Data model: the Knowledge Index as loaded from [index.json] *)

Record Document := {
  id : string;
  title : string;
  content : string;
  keywords : list string
}.

Record Category := {
  category : string;
  link : string;
  documents : list Document
}.

(** Value stored in [keywordMap]: [{document, category, link}]. *)
Record Entry := {
  entry_document : Document;
  entry_category : string;
  entry_link : string
}.

(** Value stored in [documentMatches] and element of [matches]:
    [{document, category, link, matchedKeywords}]. *)
Record QueryMatch := {
  match_document : Document;
  match_category : string;
  match_link : string;
  matchedKeywords : list string
}.

(** [{text, length}] *)
Record NGram := {
  ngram_text : string;
  ngram_length : nat
}.

(** Result of [performSearch]: [{matches, matchedKeywords}]. *)
Record SearchResult := {
  sr_matches : list QueryMatch;
  sr_matchedKeywords : list string
}.

(** Result of [searchContext]: [{context, categories, links, documents}];
    [None] is JavaScript's [null]. *)
Record ContextResult := {
  context : option string;
  categories : list string;
  links : list string;
  ctx_documents : list Document
}.

(** The two fields of the controller object that the engine reads. *)
Record App := {
  indexData : list Category;
  keywordMap : gmap string Entry
}.

Definition newline : string := String "010"%char EmptyString.

(** ** [ask-andrew/script.js], class [AskAndrew] *)

Module AskAndrew.

(** [loadIndex], after the fetch: builds the flat lookup map. *)
Definition loadIndex (json : list Category) : App :=
  {| indexData := json;
     keywordMap :=
       foldl (fun keywordMap cat =>
         foldl (fun keywordMap doc =>
           foldl (fun keywordMap keyword =>
             let normalizedKeyword := JS.trim (JS.toLowerCase keyword) in
             if JS.truthy normalizedKeyword
             then <[ normalizedKeyword :=
                       {| entry_document := doc;
                          entry_category := category cat;
                          entry_link := link cat |} ]> keywordMap
             else keywordMap)
           keywordMap (keywords doc))
         keywordMap (documents cat))
       ∅ json |}.

Definition words_of (userQuestion : string) : list string :=
  let lowerQuestion := JS.trim (JS.toLowerCase userQuestion) in
  let normalizedQuestion :=
    JS.trim (JS.collapse_spaces (JS.replace_non_alnum lowerQuestion)) in
  JS.split_space normalizedQuestion.

Definition stopWords : list string :=
  ["what"; "is"; "are"; "the"; "a"; "an"; "how"; "does"; "do"; "can";
   "about"; "tell"; "me"; "explain"; "describe"; "show"; "give"].

Definition nGrams_of (words : list string) : list NGram :=
  JS.for_upto (Z.of_nat (length words) - 3) (fun i =>
    {| ngram_text := JS.join_space (JS.slice i (i + 3) words);
       ngram_length := 3 |})
  ++ JS.for_upto (Z.of_nat (length words) - 2) (fun i =>
    {| ngram_text := JS.join_space (JS.slice i (i + 2) words);
       ngram_length := 2 |})
  ++ omap (fun word =>
       if (2 <=? String.length word) && negb (bool_decide (word ∈ stopWords))
       then Some {| ngram_text := word; ngram_length := 1 |}
       else None) words.

(** Body of [nGrams.forEach(ngram => ...)] on the pair
    [(matchedKeywords, documentMatches)]. *)
Definition match_ngram (keywordMap : gmap string Entry)
    (st : list string * list (string * QueryMatch)) (ngram : NGram)
  : list string * list (string * QueryMatch) :=
  match keywordMap !! ngram_text ngram with
  | Some mtch =>
      let matchedKeywords' := JS.Set_add (ngram_text ngram) st.1 in
      let docId := id (entry_document mtch) in
      let documentMatches :=
        if JS.Map_has docId st.2 then st.2
        else JS.Map_set docId
               {| match_document := entry_document mtch;
                  match_category := entry_category mtch;
                  match_link := entry_link mtch;
                  matchedKeywords := [] |} st.2 in
      (matchedKeywords',
       JS.Map_alter (fun m =>
         {| match_document := match_document m;
            match_category := match_category m;
            match_link := match_link m;
            matchedKeywords := matchedKeywords m ++ [ngram_text ngram] |})
         docId documentMatches)
  | None => st
  end.

Definition match_ngrams (keywordMap : gmap string Entry) (nGrams : list NGram)
  : list string * list (string * QueryMatch) :=
  foldl (match_ngram keywordMap) ([], []) nGrams.

Definition wordCount (a : string) : nat := length (JS.split_space a).

(** [Array.from(matchedKeywords).sort((a, b) => bWords - aWords)] *)
Definition sortedKeywords_of (matchedKeywords : list string) : list string :=
  JS.Array_sort (fun a b =>
    let aWords := wordCount a in
    let bWords := wordCount b in
    (Z.of_nat bWords - Z.of_nat aWords)%Z) matchedKeywords.

(** Body of [sortedKeywords.forEach(keyword => ...)] on [filteredKeywords]. *)
Definition filter_keyword (filteredKeywords : list string) (keyword : string)
  : list string :=
  let isSubset :=
    existsb (fun existing =>
      negb (String.eqb existing keyword) && JS.includes existing keyword)
      filteredKeywords in
  if negb isSubset then JS.Set_add keyword filteredKeywords
  else filteredKeywords.

Definition filteredKeywords_of (matchedKeywords : list string) : list string :=
  foldl filter_keyword [] (sortedKeywords_of matchedKeywords).

(** Body of [documentMatches.forEach((match, docId) => ...)]. *)
Definition final_match (filteredKeywords : list string)
    (kv : string * QueryMatch) : option QueryMatch :=
  let validKeywords :=
    filter (fun kw => kw ∈ filteredKeywords) (matchedKeywords kv.2) in
  if 0 <? length validKeywords
  then Some {| match_document := match_document kv.2;
               match_category := match_category kv.2;
               match_link := match_link kv.2;
               matchedKeywords := validKeywords |}
  else None.

Definition performSearch (this : App) (userQuestion : string) : SearchResult :=
  let words := words_of userQuestion in
  let nGrams := nGrams_of words in
  let st := match_ngrams (keywordMap this) nGrams in
  let filteredKeywords := filteredKeywords_of st.1 in
  let finalDocumentMatches := omap (final_match filteredKeywords) st.2 in
  {| sr_matches := finalDocumentMatches;
     sr_matchedKeywords := filteredKeywords |}.

(** [searchContext]; the status text written to the page is left out, it
    does not reach the returned value. *)
Definition searchContext (this : App) (userQuestion : string) : ContextResult :=
  let matches := sr_matches (performSearch this userQuestion) in
  if length matches =? 0 then
    let aiConceptsCategory :=
      List.find (fun cat => String.eqb (category cat) "AI Concepts")
        (indexData this) in
    match aiConceptsCategory with
    | Some cat =>
        match documents cat with
        | fallbackDoc :: _ =>
            {| context := Some ("[" +:+ category cat +:+ "]" +:+ newline
                                +:+ content fallbackDoc);
               categories := [category cat];
               links := [link cat];
               ctx_documents := [fallbackDoc] |}
        | [] => {| context := None; categories := []; links := [];
                   ctx_documents := [] |}
        end
    | None => {| context := None; categories := []; links := [];
                 ctx_documents := [] |}
    end
  else
    let contextParts := (fun m =>
      "[" +:+ match_category m +:+ " - " +:+ title (match_document m) +:+ "]"
      +:+ newline +:+ content (match_document m)) <$> matches in
    let categories' := JS.Set_from (match_category <$> matches) in
    let links' := JS.Set_from (match_link <$> matches) in
    let documents' := match_document <$> matches in
    {| context := Some (JS.join_with (newline +:+ newline) contextParts);
       categories := categories';
       links := links';
       ctx_documents := documents' |}.

End AskAndrew.

(** ** [computing-history/computing-local/app.js] *)

Module ComputingLocal.

(** [loadIndex], after the fetch: builds the flat lookup map. *)
Definition loadIndex (json : list Category) : App :=
  {| indexData := json;
     keywordMap :=
       foldl (fun keywordMap cat =>
         foldl (fun keywordMap doc =>
           foldl (fun keywordMap keyword =>
             let normalizedKeyword := JS.trim (JS.toLowerCase keyword) in
             if JS.truthy normalizedKeyword
             then <[ normalizedKeyword :=
                       {| entry_document := doc;
                          entry_category := category cat;
                          entry_link := link cat |} ]> keywordMap
             else keywordMap)
           keywordMap (keywords doc))
         keywordMap (documents cat))
       ∅ json |}.

Definition words_of (userQuestion : string) : list string :=
  let lowerQuestion := JS.trim (JS.toLowerCase userQuestion) in
  let normalizedQuestion :=
    JS.trim (JS.collapse_spaces (JS.replace_non_alnum lowerQuestion)) in
  JS.split_space normalizedQuestion.

Definition stopWords : list string :=
  ["what"; "is"; "are"; "the"; "a"; "an"; "how"; "does"; "do"; "can";
   "about"; "tell"; "me"; "explain"; "describe"; "show"; "give"].

Definition nGrams_of (words : list string) : list NGram :=
  JS.for_upto (Z.of_nat (length words) - 3) (fun i =>
    {| ngram_text := JS.join_space (JS.slice i (i + 3) words);
       ngram_length := 3 |})
  ++ JS.for_upto (Z.of_nat (length words) - 2) (fun i =>
    {| ngram_text := JS.join_space (JS.slice i (i + 2) words);
       ngram_length := 2 |})
  ++ omap (fun word =>
       if (2 <=? String.length word) && negb (bool_decide (word ∈ stopWords))
       then Some {| ngram_text := word; ngram_length := 1 |}
       else None) words.

(** Body of [nGrams.forEach(ngram => ...)] on the pair
    [(matchedKeywords, documentMatches)]. *)
Definition match_ngram (keywordMap : gmap string Entry)
    (st : list string * list (string * QueryMatch)) (ngram : NGram)
  : list string * list (string * QueryMatch) :=
  match keywordMap !! ngram_text ngram with
  | Some mtch =>
      let matchedKeywords' := JS.Set_add (ngram_text ngram) st.1 in
      let docId := id (entry_document mtch) in
      let documentMatches :=
        if JS.Map_has docId st.2 then st.2
        else JS.Map_set docId
               {| match_document := entry_document mtch;
                  match_category := entry_category mtch;
                  match_link := entry_link mtch;
                  matchedKeywords := [] |} st.2 in
      (matchedKeywords',
       JS.Map_alter (fun m =>
         {| match_document := match_document m;
            match_category := match_category m;
            match_link := match_link m;
            matchedKeywords := matchedKeywords m ++ [ngram_text ngram] |})
         docId documentMatches)
  | None => st
  end.

Definition match_ngrams (keywordMap : gmap string Entry) (nGrams : list NGram)
  : list string * list (string * QueryMatch) :=
  foldl (match_ngram keywordMap) ([], []) nGrams.

Definition wordCount (a : string) : nat := length (JS.split_space a).

(** [Array.from(matchedKeywords).sort((a, b) => bWords - aWords)] *)
Definition sortedKeywords_of (matchedKeywords : list string) : list string :=
  JS.Array_sort (fun a b =>
    let aWords := wordCount a in
    let bWords := wordCount b in
    (Z.of_nat bWords - Z.of_nat aWords)%Z) matchedKeywords.

(** Body of [sortedKeywords.forEach(keyword => ...)] on [filteredKeywords]. *)
Definition filter_keyword (filteredKeywords : list string) (keyword : string)
  : list string :=
  let isSubset :=
    existsb (fun existing =>
      negb (String.eqb existing keyword) && JS.includes existing keyword)
      filteredKeywords in
  if negb isSubset then JS.Set_add keyword filteredKeywords
  else filteredKeywords.

Definition filteredKeywords_of (matchedKeywords : list string) : list string :=
  foldl filter_keyword [] (sortedKeywords_of matchedKeywords).

(** Body of [documentMatches.forEach((match, docId) => ...)]. *)
Definition final_match (filteredKeywords : list string)
    (kv : string * QueryMatch) : option QueryMatch :=
  let validKeywords :=
    filter (fun kw => kw ∈ filteredKeywords) (matchedKeywords kv.2) in
  if 0 <? length validKeywords
  then Some {| match_document := match_document kv.2;
               match_category := match_category kv.2;
               match_link := match_link kv.2;
               matchedKeywords := validKeywords |}
  else None.

Definition performSearch (this : App) (userQuestion : string) : SearchResult :=
  let words := words_of userQuestion in
  let nGrams := nGrams_of words in
  let st := match_ngrams (keywordMap this) nGrams in
  let filteredKeywords := filteredKeywords_of st.1 in
  let finalDocumentMatches := omap (final_match filteredKeywords) st.2 in
  {| sr_matches := finalDocumentMatches;
     sr_matchedKeywords := filteredKeywords |}.

(** [searchContext]; the status text written to the page is left out, it
    does not reach the returned value. *)
Definition searchContext (this : App) (userQuestion : string) : ContextResult :=
  let matches := sr_matches (performSearch this userQuestion) in
  if length matches =? 0 then
    let aiConceptsCategory :=
      List.find (fun cat => String.eqb (category cat) "AI Concepts")
        (indexData this) in
    match aiConceptsCategory with
    | Some cat =>
        match documents cat with
        | fallbackDoc :: _ =>
            {| context := Some ("[" +:+ category cat +:+ "]" +:+ newline
                                +:+ content fallbackDoc);
               categories := [category cat];
               links := [link cat];
               ctx_documents := [fallbackDoc] |}
        | [] => {| context := None; categories := []; links := [];
                   ctx_documents := [] |}
        end
    | None => {| context := None; categories := []; links := [];
                 ctx_documents := [] |}
    end
  else
    let contextParts := (fun m =>
      "[" +:+ match_category m +:+ " - " +:+ title (match_document m) +:+ "]"
      +:+ newline +:+ content (match_document m)) <$> matches in
    let categories' := JS.Set_from (match_category <$> matches) in
    let links' := JS.Set_from (match_link <$> matches) in
    let documents' := match_document <$> matches in
    {| context := Some (JS.join_with (newline +:+ newline) contextParts);
       categories := categories';
       links := links';
       ctx_documents := documents' |}.

End ComputingLocal.

(** ** The specification's own wording of the operations *)

Module Spec.

(** Normalisation of a question: lower-case, replace what is not
    [[a-z0-9\s]] by a space, collapse white space, trim. *)
Definition normalize_question (question : string) : string :=
  JS.trim (JS.collapse_spaces (JS.replace_non_alnum (JS.toLowerCase question))).

Definition words (question : string) : list string :=
  JS.split_space (normalize_question question).

(** All contiguous windows of [n] words, from left to right. *)
Fixpoint windows (n : nat) (ws : list string) : list (list string) :=
  match ws with
  | [] => []
  | _ :: r => (if n <=? length ws then [take n ws] else []) ++ windows n r
  end.

Definition stop_words : list string :=
  ["what"; "is"; "are"; "the"; "a"; "an"; "how"; "does"; "do"; "can";
   "about"; "tell"; "me"; "explain"; "describe"; "show"; "give"].

Definition candidates (question : string) : list string :=
  let ws := words question in
  (JS.join_space <$> windows 3 ws)
  ++ (JS.join_space <$> windows 2 ws)
  ++ filter (fun w => 2 <= String.length w ∧ w ∉ stop_words) ws.

Definition normalize_keyword (raw : string) : string :=
  JS.trim (JS.toLowerCase raw).

(** Every keyword occurrence of the Knowledge Index in load order, with
    the binding it asks for. *)
Definition occurrences (json : list Category) : list (string * Entry) :=
  cat ← json; doc ← documents cat; raw ← keywords doc;
  [(normalize_keyword raw,
    {| entry_document := doc;
       entry_category := category cat;
       entry_link := link cat |})].

Definition total_keywords (json : list Category) : nat :=
  sum_list ((fun cat =>
    sum_list ((fun doc => length (keywords doc)) <$> documents cat)) <$> json).

(** Every document of the Knowledge Index. *)
Definition all_documents (json : list Category) : list Document :=
  cat ← json; documents cat.

(** Deduplication that keeps the first occurrence of every member. *)
Fixpoint dedup_first (l : list string) : list string :=
  match l with
  | [] => []
  | x :: r => x :: filter (fun y => y ≠ x) (dedup_first r)
  end.

(** [cat] is the category called [name] of the Knowledge Index: the first
    one, should several carry the name. *)
Definition category_named (name : string) (json : list Category)
    (cat : Category) : Prop :=
  ∃ pre post, json = pre ++ cat :: post ∧ category cat = name ∧
              ∀ c, c ∈ pre → category c ≠ name.

Definition empty_result : ContextResult :=
  {| context := None; categories := []; links := []; ctx_documents := [] |}.

(** [k] occurs in [s] as a contiguous run of characters. *)
Definition substring (k s : string) : Prop :=
  ∃ a b, s = a +:+ k +:+ b.

(** The [id] field identifies a document among the values of a Keyword
    Index, respectively among the documents of a Knowledge Index. *)
Definition ids_identify (km : gmap string Entry) : Prop :=
  ∀ k1 k2 e1 e2, km !! k1 = Some e1 → km !! k2 = Some e2 →
    id (entry_document e1) = id (entry_document e2) →
    entry_document e1 = entry_document e2.

Definition unique_ids (json : list Category) : Prop :=
  ∀ d1 d2, d1 ∈ all_documents json → d2 ∈ all_documents json →
    id d1 = id d2 → d1 = d2.

End Spec.

(** ** Invariants of the loops *)

Module Loop.

(** One guarded [keywordMap.set]: the binding asked for by one keyword
    occurrence. *)
Definition bind_keyword (m : gmap string Entry) (p : string * Entry)
  : gmap string Entry :=
  if JS.truthy p.1 then <[ p.1 := p.2 ]> m else m.

(** The document id that the Keyword Index gives for a text, if any. *)
Definition docId_of (km : gmap string Entry) (t : string) : option string :=
  (λ e, id (entry_document e)) <$> km !! t.

(** The n-gram occurrences, in generation order, that hit document
    [docId]. *)
Definition bucket_keywords (km : gmap string Entry) (docId : string)
    (texts : list string) : list string :=
  filter (λ t, docId_of km t = Some docId) texts.

(** State of the matching loop after the n-grams with texts [texts]. *)
Record match_inv (km : gmap string Entry) (texts : list string)
    (st : list string * list (string * QueryMatch)) : Prop := {
  inv_matched : ∀ t, t ∈ st.1 ↔ t ∈ texts ∧ is_Some (km !! t);
  inv_matched_nodup : NoDup st.1;
  inv_keys_nodup : NoDup st.2.*1;
  inv_bucket : ∀ docId b, (docId, b) ∈ st.2 →
    matchedKeywords b = bucket_keywords km docId texts ∧
    ∃ t e, t ∈ texts ∧ km !! t = Some e ∧
      id (entry_document e) = docId ∧
      match_document b = entry_document e ∧
      match_category b = entry_category e ∧
      match_link b = entry_link e;
  inv_keys : ∀ t e, t ∈ texts → km !! t = Some e →
    id (entry_document e) ∈ st.2.*1
}.

(** [k] is a proper part of a member of [kept]: the test of the filter
    loop. *)
Definition dominated (kept : list string) (k : string) : Prop :=
  ∃ e, e ∈ kept ∧ e ≠ k ∧ Spec.substring k e.

End Loop.

(** ** Concrete Knowledge Indexes *)

Module Scenario.

Definition d1 : Document :=
  {| id := "d1"; title := "Neural Networks";
     content := "Neural networks are...";
     keywords := ["neural network"; "neural networks"; "deep learning"] |}.

Definition d2 : Document :=
  {| id := "d2"; title := "Tokenization";
     content := "Tokenization splits...";
     keywords := ["tokenization"; "token"] |}.

(** The two-category index of the concrete scenarios; the link of the
    second category is left open there. *)
Definition index (nlp_link : string) : list Category :=
  [ {| category := "AI Concepts"; link := "https://example.com/ai";
       documents := [d1] |};
    {| category := "NLP"; link := nlp_link; documents := [d2] |} ].

(** An index with a plural and a singular phrase as keywords. *)
Definition llm_doc : Document :=
  {| id := "llm"; title := "Language models";
     content := "A language model predicts...";
     keywords := ["Large Language Models"; "large language model";
                  "language model"; "language"] |}.

Definition llm_index : list Category :=
  [ {| category := "Generative AI"; link := "https://example.com/genai";
       documents := [llm_doc] |} ].

(** An index in which a phrase and a part of it belong to two documents. *)
Definition split_index : list Category :=
  [ {| category := "Generative AI"; link := "https://example.com/genai";
       documents := [ {| id := "whole"; title := "LLM"; content := "An LLM is...";
                         keywords := ["large language model"] |};
                      {| id := "part"; title := "LM"; content := "A model of...";
                         keywords := ["language model"] |} ] |} ].

(** An index in which two categories share their link. *)
Definition doc_of (i k : string) : Document :=
  {| id := i; title := k; content := k; keywords := [k] |}.

Definition shared_link_index : list Category :=
  [ {| category := "A"; link := "https://example.com/1";
       documents := [doc_of "a1" "alpha"] |};
    {| category := "B"; link := "https://example.com/1";
       documents := [doc_of "b1" "beta"] |};
    {| category := "C"; link := "https://example.com/3";
       documents := [doc_of "c1" "gamma"] |} ].

(** An index in which two documents share their id. *)
Definition shared_id_index : list Category :=
  [ {| category := "A"; link := "https://example.com/a";
       documents := [ {| id := "x"; title := "T1"; content := "First.";
                         keywords := ["alpha"] |};
                      {| id := "x"; title := "T2"; content := "Second.";
                         keywords := ["beta"] |} ] |} ].

(** An index with a document whose content is longer than 400 code
    units. *)
Definition long_doc : Document :=
  {| id := "transformer"; title := "Transformers";
     content := "A transformer is a neural network architecture built around attention. Instead of reading a sentence one word after another, it relates every token to every other token of the input in one step, which lets it learn long range dependencies and makes training easy to run in parallel. Transformers are the basis of large language models: stacked layers of attention and feed forward blocks are trained on very large amounts of text to predict the next token. The same architecture is used for images, audio and code.";
     keywords := ["transformer"; "attention"] |}.

Definition long_index : list Category :=
  [ {| category := "Generative AI"; link := "https://example.com/genai";
       documents := [long_doc] |} ].

End Scenario.

(** ** Shapes of questions, words and keywords *)

Module Shape.

Fixpoint all_chars (p : ascii → bool) (s : string) : bool :=
  match s with
  | EmptyString => true
  | String c r => p c && all_chars p r
  end.

(** A word of a normalised question: letters [a-z] and digits, not empty. *)
Definition word (w : string) : Prop :=
  w ≠ "" ∧ all_chars JS.is_lower_alnum w = true.

(** Words separated by single spaces: only [a-z0-9] and the space occur,
    no space follows a space, and none comes first when [after_space]. *)
Fixpoint spaced (after_space : bool) (s : string) : bool :=
  match s with
  | EmptyString => true
  | String c r =>
      if Ascii.eqb c " " then negb after_space && spaced true r
      else JS.is_lower_alnum c && spaced false r
  end.

(** A normalised string: words separated by single spaces, no space at
    either end. *)
Definition normalized (s : string) : Prop :=
  spaced true s = true ∧ JS.trimEnd s = s.

(** A question without any letter or digit. *)
Definition blank (question : string) : Prop :=
  all_chars (λ c, negb (JS.is_lower_alnum (JS.lower_char c))) question = true.

(** What an n-gram text looks like: one to three words; a single word has
    at least two characters and is no stop word. *)
Definition ngram_shaped (k : string) : Prop :=
  normalized k ∧ k ≠ "" ∧ AskAndrew.wordCount k ≤ 3 ∧
  (AskAndrew.wordCount k = 1 →
     2 ≤ String.length k ∧ k ∉ AskAndrew.stopWords).

End Shape.

(** ** Further JavaScript primitives, for the code around the engine *)

Module JSText.


(** [Canonicalize] of a case-insensitive regular expression without the
    [u] flag: the upper-case form of a code unit.  The capitals of U+00FF
    and of the micro sign lie above 255, where no other code unit below 256
    is mapped, so both stand for themselves; U+00DF has no single capital. *)
Definition canonicalize (c : ascii) : ascii :=
  let n := nat_of_ascii c in
  if ((97 <=? n) && (n <=? 122))
     || ((224 <=? n) && (n <=? 254) && negb (n =? 247))
  then ascii_of_nat (n - 32) else c.

(** A literal of a case-insensitive pattern matched at the start of [s];
    the rest of [s] is returned. *)
Fixpoint match_literal_ci (literal s : string) : option string :=
  match literal with
  | EmptyString => Some s
  | String p literal' =>
      match s with
      | EmptyString => None
      | String c r =>
          if Ascii.eqb (canonicalize p) (canonicalize c)
          then match_literal_ci literal' r else None
      end
  end.

(** [arr.slice(-n)] *)
Definition slice_last {A} (n : nat) (arr : list A) : list A :=
  drop (length arr - n) arr.

(** [s.substring(0, n)] *)
Fixpoint substring0 (n : nat) (s : string) : string :=
  match n, s with
  | S n', String c r => String c (substring0 n' r)
  | _, _ => EmptyString
  end.

(** [arr[i]] inside a template literal: a missing element prints as
    [undefined]. *)
Definition Array_get (arr : list string) (i : nat) : string :=
  default "undefined" (arr !! i).

End JSText.

(** ** [ask-andrew/script.js]: the chat around the engine *)

Module AskAndrewChat.

(** [{role, content}] of [conversationHistory] and of the engine request. *)
Record ChatMessage := {
  chat_role : string;
  chat_content : string
}.

Definition greetingWords : list string :=
  ["hi"; "hello"; "hey"; "greetings"; "good morning"; "good afternoon";
   "good evening"].

(** [/^(hi|hello|...|good evening)[\s!?]*$/i.test(s)] *)
Definition greetingPattern_test (s : string) : bool :=
  existsb (fun word =>
    match JSText.match_literal_ci word s with
    | Some rest =>
        Shape.all_chars (fun c =>
          JS.is_space c || Ascii.eqb c "!" || Ascii.eqb c "?") rest
    | None => false
    end) greetingWords.

(** What [sendMessage] does with the input: nothing, the fixed greeting, or
    a call of [generateResponse(userMessage, searchResult)]. *)
Inductive Dispatch :=
| Ignored
| Greeted
| Answered (userMessage : string) (searchResult : ContextResult).

(** [sendMessage]; [messagesBefore] is the number of [.message] elements of
    the chat before the user's message is added. *)
Definition sendMessage (this : App) (isGenerating : bool) (messagesBefore : nat)
    (input : string) : Dispatch :=
  let userMessage := JS.trim input in
  if negb (JS.truthy userMessage) || isGenerating then Ignored
  else
    let messageCount := messagesBefore + 1 in
    if (messageCount <=? 1) && greetingPattern_test userMessage then Greeted
    else Answered userMessage (AskAndrew.searchContext this userMessage).

(** The prompt of [generateResponse]: the context goes before the
    question when there is one. *)
Definition userPrompt_of (context : option string) (userMessage : string)
  : string :=
  match context with
  | Some c =>
      if JS.truthy c
      then c +:+ newline +:+ newline +:+ "Q: " +:+ userMessage
      else userMessage
  | None => userMessage
  end.

(** [messages] of the engine request: the system prompt, the last six
    messages of the history, the prompt. *)
Definition engine_messages (systemPrompt : string)
    (conversationHistory : list ChatMessage) (context : option string)
    (userMessage : string) : list ChatMessage :=
  let recentHistory :=
    JSText.slice_last 6 conversationHistory
    ++ [{| chat_role := "user"; chat_content := userPrompt_of context userMessage |}] in
  {| chat_role := "system"; chat_content := systemPrompt |} :: recentHistory.

(** What the engine call and its stream give: the text streamed until the
    end or until the stop request, or an exception. *)
Inductive Generation :=
| Streamed (assistantMessage : string)
| Threw.

(** The fields of the controller that [generateResponse] reads and
    writes. *)
Record Controller := {
  conversationHistory : list ChatMessage;
  simpleMode : bool;
  webGPUAvailable : bool
}.

(** [generateResponse], as far as the conversation history goes. *)
Definition generateResponse (c : Controller) (userMessage : string)
    (generation : Generation) : Controller :=
  if simpleMode c || negb (webGPUAvailable c) then c
  else
    match generation with
    | Streamed assistantMessage =>
        {| conversationHistory :=
             conversationHistory c
             ++ [{| chat_role := "user"; chat_content := userMessage |};
                 {| chat_role := "assistant"; chat_content := assistantMessage |}];
           simpleMode := simpleMode c;
           webGPUAvailable := webGPUAvailable c |}
    | Threw => c
    end.

(** [toggleMode] *)
Definition toggleMode (c : Controller) : Controller :=
  if negb (webGPUAvailable c) then c
  else {| conversationHistory := conversationHistory c;
          simpleMode := negb (simpleMode c);
          webGPUAvailable := webGPUAvailable c |}.

(** [restartConversation]; [confirmed] is the answer to the dialog. *)
Definition restartConversation (c : Controller) (confirmed : bool) : Controller :=
  if confirmed
  then {| conversationHistory := [];
          simpleMode := simpleMode c;
          webGPUAvailable := webGPUAvailable c |}
  else c.

(** What the user does, with what the page and the engine answer. *)
Inductive Event :=
| Send (input : string) (messagesBefore : nat) (generation : Generation)
| Toggle
| Restart (confirmed : bool).

(** One event on an idle controller ([isGenerating] is false between two
    events). *)
Definition step (this : App) (c : Controller) (e : Event) : Controller :=
  match e with
  | Send input messagesBefore generation =>
      match sendMessage this false messagesBefore input with
      | Answered userMessage _ => generateResponse c userMessage generation
      | _ => c
      end
  | Toggle => toggleMode c
  | Restart confirmed => restartConversation c confirmed
  end.

(** The controller after the constructor and [initializeWebLLM]. *)
Definition initial (webGPU : bool) : Controller :=
  {| conversationHistory := []; simpleMode := negb webGPU;
     webGPUAvailable := webGPU |}.

Definition run (this : App) (webGPU : bool) (events : list Event) : Controller :=
  foldl (step this) (initial webGPU) events.


(** Complete turns of a conversation as messages of the history. *)
Definition turns_of (turns : list (string * string)) : list ChatMessage :=
  turn ← turns;
  [{| chat_role := "user"; chat_content := turn.1 |};
   {| chat_role := "assistant"; chat_content := turn.2 |}].



Definition noInformation : string :=
  "I don't have specific information about that in my knowledge base. Could you try rephrasing your question or asking about a different AI topic?".

(** [generateSimpleResponse]: the text that is escaped and shown, before
    the "Learn more" line and the note. *)
Definition simpleResponseText (searchResult : ContextResult) : string :=
  let documents := ctx_documents searchResult in
  if length documents =? 0 then
    match context searchResult with
    | Some c => if JS.truthy c then c else noInformation
    | None => noInformation
    end
  else
    foldl (fun response p =>
      let response := response +:+ content p.2 in
      if p.1 <? length documents - 1
      then response +:+ newline +:+ newline else response)
      "" (imap (fun index doc => (index, doc)) documents).

End AskAndrewChat.

(** ** [computing-history/computing-local/app.js]: the chat around the engine *)

Module ComputingLocalChat.

Definition MAX_MESSAGE_LENGTH : nat := 1000.

Definition greetingWords : list string :=
  ["hi"; "hello"; "hey"; "greetings"; "good morning"; "good afternoon";
   "good evening"].

(** [/^(hi|hello|...|good evening)[\s!?]*$/i.test(s)] *)
Definition greetingPattern_test (s : string) : bool :=
  existsb (fun word =>
    match JSText.match_literal_ci word s with
    | Some rest =>
        Shape.all_chars (fun c =>
          JS.is_space c || Ascii.eqb c "!" || Ascii.eqb c "?") rest
    | None => false
    end) greetingWords.

(** What [sendMessage] does with the input. *)
Inductive Dispatch :=
| Ignored
| TooLong
| StillLoading
| Greeted
| Answered (userMessage : string) (searchResult : ContextResult).

(** [sendMessage]; [wllamaLoaded] tells that [this.wllama] is set. *)
Definition sendMessage (this : App) (isGenerating usingWllama wllamaLoaded : bool)
    (messagesBefore : nat) (input : string) : Dispatch :=
  let userMessage := JS.trim input in
  if negb (JS.truthy userMessage) || isGenerating then Ignored
  else if MAX_MESSAGE_LENGTH <? String.length userMessage then TooLong
  else if usingWllama && negb wllamaLoaded then StillLoading
  else
    let messageCount := messagesBefore + 1 in
    if (messageCount <=? 1) && greetingPattern_test userMessage then Greeted
    else Answered userMessage (ComputingLocal.searchContext this userMessage).

(** [generateWithWebLLM]: the [messages] of the request. *)
Definition webllm_messages (systemPrompt : string)
    (conversationHistory : list AskAndrewChat.ChatMessage)
    (context : option string) (userMessage : string)
  : list AskAndrewChat.ChatMessage :=
  let userPrompt :=
    match context with
    | Some c =>
        if JS.truthy c
        then c +:+ newline +:+ newline +:+ "Q: " +:+ userMessage
        else userMessage
    | None => userMessage
    end in
  let recentHistory :=
    JSText.slice_last 6 conversationHistory
    ++ [{| AskAndrewChat.chat_role := "user";
           AskAndrewChat.chat_content := userPrompt |}] in
  {| AskAndrewChat.chat_role := "system";
     AskAndrewChat.chat_content := systemPrompt |} :: recentHistory.

(** [generateWithWllama]: the ChatML prompt. *)
Definition chatMLPrompt (context : option string) (userMessage : string) : string :=
  let information :=
    match context with
    | Some c =>
        if JS.truthy c then
          let maxContextLength := 400 in
          let truncatedContext :=
            if maxContextLength <? String.length c
            then JSText.substring0 maxContextLength c +:+ "..."
            else c in
          truncatedContext +:+ newline
        else "No specific information available." +:+ newline
    | None => "No specific information available." +:+ newline
    end in
  "<|im_start|>system" +:+ newline
  +:+ "You are Andrew, an AI learning assistant. Answer questions using ONLY the information below."
  +:+ newline +:+ newline
  +:+ "Rules:" +:+ newline
  +:+ "- AI and computing topics only" +:+ newline
  +:+ "- One clear paragraph, simple language" +:+ newline
  +:+ "- No development steps or instructions" +:+ newline +:+ newline
  +:+ "Information:" +:+ newline
  +:+ information
  +:+ "<|im_end|>" +:+ newline +:+ newline
  +:+ "<|im_start|>user" +:+ newline
  +:+ userMessage +:+ newline
  +:+ "<|im_end|>" +:+ newline +:+ newline
  +:+ "<|im_start|>assistant" +:+ newline.

(** What the engine gives: the text streamed and whether a stop was
    requested meanwhile, or an exception. *)
Inductive Generation :=
| Streamed (assistantMessage : string) (stopRequested : bool)
| Threw.

(** [generateResponse], as far as the conversation history goes. *)
Definition generateResponse (conversationHistory : list AskAndrewChat.ChatMessage)
    (userMessage : string) (generation : Generation)
  : list AskAndrewChat.ChatMessage :=
  match generation with
  | Streamed assistantMessage stopRequested =>
      if negb stopRequested && JS.truthy (JS.trim assistantMessage)
      then conversationHistory
           ++ [{| AskAndrewChat.chat_role := "user";
                  AskAndrewChat.chat_content := userMessage |};
               {| AskAndrewChat.chat_role := "assistant";
                  AskAndrewChat.chat_content := assistantMessage |}]
      else conversationHistory
  | Threw => conversationHistory
  end.

Inductive Event :=
| Send (input : string) (usingWllama wllamaLoaded : bool) (messagesBefore : nat)
       (generation : Generation)
| Restart (confirmed : bool).

(** One event on an idle controller. *)
Definition step (this : App) (conversationHistory : list AskAndrewChat.ChatMessage)
    (e : Event) : list AskAndrewChat.ChatMessage :=
  match e with
  | Send input usingWllama wllamaLoaded messagesBefore generation =>
      match sendMessage this false usingWllama wllamaLoaded messagesBefore input with
      | Answered userMessage _ =>
          generateResponse conversationHistory userMessage generation
      | _ => conversationHistory
      end
  | Restart confirmed => if confirmed then [] else conversationHistory
  end.

Definition run (this : App) (events : list Event) : list AskAndrewChat.ChatMessage :=
  foldl (step this) [] events.

End ComputingLocalChat.

(** ** [computing-history/computing-local/app.js]: the text helpers of the page *)

Module ComputingHistory.

(** [text.split('').reverse().join('')] *)
Definition reverseWord (text : string) : string :=
  string_of_list_ascii (reverse (list_ascii_of_string text)).

(** [s.split(/\r?\n/)] *)
Fixpoint split_lines (s : string) : list string :=
  match s with
  | EmptyString => [EmptyString]
  | String c r =>
      let keep :=
        match split_lines r with
        | w :: ws => String c w :: ws
        | [] => [String c EmptyString]
        end in
      if Ascii.eqb c "010" then EmptyString :: split_lines r
      else if Ascii.eqb c "013" then
        match r with
        | String c' r' =>
            if Ascii.eqb c' "010" then EmptyString :: split_lines r' else keep
        | EmptyString => keep
        end
      else keep
  end.

(** [loadInappropriateWords]: the words read from the text of
    [prohibited-words.txt]. *)
Definition loadInappropriateWords (reversedWordsText : string) : list string :=
  (fun word => reverseWord (JS.toLowerCase word))
  <$> filter (fun word => 0 < String.length word)
        (JS.trim <$> split_lines reversedWordsText).

Definition STOPWORDS : list string :=
  ["a"; "an"; "the"; "and"; "or"; "but"; "is"; "are"; "was"; "were";
   "be"; "been"; "being"; "have"; "has"; "had"; "do"; "does"; "did";
   "of"; "in"; "on"; "at"; "to"; "from"; "with"; "by"; "for";
   "about"; "as"; "that"; "this"; "these"; "those"; "it"; "they";
   "he"; "she"; "we"; "you"; "i"; "me"; "my"; "him"; "her"; "us";
   "them"; "which"; "who"; "whom"; "whose"; "what"; "where"; "when";
   "why"; "how"; "can"; "could"; "will"; "would"; "should";
   "may"; "might"; "must"; "find"; "search"; "show"; "tell"; "look";
   "ebay"; "sale"; "buy"; "price"; "cost"; "need"; "one"].

(** [\w] *)
Definition is_word_char (c : ascii) : bool :=
  let n := nat_of_ascii c in
  ((97 <=? n) && (n <=? 122)) || ((65 <=? n) && (n <=? 90))
  || ((48 <=? n) && (n <=? 57)) || (n =? 95).

(** [s.replace(/[^\w\s]/g, '')] *)
Fixpoint remove_punctuation (s : string) : string :=
  match s with
  | EmptyString => EmptyString
  | String c r =>
      if is_word_char c || JS.is_space c
      then String c (remove_punctuation r) else remove_punctuation r
  end.

(** [s.split(/\s+/)]: the pieces between the maximal runs of white space;
    [in_run] tells that the previous character was white space. *)
Fixpoint split_whitespace_from (in_run : bool) (s : string) : list string :=
  match s with
  | EmptyString => [EmptyString]
  | String c r =>
      if JS.is_space c
      then (if in_run then split_whitespace_from true r
            else EmptyString :: split_whitespace_from true r)
      else match split_whitespace_from false r with
           | w :: ws => String c w :: ws
           | [] => [String c EmptyString]
           end
  end.

Definition split_whitespace (s : string) : list string :=
  split_whitespace_from false s.

(** [extractKeywords] *)
Definition extractKeywords (text : string) : string :=
  let words := split_whitespace (remove_punctuation (JS.toLowerCase text)) in
  JS.join_space
    (filter (fun w => (w ∉ STOPWORDS) ∧ 0 < String.length w) words).

(** [keywords.replace(/ /g, '+')] *)
Definition plus_for_space (keywords : string) : string :=
  JS.map_chars (fun c => if Ascii.eqb c " " then "+"%char else c) keywords.

(** The text-only part of [handleSend]: what is done with a text that was
    not refused and is not a command. *)
Inductive TextRoute :=
| MoreSpecific
| Ebay (keywords url : string)
| Bing (keywords url : string)
| AskModel.

Definition textRoute (text : string) : TextRoute :=
  let lowerText := JS.toLowerCase text in
  let isEbay := JS.includes lowerText "ebay" || JS.includes lowerText "for sale"
                || JS.includes lowerText "buy" in
  let isBing := JS.includes lowerText "bing" || JS.includes lowerText "search"
                || JS.includes lowerText "find" in
  let keywords := extractKeywords text in
  if negb (JS.truthy keywords) then MoreSpecific
  else if isEbay
  then Ebay keywords
         ("https://www.ebay.com/sch/i.html?_nkw=" +:+ plus_for_space keywords)
  else if isBing
  then Bing keywords
         ("https://www.bing.com/search?q=" +:+ plus_for_space keywords)
  else AskModel.

(** [[.!?]] *)
Definition is_terminator (c : ascii) : bool :=
  Ascii.eqb c "." || Ascii.eqb c "!" || Ascii.eqb c "?".

(** [text.match(/^[^.!?]+[.!?]/)]: the text up to the first terminator,
    which must not be the first character; [seen] tells that a character
    was taken. *)
Fixpoint first_sentence_from (seen : bool) (s : string) : option string :=
  match s with
  | EmptyString => None
  | String c r =>
      if is_terminator c
      then (if seen then Some (String c EmptyString) else None)
      else String c <$> first_sentence_from true r
  end.

(** [truncateToFirstSentence] *)
Definition truncateToFirstSentence (text : string) : string :=
  match first_sentence_from false text with
  | Some m => JS.trim m
  | None => JS.trim (JSText.substring0 100 text)
  end.

(** [{user, assistant}] of the page's [conversationHistory]. *)
Record Exchange := {
  user : string;
  assistant : string
}.

(** [endResponse], as far as [shouldStopResponse] goes; [speaking] is the
    value of [speechSynthesis.speaking] that it reads. *)
Definition endResponse (shouldStopResponse speaking : bool) : bool :=
  if negb speaking then false else shouldStopResponse.

(** [handleStopResponse], as far as [shouldStopResponse] goes: the flag is
    set, and [endResponse] is called at the end. *)
Definition handleStopResponse (speaking : bool) : bool :=
  let shouldStopResponse := true in
  endResponse shouldStopResponse speaking.

(** What happens while the model generates: a click on the stop button
    ([handleStopResponse]) or another call of [endResponse] (the end of an
    utterance in [speakText], a bot message of an earlier request). *)
Inductive Interrupt :=
| StopClicked (speaking : bool)
| ResponseEnded (speaking : bool).


Definition interrupt (shouldStopResponse : bool) (i : Interrupt) : bool :=
  match i with
  | StopClicked speaking => handleStopResponse speaking
  | ResponseEnded speaking => endResponse shouldStopResponse speaking
  end.

(** [checkStopResponse()] at the end of [handleSend]: [showTyping] has
    called [startResponse], which clears the flag, and the interrupts came
    while the model generated. *)
Definition checkStopResponse (interrupts : list Interrupt) : bool :=
  foldl interrupt false interrupts.

(** The end of [handleSend]: the answer of the model is remembered, and
    only the last two exchanges are kept.  [shouldStopResponse] is what
    [checkStopResponse()] returns there. *)
Definition remember (conversationHistory : list Exchange) (text : string)
    (summary : option string) (shouldStopResponse : bool) : list Exchange :=
  if shouldStopResponse then conversationHistory
  else
    match summary with
    | Some summary =>
        if JS.truthy summary then
          let conversationHistory :=
            conversationHistory
            ++ [{| user := truncateToFirstSentence text;
                   assistant := truncateToFirstSentence summary |}] in
          if 2 <? length conversationHistory
          then tail conversationHistory else conversationHistory
        else conversationHistory
    | None => conversationHistory
    end.

(** A text that reaches the text-only part of [handleSend], with what the
    model returns and what happens while it generates, or a confirmed
    restart of the conversation. *)
Inductive Event :=
| Send (text : string) (summary : option string) (interrupts : list Interrupt)
| Restart.

Definition step (conversationHistory : list Exchange) (e : Event)
  : list Exchange :=
  match e with
  | Send text summary interrupts =>
      match textRoute text with
      | AskModel =>
          remember conversationHistory text summary
            (checkStopResponse interrupts)
      | _ => conversationHistory
      end
  | Restart => []
  end.

Definition run (events : list Event) : list Exchange := foldl step [] events.


(** A line terminator, which [.] of a pattern does not match. *)
Definition is_line_terminator (c : ascii) : bool :=
  Ascii.eqb c "010" || Ascii.eqb c "013".

(** [/[.!?]$/.test(s)] *)
Definition ends_with_terminator (s : string) : bool :=
  match last (list_ascii_of_string s) with
  | Some c => is_terminator c
  | None => false
  end.

(** [.*[.!?]] matched at the start of [s]: [.*] is greedy and stays within
    the line, so the longest match is taken. *)
Fixpoint match_complete_at (s : string) : option string :=
  match s with
  | EmptyString => None
  | String c r =>
      if is_line_terminator c then None
      else
        match match_complete_at r with
        | Some m => Some (String c m)
        | None => if is_terminator c then Some (String c EmptyString) else None
        end
  end.

(** [s.match(/(.*[.!?])/)]: group 1 of the leftmost match. *)
Fixpoint match_complete (s : string) : option string :=
  match match_complete_at s with
  | Some m => Some m
  | None =>
      match s with
      | EmptyString => None
      | String _ r => match_complete r
      end
  end.

(** The end of [generateComputingInfo]: what is returned for the text
    that the model produced. *)
Definition cleanResponse (responseText : string) : option string :=
  let responseText := JS.trim responseText in
  let responseText :=
    if JS.truthy responseText && negb (ends_with_terminator responseText)
    then match match_complete responseText with
         | Some lastComplete => JS.trim lastComplete
         | None => responseText
         end
    else responseText in
  if negb (JS.truthy responseText) || (String.length responseText <? 10)
  then None else Some responseText.

(** The class of the pattern of [escapeRegex]. *)
Definition is_syntax_char (c : ascii) : bool :=
  existsb (Ascii.eqb c)
    ["."; "*"; "+"; "?"; "^"; "$"; "{"; "}"; "("; ")"; "|"; "["; "]"; "\"]%char.

(** [escapeRegex]: a backslash goes before every character of the class. *)
Fixpoint escapeRegex (text : string) : string :=
  match text with
  | EmptyString => EmptyString
  | String c r =>
      if is_syntax_char c then String "\" (String c (escapeRegex r))
      else String c (escapeRegex r)
  end.

(** [s.split('\n')] *)
Fixpoint split_newline (s : string) : list string :=
  match s with
  | EmptyString => [EmptyString]
  | String c r =>
      if Ascii.eqb c "010" then EmptyString :: split_newline r
      else match split_newline r with
           | w :: ws => String c w :: ws
           | [] => [String c EmptyString]
           end
  end.

(** The summarization command of [handleSend]: the text to summarize, when
    the text is such a command. *)
Definition summarizeCommand (text : string) : option string :=
  let lines := split_newline text in
  if (1 <? length lines)
     && String.prefix "summarize"
          (JS.toLowerCase (JS.trim (JSText.Array_get lines 0)))
  then Some (JS.join_with newline (JS.slice 1 (length lines) lines))
  else None.

End ComputingHistory.

(** ** [ask-andrew/script.js]: text sent to the speech service *)

Module AskAndrewSpeech.

(** The replacement of one character by [escapeXml]. *)
Definition escape_char (char : ascii) : string :=
  if Ascii.eqb char "<" then "&lt;"
  else if Ascii.eqb char ">" then "&gt;"
  else if Ascii.eqb char "&" then "&amp;"
  else if Ascii.eqb char "'" then "&apos;"
  else if Ascii.eqb char "034" then "&quot;"
  else String char EmptyString.

(** [escapeXml]: every character of the class of the pattern is replaced
    by its entity. *)
Fixpoint escapeXml (text : string) : string :=
  match text with
  | EmptyString => EmptyString
  | String c r => escape_char c +:+ escapeXml r
  end.

End AskAndrewSpeech.

(** ** [ask-andrew/script.js]: the typing animation *)

Module AskAndrewTyping.

(** [animateTyping]: the values that [element.innerHTML] takes, in order.
    [stopAfter] is the number of passes of the loop made before
    [stopRequested] is seen, [None] when it never is. *)
Definition animateTyping (htmlContent : string) (stopAfter : option nat)
  : list string :=
  let words := JS.split_space htmlContent in
  let passes :=
    match stopAfter with
    | Some n => Nat.min n (length words)
    | None => length words
    end in
  [EmptyString]
  ++ ((fun i => JS.join_space (JS.slice 0 (i + 1) words)) <$> seq 0 passes)
  ++ [htmlContent].

End AskAndrewTyping.

(** ** Patterns built from a text *)

Module JSPattern.

(** [SyntaxCharacter] of the grammar of patterns. *)
Definition SyntaxCharacter (c : ascii) : bool :=
  existsb (Ascii.eqb c)
    ["^"; "$"; "\"; "."; "*"; "+"; "?"; "("; ")"; "["; "]"; "{"; "}"; "|"]%char.

(** A pattern that is a sequence of literal atoms, read as the text it
    matches: an atom is a [PatternCharacter] (any character that is no
    [SyntaxCharacter]) or a backslash before a [SyntaxCharacter]
    ([IdentityEscape]).  Any other pattern is not of this form. *)
Fixpoint literal_text (pattern : string) : option string :=
  match pattern with
  | EmptyString => Some EmptyString
  | String c r =>
      if Ascii.eqb c "\" then
        match r with
        | String c' r' =>
            if SyntaxCharacter c' then String c' <$> literal_text r' else None
        | EmptyString => None
        end
      else if SyntaxCharacter c then None
      else String c <$> literal_text r
  end.

(** The patterns made of literal atoms and of the assertion [\b]. *)
Inductive Atom :=
| Char (c : ascii)
| WordBoundary.

(** A pattern of this form read as its atoms; [None] for any other
    pattern. *)
Fixpoint parse (pattern : string) : option (list Atom) :=
  match pattern with
  | EmptyString => Some []
  | String c r =>
      if Ascii.eqb c "\" then
        match r with
        | String c' r' =>
            if Ascii.eqb c' "b" then cons WordBoundary <$> parse r'
            else if SyntaxCharacter c' then cons (Char c') <$> parse r'
            else None
        | EmptyString => None
        end
      else if SyntaxCharacter c then None
      else cons (Char c) <$> parse r
  end.

(** [IsWordChar]: there is a character at the position and it is one of
    [A-Za-z0-9_]. *)
Definition IsWordChar (c : option ascii) : bool :=
  match c with
  | Some c =>
      let n := nat_of_ascii c in
      ((97 <=? n) && (n <=? 122)) || ((65 <=? n) && (n <=? 90))
      || ((48 <=? n) && (n <=? 57)) || (n =? 95)
  | None => false
  end.

(** The atoms matched from a position of the input, letter case ignored:
    [previous] is the character before the position, [s] the input from
    the position on. *)
Fixpoint match_at (atoms : list Atom) (previous : option ascii) (s : string)
  : bool :=
  match atoms with
  | [] => true
  | WordBoundary :: atoms' =>
      xorb (IsWordChar previous) (IsWordChar (head (list_ascii_of_string s)))
      && match_at atoms' previous s
  | Char c :: atoms' =>
      match s with
      | String d r =>
          Ascii.eqb (JSText.canonicalize c) (JSText.canonicalize d)
          && match_at atoms' (Some d) r
      | EmptyString => false
      end
  end.

(** A match from this position or from a later one. *)
Fixpoint test_from (atoms : list Atom) (previous : option ascii) (s : string)
  : bool :=
  match_at atoms previous s
  || match s with
     | String d r => test_from atoms (Some d) r
     | EmptyString => false
     end.

(** [new RegExp(pattern, 'i').test(s)] for a pattern of this form. *)
Definition test_ignore_case (pattern s : string) : option bool :=
  (fun atoms => test_from atoms None s) <$> parse pattern.

End JSPattern.

(** ** [computing-history/computing-local/app.js]: the check of a text
    against the prohibited words *)

Module ComputingHistoryModeration.

(** The pattern that [handleSend] builds for a word. *)
Definition wordPattern (word : string) : string :=
  "\b" +:+ ComputingHistory.escapeRegex word +:+ "\b".

(** [containsInappropriate] of [handleSend]. *)
Definition containsInappropriate (inappropriateWords : list string)
    (text : string) : bool :=
  let lowerText := JS.toLowerCase text in
  existsb (fun word =>
    default false (JSPattern.test_ignore_case (wordPattern word) lowerText))
    inappropriateWords.

End ComputingHistoryModeration.

(** * Properties *)

(** ** Strings: trimming, collapsing, character maps *)

Section StringFacts.
Import JS.

Lemma trimEnd_cons_nonspace c r :
  is_space c = false → trimEnd (String c r) = String c (trimEnd r).
Proof. intros Hc. simpl. rewrite Hc. by destruct (trimEnd r). Qed.

Lemma trimEnd_cons_space c r :
  is_space c = true →
  trimEnd (String c r) =
    match trimEnd r with
    | EmptyString => EmptyString
    | r' => String c r'
    end.
Proof. intros Hc. simpl. by rewrite Hc. Qed.

Lemma trimEnd_idemp s : trimEnd (trimEnd s) = trimEnd s.
Proof.
  induction s as [|c r IH]; [done|].
  destruct (is_space c) eqn:Hc.
  - rewrite (trimEnd_cons_space c r Hc).
    destruct (trimEnd r) as [|c' r'] eqn:Hr; [done|].
    rewrite (trimEnd_cons_space c _ Hc), IH. done.
  - rewrite (trimEnd_cons_nonspace c r Hc), (trimEnd_cons_nonspace c _ Hc).
    by rewrite IH.
Qed.

Lemma trimStart_trimEnd s : trimStart (trimEnd s) = trimEnd (trimStart s).
Proof.
  induction s as [|c r IH]; [done|].
  destruct (is_space c) eqn:Hc.
  - rewrite (trimEnd_cons_space c r Hc). cbn [trimStart]. rewrite Hc, <- IH.
    destruct (trimEnd r) as [|c' r'] eqn:Hr; [done|].
    cbn [trimStart]. by rewrite Hc.
  - rewrite (trimEnd_cons_nonspace c r Hc). cbn [trimStart]. rewrite Hc.
    by rewrite (trimEnd_cons_nonspace c r Hc).
Qed.

Lemma trimStart_collapse b s :
  trimStart (collapse_from b s) = collapse_from false (trimStart s).
Proof.
  revert b. induction s as [|c r IH]; intros b; [done|].
  cbn [collapse_from trimStart].
  destruct (is_space c) eqn:Hc.
  - destruct b; cbn [trimStart]; [apply IH|].
    replace (is_space " ") with true by done. apply IH.
  - cbn [trimStart collapse_from]. by rewrite Hc.
Qed.

Lemma collapse_empty_trimEnd b s :
  collapse_from b s = EmptyString → trimEnd s = EmptyString.
Proof.
  revert b. induction s as [|c r IH]; intros b; [done|].
  cbn [collapse_from]. destruct (is_space c) eqn:Hc; [|done].
  destruct b; [|done]. intros Hr.
  rewrite (trimEnd_cons_space c r Hc), (IH _ Hr). done.
Qed.

Lemma collapse_cons_space b c r :
  is_space c = true →
  collapse_from b (String c r) =
    if b then collapse_from true r else String " " (collapse_from true r).
Proof. intros Hc. simpl. by rewrite Hc. Qed.

Lemma collapse_cons_nonspace b c r :
  is_space c = false →
  collapse_from b (String c r) = String c (collapse_from false r).
Proof. intros Hc. simpl. by rewrite Hc. Qed.

Lemma trimEnd_collapse b s :
  trimEnd (collapse_from b s) = collapse_from b (trimEnd s).
Proof.
  revert b. induction s as [|c r IH]; intros b; [done|].
  destruct (is_space c) eqn:Hc.
  - rewrite (trimEnd_cons_space c r Hc), (collapse_cons_space b c r Hc).
    assert (Hb : trimEnd (if b then collapse_from true r
                         else String " " (collapse_from true r))
                 = match collapse_from true (trimEnd r) with
                   | EmptyString => EmptyString
                   | r' => if b then r' else String " " r'
                   end).
    { destruct b.
      - rewrite IH. by destruct (collapse_from true (trimEnd r)).
      - by rewrite (trimEnd_cons_space " " _ eq_refl), IH. }
    rewrite Hb. clear Hb.
    destruct (trimEnd r) as [|c' r'] eqn:Hr; [done|].
    rewrite (collapse_cons_space b c _ Hc).
    destruct (collapse_from true (String c' r')) eqn:Hcol; [|done].
    apply collapse_empty_trimEnd in Hcol.
    rewrite <- Hr, trimEnd_idemp, Hr in Hcol. done.
  - rewrite (trimEnd_cons_nonspace c r Hc), !(collapse_cons_nonspace b c _ Hc).
    by rewrite (trimEnd_cons_nonspace c _ Hc), IH.
Qed.

Lemma trim_collapse s : trim (collapse_spaces s) = collapse_spaces (trim s).
Proof.
  unfold trim, collapse_spaces. by rewrite trimStart_collapse, trimEnd_collapse.
Qed.

Section SpacePreserving.
Variable f : ascii → ascii.
Hypothesis f_space : ∀ c, is_space c = true → is_space (f c) = true.

Lemma trimStart_map_trimStart s :
  trimStart (map_chars f (trimStart s)) = trimStart (map_chars f s).
Proof.
  induction s as [|c r IH]; [done|].
  cbn [trimStart map_chars]. destruct (is_space c) eqn:Hc; [|done].
  by rewrite (f_space c Hc).
Qed.

Lemma trimEnd_map_empty s :
  trimEnd s = EmptyString → trimEnd (map_chars f s) = EmptyString.
Proof.
  induction s as [|c r IH]; [done|].
  destruct (is_space c) eqn:Hc.
  - rewrite (trimEnd_cons_space c r Hc). cbn [map_chars].
    rewrite (trimEnd_cons_space _ _ (f_space c Hc)).
    destruct (trimEnd r); [|done]. by rewrite IH.
  - by rewrite (trimEnd_cons_nonspace c r Hc).
Qed.

Lemma trimEnd_map_trimEnd s :
  trimEnd (map_chars f (trimEnd s)) = trimEnd (map_chars f s).
Proof.
  induction s as [|c r IH]; [done|].
  destruct (is_space c) eqn:Hc.
  - rewrite (trimEnd_cons_space c r Hc). cbn [map_chars].
    rewrite (trimEnd_cons_space _ (map_chars f r) (f_space c Hc)).
    destruct (trimEnd r) as [|c' r'] eqn:Hr.
    + by rewrite (trimEnd_map_empty r Hr).
    + change (map_chars f (String c (String c' r')))
        with (String (f c) (map_chars f (String c' r'))).
      rewrite (trimEnd_cons_space _ _ (f_space c Hc)), IH. done.
  - rewrite (trimEnd_cons_nonspace c r Hc). cbn [map_chars].
    cbn [trimEnd]. by rewrite IH.
Qed.

Lemma trim_map_trim s :
  trim (map_chars f (trim s)) = trim (map_chars f s).
Proof.
  unfold trim.
  rewrite <- (trimStart_trimEnd (map_chars f (trimEnd (trimStart s)))).
  rewrite trimEnd_map_trimEnd, trimStart_trimEnd.
  by rewrite trimStart_map_trimStart.
Qed.
End SpacePreserving.

Lemma replace_non_alnum_space c :
  is_space c = true →
  is_space (if is_lower_alnum c || is_space c then c else " "%char) = true.
Proof. intros Hc. by rewrite Hc, orb_true_r. Qed.

End StringFacts.

(** ** N-gram generation *)

Section NGrams.
Import AskAndrew.

(** The extra [trim] of the code before the replacements changes nothing. *)
Lemma words_of_spec userQuestion : words_of userQuestion = Spec.words userQuestion.
Proof.
  unfold words_of, Spec.words, Spec.normalize_question. f_equal.
  rewrite !trim_collapse. f_equal. unfold JS.replace_non_alnum.
  apply trim_map_trim, replace_non_alnum_space.
Qed.

Lemma windows_seq n ws :
  0 < n →
  Spec.windows n ws = (λ i, take n (drop i ws)) <$> seq 0 (length ws + 1 - n).
Proof.
  intros Hn. induction ws as [|x r IH].
  - simpl. by replace (1 - n) with 0 by lia.
  - cbn [Spec.windows]. rewrite IH.
    destruct (Nat.leb_spec n (length (x :: r))) as [Hle|Hgt];
      cbn [length] in *.
    + replace (S (length r) + 1 - n) with (S (length r + 1 - n)) by lia.
      cbn [seq fmap list_fmap app]. f_equal.
      rewrite <- fmap_S_seq, <- list_fmap_compose. done.
    + replace (length r + 1 - n) with 0 by lia.
      by replace (S (length r) + 1 - n) with 0 by lia.
Qed.

Lemma for_upto_windows n (ws : list string) :
  0 < n →
  JS.for_upto (Z.of_nat (length ws) - Z.of_nat n)
    (λ i, JS.join_space (JS.slice i (i + n) ws))
  = JS.join_space <$> Spec.windows n ws.
Proof.
  intros Hn. unfold JS.for_upto, JS.slice. rewrite windows_seq by done.
  rewrite <- list_fmap_compose.
  replace (Z.to_nat (Z.of_nat (length ws) - Z.of_nat n + 1))
    with (length ws + 1 - n) by lia.
  apply list_fmap_ext. intros _ i _. simpl.
  by replace (i + n - i) with n by lia.
Qed.

Lemma nGrams_of_text ws :
  ngram_text <$> nGrams_of ws =
    (JS.join_space <$> Spec.windows 3 ws)
    ++ (JS.join_space <$> Spec.windows 2 ws)
    ++ filter (λ w, 2 <= String.length w ∧ w ∉ Spec.stop_words) ws.
Proof.
  unfold nGrams_of. rewrite !fmap_app.
  rewrite <- (for_upto_windows 3), <- (for_upto_windows 2) by lia.
  unfold JS.for_upto. rewrite <- !list_fmap_compose. do 2 f_equal. change Spec.stop_words with stopWords.
  induction ws as [|w r IH]; [done|].
  cbn [omap list_omap]. rewrite filter_cons.
  destruct (Nat.leb_spec 2 (String.length w)) as [Hl|Hl]; cbn [andb].
  - destruct (decide (w ∈ stopWords)) as [Hin|Hout].
    + rewrite bool_decide_eq_true_2 by done. cbn [negb].
      rewrite decide_False by tauto. done.
    + rewrite bool_decide_eq_false_2 by done. cbn [negb].
      rewrite decide_True by tauto. cbn [fmap list_fmap ngram_text].
      by rewrite <- IH.
  - rewrite decide_False by lia. done.
Qed.

End NGrams.

(** ** Fallback of the context assembler *)

Section Fallback.
Import AskAndrew.

Lemma find_category_named name json cat :
  List.find (λ c, String.eqb (category c) name) json = Some cat ↔
  Spec.category_named name json cat.
Proof.
  unfold Spec.category_named. induction json as [|c r IH]; simpl.
  - split; [done|]. intros (pre & post & Heq & _). by destruct pre.
  - destruct (String.eqb_spec (category c) name) as [Hc|Hc].
    + split.
      * intros [= ->]. exists [], r. split_and!; [done..|]. by intros ? ?%elem_of_nil.
      * intros ([|c' pre] & post & Heq & Hn & Hpre); simplify_eq/=; [done|].
        destruct (Hpre c'); [left|done].
    + rewrite IH. split.
      * intros (pre & post & -> & Hn & Hpre). exists (c :: pre), post.
        split_and!; [done..|]. intros c' [->|?]%elem_of_cons; auto.
      * intros ([|c' pre] & post & Heq & Hn & Hpre); simplify_eq/=.
        exists pre, post. split_and!; [done..|].
        intros c'' ?. apply Hpre. by right.
Qed.

Lemma find_category_none name json :
  List.find (λ c, String.eqb (category c) name) json = None ↔
  ∀ c, c ∈ json → category c ≠ name.
Proof.
  induction json as [|c r IH]; simpl.
  - split; [|done]. by intros _ ? ?%elem_of_nil.
  - destruct (String.eqb_spec (category c) name) as [Hc|Hc].
    + split; [done|]. intros H. destruct (H c); [left|done].
    + rewrite IH. split.
      * intros H c' [->|?]%elem_of_cons; auto.
      * intros H c' ?. apply H. by right.
Qed.

Lemma searchContext_no_match this userQuestion :
  sr_matches (performSearch this userQuestion) = [] →
  searchContext this userQuestion =
    match List.find (λ c, String.eqb (category c) "AI Concepts") (indexData this) with
    | Some cat =>
        match documents cat with
        | fallbackDoc :: _ =>
            {| context := Some ("[" +:+ category cat +:+ "]" +:+ newline
                                +:+ content fallbackDoc);
               categories := [category cat];
               links := [link cat];
               ctx_documents := [fallbackDoc] |}
        | [] => Spec.empty_result
        end
    | None => Spec.empty_result
    end.
Proof. intros H. unfold searchContext. by rewrite H. Qed.

Lemma searchContext_some_match this userQuestion :
  sr_matches (performSearch this userQuestion) ≠ [] →
  is_Some (context (searchContext this userQuestion)).
Proof.
  intros H. unfold searchContext.
  destruct (sr_matches (performSearch this userQuestion)); [done|].
  simpl. eauto.
Qed.

End Fallback.

(** C1: when the matcher returns no QueryMatch, [searchContext] returns the
    fallback built from the first document of the category named
    "AI Concepts" if that category exists and has a document, and the empty
    result with a null context otherwise; the context is null in no other
    case, in particular it is a string whenever a QueryMatch survives. *)
Theorem fallback_context (this : App) (userQuestion : string) :
  let matches := sr_matches (AskAndrew.performSearch this userQuestion) in
  let r := AskAndrew.searchContext this userQuestion in
  (matches = [] →
     (∀ cat doc rest,
        Spec.category_named "AI Concepts" (indexData this) cat →
        documents cat = doc :: rest →
        r = {| context := Some ("[" +:+ category cat +:+ "]" +:+ newline
                                +:+ content doc);
               categories := [category cat];
               links := [link cat];
               ctx_documents := [doc] |}) ∧
     (∀ cat,
        Spec.category_named "AI Concepts" (indexData this) cat →
        documents cat = [] → r = Spec.empty_result) ∧
     ((∀ cat, cat ∈ indexData this → category cat ≠ "AI Concepts") →
        r = Spec.empty_result)) ∧
  (context r = None ↔
     matches = [] ∧
     ((∀ cat, cat ∈ indexData this → category cat ≠ "AI Concepts") ∨
      (∃ cat, Spec.category_named "AI Concepts" (indexData this) cat ∧
              documents cat = []))) ∧
  (matches ≠ [] → ∃ text, context r = Some text).
Proof.
  intros matches r. split_and!.
  - intros Hm. pose proof (searchContext_no_match this userQuestion Hm) as Hr.
    fold r in Hr. split_and!.
    + intros cat doc rest Hcat Hdocs.
      apply find_category_named in Hcat. by rewrite Hr, Hcat, Hdocs.
    + intros cat Hcat Hdocs.
      apply find_category_named in Hcat. by rewrite Hr, Hcat, Hdocs.
    + intros Hnone. apply find_category_none in Hnone. by rewrite Hr, Hnone.
  - split.
    + intros Hctx. destruct (decide (matches = [])) as [Hm|Hm].
      * split; [done|].
        pose proof (searchContext_no_match this userQuestion Hm) as Hr.
        fold r in Hr. rewrite Hr in Hctx.
        destruct (List.find _ (indexData this)) as [cat|] eqn:Hfind.
        -- right. exists cat. split; [by apply find_category_named|].
           by destruct (documents cat).
        -- left. by apply find_category_none.
      * destruct (searchContext_some_match this userQuestion Hm) as [t Ht].
        fold r in Ht. congruence.
    + intros [Hm Hcase].
      pose proof (searchContext_no_match this userQuestion Hm) as Hr.
      fold r in Hr. rewrite Hr. destruct Hcase as [Hnone|(cat & Hcat & Hdocs)].
      * apply find_category_none in Hnone. by rewrite Hnone.
      * apply find_category_named in Hcat. by rewrite Hcat, Hdocs.
  - intros Hm. by destruct (searchContext_some_match this userQuestion Hm) as [t Ht]; eauto.
Qed.

Lemma fallback_context_witness :
  let this := AskAndrew.loadIndex (Scenario.index "https://example.com/nlp") in
  sr_matches (AskAndrew.performSearch this "asdkjasdj random nonsense") = [] ∧
  AskAndrew.searchContext this "asdkjasdj random nonsense" =
    {| context := Some ("[AI Concepts]" +:+ newline +:+ "Neural networks are...");
       categories := ["AI Concepts"];
       links := ["https://example.com/ai"];
       ctx_documents := [Scenario.d1] |}.
Proof.
  intros this.
  assert (Hm : sr_matches (AskAndrew.performSearch this "asdkjasdj random nonsense") = [])
    by (vm_compute; reflexivity).
  split; [exact Hm|].
  destruct (fallback_context this "asdkjasdj random nonsense") as (Hfb & _ & _).
  destruct (Hfb Hm) as (Hdoc & _ & _).
  apply (Hdoc {| category := "AI Concepts"; link := "https://example.com/ai";
                 documents := [Scenario.d1] |} Scenario.d1 []); [|reflexivity].
  exists [], [{| category := "NLP"; link := "https://example.com/nlp";
                 documents := [Scenario.d2] |}].
  split; [reflexivity|]. split; [reflexivity|].
  intros c Hc. inversion Hc.
Defined.

(** C3: the candidate texts are the 3-word windows of the normalised word
    sequence, then the 2-word windows, then the single words of at least two
    characters outside the 17 stop words, where the word sequence comes from
    lower-casing, replacing what is outside [a-z0-9\s] by a space, collapsing
    white space, trimming and splitting on single spaces. *)
Theorem candidate_ngrams (userQuestion : string) :
  AskAndrew.words_of userQuestion = Spec.words userQuestion ∧
  ngram_text <$> AskAndrew.nGrams_of (AskAndrew.words_of userQuestion)
    = Spec.candidates userQuestion ∧
  AskAndrew.stopWords = Spec.stop_words ∧
  length Spec.stop_words = 17 ∧ NoDup Spec.stop_words.
Proof.
  split_and!.
  - apply words_of_spec.
  - rewrite nGrams_of_text, words_of_spec. done.
  - done.
  - done.
  - apply (bool_decide_unpack _). vm_compute. done.
Qed.

(** C9: the retrieval functions of the Ask Andrew app and of the
    computing-history local app return the same matches, the same kept
    keywords and the same ContextResult on every index and question. *)
Theorem retrieval_copies_agree (this : App) (userQuestion : string) :
  sr_matches (AskAndrew.performSearch this userQuestion)
    = sr_matches (ComputingLocal.performSearch this userQuestion) ∧
  sr_matchedKeywords (AskAndrew.performSearch this userQuestion)
    = sr_matchedKeywords (ComputingLocal.performSearch this userQuestion) ∧
  AskAndrew.searchContext this userQuestion
    = ComputingLocal.searchContext this userQuestion.
Proof. split_and!; reflexivity. Qed.

(** C5, as the code behaves: in the two-category scenario the question
    "Tell me about tokenization and tokens" gives exactly one QueryMatch,
    for document d2, whose matchedKeywords is the one keyword
    "tokenization": the word "tokens" is not the keyword "token". *)
Theorem scenario_tokenization (nlp_link : string) :
  AskAndrew.performSearch (AskAndrew.loadIndex (Scenario.index nlp_link))
    "Tell me about tokenization and tokens"
  = {| sr_matches :=
         [ {| match_document := Scenario.d2;
              match_category := "NLP";
              match_link := nlp_link;
              matchedKeywords := ["tokenization"] |} ];
       sr_matchedKeywords := ["tokenization"] |}.
Proof. vm_compute. reflexivity. Qed.

Lemma scenario_tokenization_not_token :
  ¬ ∃ m,
      sr_matches (AskAndrew.performSearch
                    (AskAndrew.loadIndex (Scenario.index "https://example.com/nlp"))
                    "Tell me about tokenization and tokens") = [m] ∧
      match_document m = Scenario.d2 ∧
      ∀ kw, kw ∈ matchedKeywords m ↔ kw ∈ ["tokenization"; "token"].
Proof.
  intros (m & Hm & _ & Hkw).
  vm_compute in Hm. injection Hm as <-.
  specialize (Hkw "token"). cbn [matchedKeywords] in Hkw.
  destruct Hkw as [_ Hkw].
  assert (Hin : "token" ∈ ["tokenization"]) by (apply Hkw; set_solver).
  apply list_elem_of_singleton in Hin. discriminate Hin.
Qed.

(** ** The Keyword Index Builder *)

Section KeywordIndex.
Import AskAndrew.

Lemma truthy_nonempty s : JS.truthy s = true ↔ s ≠ "".
Proof.
  unfold JS.truthy. destruct (String.eqb_spec s ""); split; naive_solver.
Qed.

Lemma foldl_bind {A B C} (f : A → C → A) (g : B → list C) a l :
  foldl f a (l ≫= g) = foldl (λ a x, foldl f a (g x)) a l.
Proof.
  revert a. induction l as [|x l IH]; intros a; [done|].
  rewrite bind_cons, foldl_app. apply IH.
Qed.

Lemma keywordMap_occurrences json :
  keywordMap (loadIndex json) = foldl Loop.bind_keyword ∅ (Spec.occurrences json).
Proof.
  unfold loadIndex, Spec.occurrences. cbn [keywordMap].
  generalize (∅ : gmap string Entry).
  induction json as [|cat json IH]; intros m; [done|].
  rewrite bind_cons, foldl_app. cbn [foldl]. rewrite <- IH. f_equal. clear IH.
  revert m. induction (documents cat) as [|doc docs IH]; intros m; [done|].
  rewrite bind_cons, foldl_app. cbn [foldl]. rewrite <- IH. f_equal. clear IH.
  revert m. induction (keywords doc) as [|raw raws IH]; intros m; [done|].
  rewrite bind_cons, foldl_app. cbn [foldl]. by rewrite <- IH.
Qed.

Lemma elem_of_occurrences json k e :
  (k, e) ∈ Spec.occurrences json ↔
  ∃ cat doc raw, cat ∈ json ∧ doc ∈ documents cat ∧ raw ∈ keywords doc ∧
    k = Spec.normalize_keyword raw ∧
    e = {| entry_document := doc; entry_category := category cat;
           entry_link := link cat |}.
Proof.
  unfold Spec.occurrences. rewrite list_elem_of_bind. split.
  - intros (cat & (doc & (raw & Hp & Hraw)%list_elem_of_bind & Hdoc)%list_elem_of_bind & Hcat).
    apply list_elem_of_singleton in Hp. simplify_eq. by exists cat, doc, raw.
  - intros (cat & doc & raw & Hcat & Hdoc & Hraw & -> & ->).
    exists cat. split; [|done]. apply list_elem_of_bind. exists doc. split; [|done].
    apply list_elem_of_bind. exists raw. split; [|done]. by apply list_elem_of_singleton.
Qed.

Lemma length_bind_sum {A B} (f : A → list B) (l : list A) :
  length (l ≫= f) = sum_list ((λ x, length (f x)) <$> l).
Proof.
  induction l as [|x l IH]; [done|].
  rewrite bind_cons, length_app, IH. done.
Qed.

Lemma length_occurrences json :
  length (Spec.occurrences json) = Spec.total_keywords json.
Proof.
  unfold Spec.occurrences, Spec.total_keywords.
  rewrite length_bind_sum. f_equal. apply list_fmap_ext. intros _ cat _.
  rewrite length_bind_sum. f_equal. apply list_fmap_ext. intros _ doc _.
  rewrite length_bind_sum. cbn [length].
  rewrite (sum_list_fmap_const (keywords doc) 1). lia.
Qed.

Lemma foldl_bind_keyword_empty_key occ m :
  foldl Loop.bind_keyword m occ !! "" = m !! "".
Proof.
  revert m. induction occ as [|[k e] occ IH]; intros m; [done|].
  cbn [foldl]. rewrite IH. unfold Loop.bind_keyword. cbn [fst snd].
  destruct (JS.truthy k) eqn:Hk; [|done].
  apply truthy_nonempty in Hk. by rewrite lookup_insert_ne.
Qed.

Lemma foldl_bind_keyword_lookup occ m k :
  k ≠ "" →
  foldl Loop.bind_keyword m occ !! k =
    match last (filter (λ p, p.1 = k) occ) with
    | Some p => Some p.2
    | None => m !! k
    end.
Proof.
  intros Hk. induction occ as [|[k' e] occ IH] using rev_ind; [done|].
  rewrite foldl_app, filter_app. cbn [foldl]. unfold Loop.bind_keyword at 1.
  cbn [fst snd]. rewrite filter_cons, filter_nil. cbn [fst].
  destruct (decide (k' = k)) as [->|Hne].
  - rewrite last_snoc. cbn [snd].
    rewrite (proj2 (truthy_nonempty k) Hk). apply lookup_insert_eq.
  - rewrite app_nil_r, <- IH.
    destruct (JS.truthy k'); [|done]. by rewrite lookup_insert_ne.
Qed.

Lemma size_foldl_bind_keyword occ m :
  size (foldl Loop.bind_keyword m occ) ≤ size m + length occ.
Proof.
  revert m. induction occ as [|[k e] occ IH]; intros m; [simpl; lia|].
  cbn [foldl length]. etrans; [apply IH|].
  unfold Loop.bind_keyword. cbn [fst snd]. destruct (JS.truthy k); [|lia].
  rewrite map_size_insert. destruct (m !! k); unfold Datatypes.id; simpl; lia.
Qed.

Lemma last_filter_is_Some {A} (P : A → Prop) `{∀ x, Decision (P x)} (l : list A) :
  is_Some (last (filter P l)) ↔ ∃ x, x ∈ l ∧ P x.
Proof.
  split.
  - intros [x Hx]. exists x. apply last_Some_elem_of in Hx.
    by apply list_elem_of_filter in Hx as [? ?].
  - intros (x & Hx & HP).
    destruct (last (filter P l)) eqn:Hlast; [eauto|].
    apply last_None in Hlast.
    assert (x ∈ filter P l) as Hin by by apply list_elem_of_filter.
    rewrite Hlast in Hin. by apply elem_of_nil in Hin.
Qed.

End KeywordIndex.

(** C4: the builder normalises every raw keyword by lower-casing and
    trimming, skips the empty ones and binds the others to the document with
    its category name and link; the map has one entry for every distinct
    non-empty normalised keyword, at most as many entries as there are
    keyword occurrences, and on a collision the occurrence that is last in
    load order wins.  The builder is a total function: nothing is raised. *)
Theorem keyword_index_build (json : list Category) :
  let km := keywordMap (AskAndrew.loadIndex json) in
  let occ := Spec.occurrences json in
  (∀ k e, (k, e) ∈ occ ↔
     ∃ cat doc raw, cat ∈ json ∧ doc ∈ documents cat ∧ raw ∈ keywords doc ∧
       k = JS.trim (JS.toLowerCase raw) ∧
       e = {| entry_document := doc; entry_category := category cat;
              entry_link := link cat |}) ∧
  (∀ k, km !! k =
     if decide (k = "") then None
     else snd <$> last (filter (λ p, p.1 = k) occ)) ∧
  (∀ k, is_Some (km !! k) ↔ k ≠ "" ∧ k ∈ occ.*1) ∧
  size km = length (remove_dups (filter (λ k, k ≠ "") occ.*1)) ∧
  length occ = Spec.total_keywords json ∧
  size km ≤ Spec.total_keywords json.
Proof.
  intros km occ.
  assert (Hlookup : ∀ k, km !! k =
     if decide (k = "") then None
     else snd <$> last (filter (λ p, p.1 = k) occ)).
  { intros k. unfold km. rewrite keywordMap_occurrences. fold occ.
    destruct (decide (k = "")) as [->|Hk].
    - by rewrite foldl_bind_keyword_empty_key.
    - rewrite foldl_bind_keyword_lookup by done.
      by destruct (last (filter (λ p, p.1 = k) occ)). }
  assert (Hdom : ∀ k, is_Some (km !! k) ↔ k ≠ "" ∧ k ∈ occ.*1).
  { intros k. rewrite Hlookup. destruct (decide (k = "")) as [->|Hk].
    - split; [by intros [? ?]|]. by intros [? _].
    - rewrite fmap_is_Some, last_filter_is_Some. split.
      + intros ([k' e] & Hin & <-). split; [done|].
        apply list_elem_of_fmap. by exists (k', e).
      + intros [_ ([k' e] & -> & Hin)%list_elem_of_fmap]. by exists (k', e). }
  split_and!.
  - apply elem_of_occurrences.
  - exact Hlookup.
  - exact Hdom.
  - rewrite <- size_dom.
    rewrite <- (size_list_to_set (C := gset string) (remove_dups _))
      by apply NoDup_remove_dups.
    f_equal. apply set_eq. intros k.
    rewrite elem_of_dom, Hdom, elem_of_list_to_set, elem_of_remove_dups,
      list_elem_of_filter. done.
  - apply length_occurrences.
  - unfold km. rewrite keywordMap_occurrences, <- length_occurrences.
    etrans; [apply size_foldl_bind_keyword|]. by rewrite map_size_empty.
Qed.

(** ** Ordered sets: [new Set(array)] *)

Section OrderedSets.

Lemma Set_has_true x s : JS.Set_has x s = true ↔ x ∈ s.
Proof. unfold JS.Set_has. apply bool_decide_eq_true. Qed.

Lemma elem_of_Set_add x y s : y ∈ JS.Set_add x s ↔ y ∈ s ∨ y = x.
Proof.
  unfold JS.Set_add, JS.Set_has. case_bool_decide as Hx.
  - split; [by left|]. by intros [?| ->].
  - rewrite elem_of_app, list_elem_of_singleton. done.
Qed.

Lemma NoDup_Set_add x s : NoDup s → NoDup (JS.Set_add x s).
Proof.
  intros Hs. unfold JS.Set_add, JS.Set_has. case_bool_decide as Hx; [done|].
  apply NoDup_app. split_and!; [done| |apply NoDup_singleton].
  intros y Hy ->%list_elem_of_singleton. done.
Qed.

Lemma foldl_Set_add acc l :
  foldl (λ s x, JS.Set_add x s) acc l
  = acc ++ filter (λ y, y ∉ acc) (Spec.dedup_first l).
Proof.
  revert acc. induction l as [|x l IH]; intros acc.
  - simpl. by rewrite app_nil_r.
  - cbn [foldl Spec.dedup_first]. rewrite IH.
    unfold JS.Set_add, JS.Set_has. case_bool_decide as Hx.
    + rewrite filter_cons_False by tauto. f_equal.
      rewrite list_filter_filter_l; [done|]. intros y Hy ->. done.
    + rewrite filter_cons_True by done. rewrite <- app_assoc. cbn [app].
      do 2 f_equal. rewrite list_filter_filter. apply list_filter_iff.
      intros y. rewrite elem_of_app, list_elem_of_singleton. tauto.
Qed.

Lemma Set_from_dedup_first l : JS.Set_from l = Spec.dedup_first l.
Proof.
  unfold JS.Set_from. rewrite foldl_Set_add. cbn [app].
  induction (Spec.dedup_first l) as [|y k IH]; [done|].
  rewrite filter_cons_True by apply not_elem_of_nil. by rewrite IH.
Qed.

Lemma elem_of_dedup_first x l : x ∈ Spec.dedup_first l ↔ x ∈ l.
Proof.
  induction l as [|y l IH]; [done|].
  cbn [Spec.dedup_first]. rewrite !elem_of_cons, list_elem_of_filter, IH.
  destruct (decide (x = y)); tauto.
Qed.

Lemma NoDup_dedup_first l : NoDup (Spec.dedup_first l).
Proof.
  induction l as [|y l IH]; [constructor|].
  cbn [Spec.dedup_first]. constructor; [|by apply NoDup_filter].
  rewrite list_elem_of_filter. tauto.
Qed.

(** Two deduplicated projections of one list stay aligned when the two
    projections determine each other. *)
Lemma dedup_first_aligned {A} (f g : A → string) (l : list A) :
  (∀ a b, a ∈ l → b ∈ l → f a = f b ↔ g a = g b) →
  Forall2 (λ c k, ∃ a, a ∈ l ∧ f a = c ∧ g a = k)
    (Spec.dedup_first (f <$> l)) (Spec.dedup_first (g <$> l)).
Proof.
  induction l as [|a l IH]; intros Hfg; [constructor|].
  rewrite !fmap_cons. cbn [Spec.dedup_first]. constructor.
  - exists a. split; [left|done].
  - apply Forall2_impl with (P := λ c k, ∃ b, b ∈ l ∧ f b = c ∧ g b = k).
    + apply Forall2_filter.
      * intros c k (b & Hb & <- & <-).
        assert (f b = f a ↔ g b = g a) by (apply Hfg; [by right|left]).
        tauto.
      * apply IH. intros b1 b2 ? ?. apply Hfg; by right.
    + intros c k (b & Hb & <- & <-). exists b. split; [by right|done].
Qed.

End OrderedSets.

Section Assemble.
Import AskAndrew.

Lemma searchContext_matches this userQuestion :
  sr_matches (performSearch this userQuestion) ≠ [] →
  categories (searchContext this userQuestion)
    = JS.Set_from (match_category <$> sr_matches (performSearch this userQuestion)) ∧
  links (searchContext this userQuestion)
    = JS.Set_from (match_link <$> sr_matches (performSearch this userQuestion)).
Proof.
  intros H. unfold searchContext.
  by destruct (sr_matches (performSearch this userQuestion)).
Qed.

End Assemble.

(** C8, as the code behaves: for a non-empty matches sequence, categories
    and links are the first-occurrence deduplications of the matches'
    category names and of their links; the two lists are aligned index by
    index when, among the matches, equal category names go with equal links
    and equal links with equal names.  The two deduplications are
    independent, so nothing aligns them otherwise. *)
Theorem context_categories_links (this : App) (userQuestion : string) :
  let matches := sr_matches (AskAndrew.performSearch this userQuestion) in
  let r := AskAndrew.searchContext this userQuestion in
  matches ≠ [] →
  categories r = Spec.dedup_first (match_category <$> matches) ∧
  links r = Spec.dedup_first (match_link <$> matches) ∧
  NoDup (categories r) ∧ NoDup (links r) ∧
  (∀ c, c ∈ categories r ↔ ∃ m, m ∈ matches ∧ match_category m = c) ∧
  (∀ k, k ∈ links r ↔ ∃ m, m ∈ matches ∧ match_link m = k) ∧
  ((∀ m1 m2, m1 ∈ matches → m2 ∈ matches →
      match_category m1 = match_category m2 ↔ match_link m1 = match_link m2) →
   length (categories r) = length (links r) ∧
   ∀ i c k, categories r !! i = Some c → links r !! i = Some k →
     ∃ m, m ∈ matches ∧ match_category m = c ∧ match_link m = k).
Proof.
  intros matches r Hne.
  destruct (searchContext_matches this userQuestion Hne) as [Hc Hl].
  fold matches r in Hc, Hl. rewrite Set_from_dedup_first in Hc, Hl.
  rewrite Hc, Hl. split_and!; [done|done|apply NoDup_dedup_first..| | |].
  - intros c. rewrite elem_of_dedup_first, list_elem_of_fmap.
    split; intros (m & ? & ?); by exists m.
  - intros k. rewrite elem_of_dedup_first, list_elem_of_fmap.
    split; intros (m & ? & ?); by exists m.
  - intros Hbij.
    pose proof (dedup_first_aligned match_category match_link matches Hbij) as Hall.
    split; [by eapply Forall2_length|].
    intros i c k Hi Hk. exact (Forall2_lookup_lr _ _ _ _ _ _ Hall Hi Hk).
Qed.

Lemma context_categories_links_witness :
  let this := AskAndrew.loadIndex (Scenario.index "https://example.com/nlp") in
  let r := AskAndrew.searchContext this "neural network tokenization" in
  categories r = ["AI Concepts"; "NLP"] ∧
  links r = ["https://example.com/ai"; "https://example.com/nlp"] ∧
  ∃ m, m ∈ sr_matches (AskAndrew.performSearch this "neural network tokenization") ∧
       match_category m = "NLP" ∧ match_link m = "https://example.com/nlp".
Proof.
  intros this r.
  assert (Hne : sr_matches (AskAndrew.performSearch this "neural network tokenization") ≠ [])
    by (vm_compute; discriminate).
  destruct (context_categories_links this "neural network tokenization" Hne)
    as (Hc & Hl & _ & _ & _ & _ & Hal).
  split; [vm_compute; reflexivity|]. split; [vm_compute; reflexivity|].
  assert (Hbij : ∀ m1 m2,
    m1 ∈ sr_matches (AskAndrew.performSearch this "neural network tokenization") →
    m2 ∈ sr_matches (AskAndrew.performSearch this "neural network tokenization") →
    match_category m1 = match_category m2 ↔ match_link m1 = match_link m2).
  { vm_compute sr_matches. intros m1 m2 H1 H2.
    apply elem_of_cons in H1 as [->|H1]; [|apply list_elem_of_singleton in H1 as ->];
    (apply elem_of_cons in H2 as [->|H2]; [|apply list_elem_of_singleton in H2 as ->]);
    cbn [match_category match_link]; split; first [reflexivity | discriminate]. }
  destruct (Hal Hbij) as [_ Hidx].
  apply (Hidx 1); vm_compute; reflexivity.
Defined.

Lemma shared_link_misaligned :
  let this := AskAndrew.loadIndex Scenario.shared_link_index in
  let matches := sr_matches (AskAndrew.performSearch this "alpha beta gamma") in
  let r := AskAndrew.searchContext this "alpha beta gamma" in
  matches ≠ [] ∧
  ¬ (∀ i c k, categories r !! i = Some c → links r !! i = Some k →
       ∃ cat, cat ∈ indexData this ∧ category cat = c ∧ link cat = k) ∧
  ¬ (∀ i c k, categories r !! i = Some c → links r !! i = Some k →
       ∃ m, m ∈ matches ∧ match_category m = c ∧ match_link m = k).
Proof.
  intros this matches r. split; [vm_compute; discriminate|]. split.
  - intros H. destruct (H 1 "B" "https://example.com/3") as (cat & Hin & Hc & Hk);
      [vm_compute; reflexivity..|].
    vm_compute in Hin.
    repeat (apply elem_of_cons in Hin as [->|Hin]; [discriminate|]).
    by apply elem_of_nil in Hin.
  - intros H. destruct (H 1 "B" "https://example.com/3") as (m & Hin & Hc & Hk);
      [vm_compute; reflexivity..|].
    vm_compute in Hin.
    repeat (apply elem_of_cons in Hin as [->|Hin]; [discriminate|]).
    by apply elem_of_nil in Hin.
Qed.

(** ** Ordered maps: [Map.has], [Map.set] and in-place update *)

Section OrderedMaps.
Context {V : Type}.
Implicit Types (m : list (string * V)) (k : string).

Lemma Map_has_keys k m : JS.Map_has k m = true ↔ k ∈ m.*1.
Proof.
  unfold JS.Map_has. induction m as [|[k' v] m IH]; cbn [JS.Map_get].
  - split; [done|]. by intros ?%elem_of_nil.
  - rewrite fmap_cons, elem_of_cons. cbn [fst].
    destruct (String.eqb_spec k' k) as [->|Hne].
    + split; [by left|done].
    + rewrite IH. split; [by right|]. intros [?|?]; [congruence|done].
Qed.

Lemma Map_set_fresh k v m : k ∉ m.*1 → JS.Map_set k v m = m ++ [(k, v)].
Proof.
  induction m as [|[k' v'] m IH]; [done|].
  rewrite fmap_cons, not_elem_of_cons. cbn [fst JS.Map_set]. intros [Hne Hm].
  destruct (String.eqb_spec k' k) as [->|_]; [done|].
  by rewrite IH.
Qed.

Lemma Map_alter_keys f k m : (JS.Map_alter f k m).*1 = m.*1.
Proof.
  induction m as [|[k' v'] m IH]; [done|].
  cbn [JS.Map_alter]. destruct (String.eqb k' k); rewrite !fmap_cons; cbn [fst].
  - done.
  - by rewrite IH.
Qed.

Lemma elem_of_Map_alter f k m k' v' :
  NoDup m.*1 →
  (k', v') ∈ JS.Map_alter f k m ↔
  (k' ≠ k ∧ (k', v') ∈ m) ∨ (k' = k ∧ ∃ v, (k, v) ∈ m ∧ v' = f v).
Proof.
  induction m as [|[k0 v0] m IH]; intros Hnd.
  - cbn [JS.Map_alter]. split; [by intros ?%elem_of_nil|].
    intros [[_ ?%elem_of_nil]|[_ (v & ?%elem_of_nil & _)]]; done.
  - rewrite fmap_cons in Hnd. cbn [fst] in Hnd.
    apply NoDup_cons in Hnd as [Hk0 Hnd]. specialize (IH Hnd).
    cbn [JS.Map_alter]. destruct (String.eqb_spec k0 k) as [->|Hne].
    + rewrite !elem_of_cons. split.
      * intros [[= -> ->]|Hin].
        -- right. split; [done|]. exists v0. split; [by left|done].
        -- left. split; [|by right]. intros ->. apply Hk0.
           apply list_elem_of_fmap. by exists (k, v').
      * intros [[Hk' [[= -> ->]|Hin]]|[-> (v & Hv & ->)]].
        -- done.
        -- by right.
        -- apply elem_of_cons in Hv as [[= ->]|Hv]; [by left|].
           destruct Hk0. apply list_elem_of_fmap. by exists (k, v).
    + rewrite !elem_of_cons, IH. split.
      * intros [[= -> ->]|[[? ?]|[-> (v & Hv & ->)]]].
        -- left. split; [done|by left].
        -- left. split; [done|by right].
        -- right. split; [done|]. exists v. split; [by right|done].
      * intros [[Hk' [[= -> ->]|Hin]]|[-> (v & Hv & ->)]].
        -- by left.
        -- right. left. done.
        -- right. right. split; [done|]. exists v. split; [|done].
           apply elem_of_cons in Hv as [[= <- <-]|Hv]; done.
Qed.

Lemma Map_keys_functional k v1 v2 m :
  NoDup m.*1 → (k, v1) ∈ m → (k, v2) ∈ m → v1 = v2.
Proof.
  induction m as [|[k0 v0] m IH]; intros Hnd H1 H2.
  - by apply elem_of_nil in H1.
  - rewrite fmap_cons in Hnd. cbn [fst] in Hnd.
    apply NoDup_cons in Hnd as [Hk0 Hnd].
    apply elem_of_cons in H1 as [H1|H1];
      apply elem_of_cons in H2 as [H2|H2]; simplify_eq.
    + done.
    + destruct Hk0. apply list_elem_of_fmap. eexists. by split; [|eassumption].
    + destruct Hk0. apply list_elem_of_fmap. eexists. by split; [|eassumption].
    + by apply IH.
Qed.

End OrderedMaps.

(** ** The matching loop *)

Section Matching.
Import AskAndrew.
Variable km : gmap string Entry.

Lemma bucket_keywords_snoc docId texts t :
  Loop.bucket_keywords km docId (texts ++ [t]) =
    Loop.bucket_keywords km docId texts
    ++ (if decide (Loop.docId_of km t = Some docId) then [t] else []).
Proof.
  unfold Loop.bucket_keywords. rewrite filter_app, filter_cons, filter_nil. done.
Qed.

Lemma bucket_keywords_nil docId texts :
  (∀ t e, t ∈ texts → km !! t = Some e → id (entry_document e) ≠ docId) →
  Loop.bucket_keywords km docId texts = [].
Proof.
  unfold Loop.bucket_keywords. induction texts as [|t ts IH]; intros H; [done|].
  rewrite filter_cons_False.
  - apply IH. intros t' e' ? ?. apply (H t' e'); [by right|done].
  - unfold Loop.docId_of. destruct (km !! t) as [e|] eqn:He; [|done].
    intros [= Hid]. by apply (H t e); [left|..].
Qed.

Lemma match_inv_init : Loop.match_inv km [] ([], []).
Proof.
  split; cbn [fst snd].
  - intros t. split; [by intros ?%elem_of_nil|]. by intros [?%elem_of_nil _].
  - constructor.
  - constructor.
  - by intros docId b ?%elem_of_nil.
  - by intros t e ?%elem_of_nil.
Qed.

Lemma match_inv_miss texts st ngram :
  km !! ngram_text ngram = None →
  Loop.match_inv km texts st →
  Loop.match_inv km (texts ++ [ngram_text ngram]) (match_ngram km st ngram).
Proof.
  intros Hmiss [I1 I2 I3 I4 I5]. unfold match_ngram. rewrite Hmiss.
  split; [|done|done| |].
  - intros t. rewrite I1, elem_of_app, list_elem_of_singleton. split.
    + intros [? ?]. split; [by left|done].
    + intros [[?| ->] Hs]; [done|]. rewrite Hmiss in Hs. by destruct Hs.
  - intros docId b Hb. destruct (I4 docId b Hb) as (Hkw & t & e & Ht & He & Hrest).
    split.
    + assert (Hd : Loop.docId_of km (ngram_text ngram) = None).
      { unfold Loop.docId_of. by rewrite Hmiss. }
      rewrite bucket_keywords_snoc, Hkw.
      rewrite decide_False by congruence. by rewrite app_nil_r.
    + exists t, e. split; [|done]. apply elem_of_app. by left.
  - intros t e [Ht| ->%list_elem_of_singleton]%elem_of_app He; [by eapply I5|].
    congruence.
Qed.

Lemma match_inv_hit texts st ngram mtch :
  km !! ngram_text ngram = Some mtch →
  Loop.match_inv km texts st →
  Loop.match_inv km (texts ++ [ngram_text ngram]) (match_ngram km st ngram).
Proof.
  intros Hhit [I1 I2 I3 I4 I5]. unfold match_ngram. rewrite Hhit.
  set (t := ngram_text ngram) in *.
  set (docId := id (entry_document mtch)).
  set (fresh := {| match_document := entry_document mtch;
                   match_category := entry_category mtch;
                   match_link := entry_link mtch;
                   matchedKeywords := [] |}).
  set (push := λ m : QueryMatch,
         {| match_document := match_document m;
            match_category := match_category m;
            match_link := match_link m;
            matchedKeywords := matchedKeywords m ++ [t] |}).
  set (dm1 := if JS.Map_has docId st.2 then st.2 else JS.Map_set docId fresh st.2).
  assert (Hdoc : Loop.docId_of km t = Some docId).
  { unfold Loop.docId_of. by rewrite Hhit. }
  assert (Hdm1 : NoDup dm1.*1 ∧ docId ∈ dm1.*1 ∧
            (∀ k b, (k, b) ∈ dm1 ↔
               (k, b) ∈ st.2 ∨ ((docId ∉ (st.2).*1) ∧ k = docId ∧ b = fresh)) ∧
            (∀ k, k ∈ st.2.*1 → k ∈ dm1.*1)).
  { unfold dm1. destruct (JS.Map_has docId st.2) eqn:Hhas.
    - apply Map_has_keys in Hhas. split_and!; [done|done| |done].
      intros k b. split; [by left|]. intros [?|(? & _)]; done.
    - assert (Hnot : docId ∉ st.2.*1).
      { intros Hin%Map_has_keys. congruence. }
      rewrite (Map_set_fresh _ _ _ Hnot), fmap_app. split_and!.
      + apply NoDup_app. split_and!; [done| |apply NoDup_singleton].
        intros k Hk ->%list_elem_of_singleton. done.
      + apply elem_of_app. right. by left.
      + intros k b. rewrite elem_of_app, list_elem_of_singleton. split.
        * intros [?|[= -> ->]]; [by left|by right].
        * intros [?|(_ & -> & ->)]; [by left|by right].
      + intros k Hk. apply elem_of_app. by left. }
  destruct Hdm1 as (Hnd1 & Hin1 & Hel1 & Hkeys1).
  split; cbn [fst snd]; fold dm1.
  - intros t'. rewrite elem_of_Set_add, I1, elem_of_app, list_elem_of_singleton.
    split.
    + intros [[? ?]| ->]; [split; [by left|done]|]. split; [by right|by eexists].
    + intros [[?| ->] ?]; [by left|by right].
  - by apply NoDup_Set_add.
  - by rewrite Map_alter_keys.
  - intros k b Hb. apply (elem_of_Map_alter push docId dm1 k b Hnd1) in Hb.
    rewrite bucket_keywords_snoc.
    destruct Hb as [[Hne Hb]|[-> (b0 & Hb0 & ->)]].
    + apply Hel1 in Hb as [Hb|(_ & ? & _)]; [|done].
      destruct (I4 k b Hb) as (Hkw & t0 & e0 & Ht0 & Hrest). split.
      * rewrite Hkw. rewrite decide_False by congruence.
        by rewrite app_nil_r.
      * exists t0, e0. split; [|done]. apply elem_of_app. by left.
    + rewrite decide_True by done. cbn [push matchedKeywords match_document
        match_category match_link].
      apply Hel1 in Hb0 as [Hb0|(Hnot & _ & ->)].
      * destruct (I4 docId b0 Hb0) as (Hkw & t0 & e0 & Ht0 & Hrest). split.
        -- by rewrite Hkw.
        -- exists t0, e0. split; [|done]. apply elem_of_app. by left.
      * split.
        -- cbn [fresh matchedKeywords]. f_equal. symmetry.
           apply bucket_keywords_nil. intros t0 e0 Ht0 He0 Hid.
           destruct Hnot. rewrite <- Hid. by eapply I5.
        -- exists t, mtch. split; [|done].
           apply elem_of_app. right. by left.
  - intros t' e' Ht' He'. rewrite Map_alter_keys.
    apply elem_of_app in Ht' as [Ht'| ->%list_elem_of_singleton].
    + apply Hkeys1. by eapply I5.
    + assert (e' = mtch) as -> by congruence. done.
Qed.

Lemma match_inv_step texts st ngram :
  Loop.match_inv km texts st →
  Loop.match_inv km (texts ++ [ngram_text ngram]) (match_ngram km st ngram).
Proof.
  destruct (km !! ngram_text ngram) as [mtch|] eqn:Hlook.
  - by apply match_inv_hit with mtch.
  - by apply match_inv_miss.
Qed.

Lemma match_inv_foldl nGrams texts st :
  Loop.match_inv km texts st →
  Loop.match_inv km (texts ++ (ngram_text <$> nGrams))
    (foldl (match_ngram km) st nGrams).
Proof.
  revert texts st. induction nGrams as [|ngram nGrams IH]; intros texts st Hinv.
  - by rewrite app_nil_r.
  - rewrite fmap_cons, cons_middle, app_assoc. cbn [foldl].
    apply IH, match_inv_step, Hinv.
Qed.

Lemma match_ngrams_inv nGrams :
  Loop.match_inv km (ngram_text <$> nGrams) (match_ngrams km nGrams).
Proof. apply (match_inv_foldl nGrams [] ([], [])), match_inv_init. Qed.

(** *** The rebuilt matches *)

Lemma final_match_Some kept kv m :
  final_match kept kv = Some m ↔
  filter (λ kw, kw ∈ kept) (matchedKeywords kv.2) ≠ [] ∧
  m = {| match_document := match_document kv.2;
         match_category := match_category kv.2;
         match_link := match_link kv.2;
         matchedKeywords := filter (λ kw, kw ∈ kept) (matchedKeywords kv.2) |}.
Proof.
  unfold final_match.
  destruct (filter (λ kw, kw ∈ kept) (matchedKeywords kv.2)) as [|kw kws] eqn:Hf;
    cbn [length Nat.ltb Nat.leb].
  - split; [done|]. by intros [? _].
  - split; [by intros [= <-]|]. by intros [_ ->].
Qed.

Section Final.
Variables (texts kept : list string) (st : list string * list (string * QueryMatch)).
Hypothesis Hinv : Loop.match_inv km texts st.

Lemma final_match_origin m :
  m ∈ omap (final_match kept) st.2 →
  ∃ b, (id (match_document m), b) ∈ st.2 ∧
       final_match kept (id (match_document m), b) = Some m ∧
       matchedKeywords m =
         filter (λ t, t ∈ kept ∧
                      Loop.docId_of km t = Some (id (match_document m))) texts.
Proof.
  intros ([docId b] & Hin & Hfin)%list_elem_of_omap.
  destruct (Loop.inv_bucket _ _ _ Hinv docId b Hin)
    as (Hkw & t & e & Ht & He & Hid & Hdoc & _).
  pose proof Hfin as Hfin'. apply final_match_Some in Hfin' as [Hne ->].
  cbn [snd match_document matchedKeywords] in *.
  assert (id (match_document b) = docId) as Hkey by congruence.
  rewrite Hkey. exists b. split_and!; [done..|].
  rewrite Hkw. unfold Loop.bucket_keywords. by rewrite list_filter_filter.
Qed.

Lemma final_match_keys_sublist (dm : list (string * QueryMatch)) :
  (∀ k b, (k, b) ∈ dm → id (match_document b) = k) →
  (λ m, id (match_document m)) <$> omap (final_match kept) dm `sublist_of` dm.*1.
Proof.
  induction dm as [|[k b] dm IH]; intros Hkey; [done|].
  cbn [omap list_omap]. rewrite fmap_cons. cbn [fst].
  assert (IH' : (λ m, id (match_document m)) <$> omap (final_match kept) dm
                `sublist_of` dm.*1).
  { apply IH. intros k' b' ?. apply Hkey. by right. }
  destruct (final_match kept (k, b)) as [m|] eqn:Hfin.
  - apply final_match_Some in Hfin as [_ ->]. rewrite fmap_cons.
    cbn [match_document snd]. rewrite (Hkey k b) by left.
    by apply sublist_skip.
  - by apply sublist_cons.
Qed.

Lemma final_matches_nodup :
  NoDup ((λ m, id (match_document m)) <$> omap (final_match kept) st.2).
Proof.
  eapply sublist_NoDup; [apply (Loop.inv_keys_nodup _ _ _ Hinv)|].
  apply final_match_keys_sublist. intros k b Hb.
  destruct (Loop.inv_bucket _ _ _ Hinv k b Hb) as (_ & t & e & _ & _ & Hid & Hdoc & _).
  congruence.
Qed.

Lemma kept_keyword_match kw :
  kw ∈ kept → kw ∈ st.1 →
  ∃ e m, km !! kw = Some e ∧ m ∈ omap (final_match kept) st.2 ∧
         kw ∈ matchedKeywords m ∧
         id (match_document m) = id (entry_document e).
Proof.
  intros Hkept Hmk.
  apply (Loop.inv_matched _ _ _ Hinv) in Hmk as [Ht [e He]].
  pose proof (Loop.inv_keys _ _ _ Hinv kw e Ht He) as Hkey.
  apply list_elem_of_fmap in Hkey as ([docId b] & Hid & Hb). cbn [fst] in Hid.
  destruct (Loop.inv_bucket _ _ _ Hinv docId b Hb) as (Hkw & t0 & e0 & _ & _ & Hid' & Hdoc & _).
  assert (Hin : kw ∈ filter (λ k, k ∈ kept) (matchedKeywords b)).
  { apply list_elem_of_filter. split; [done|]. rewrite Hkw.
    apply list_elem_of_filter. split; [|done].
    unfold Loop.docId_of. rewrite He. cbn. by rewrite Hid. }
  eexists e, _. split_and!; [done| | |].
  - apply list_elem_of_omap. exists (docId, b). split; [done|].
    apply final_match_Some. split; [|done].
    intros Hnil. cbn [snd] in Hnil. rewrite Hnil in Hin. by apply elem_of_nil in Hin.
  - done.
  - cbn [match_document snd]. congruence.
Qed.
End Final.
End Matching.

(** ** Substrings *)

Section Substrings.

Lemma string_app_nil_l s : "" +:+ s = s.
Proof. reflexivity. Qed.

Lemma string_app_cons c s t : String c s +:+ t = String c (s +:+ t).
Proof. reflexivity. Qed.

Lemma string_app_nil_r s : s +:+ "" = s.
Proof.
  induction s as [|c s IH]; [done|]. by rewrite string_app_cons, IH.
Qed.

Lemma string_app_assoc s t u : (s +:+ t) +:+ u = s +:+ (t +:+ u).
Proof.
  induction s as [|c s IH]; [done|]. by rewrite !string_app_cons, IH.
Qed.

Lemma string_app_length s t :
  String.length (s +:+ t) = String.length s + String.length t.
Proof.
  induction s as [|c s IH]; [done|].
  rewrite string_app_cons. cbn [String.length]. by rewrite IH.
Qed.

Lemma string_length_zero s : String.length s = 0 → s = "".
Proof. by destruct s. Qed.

Lemma prefix_append k s : String.prefix k s = true ↔ ∃ b, s = k +:+ b.
Proof.
  revert k. induction s as [|c s IH]; intros [|d k]; cbn [String.prefix].
  - split; [by exists ""|done].
  - split; [done|]. intros [b Hb]. by rewrite string_app_cons in Hb.
  - split; [|done]. intros _. by exists (String c s).
  - destruct (ascii_dec d c) as [->|Hne].
    + rewrite IH. split; intros [b Hb]; exists b.
      * by rewrite string_app_cons, Hb.
      * rewrite string_app_cons in Hb. by injection Hb.
    + split; [done|]. intros [b Hb]. rewrite string_app_cons in Hb. congruence.
Qed.

Lemma includes_substring s k : JS.includes s k = true ↔ Spec.substring k s.
Proof.
  unfold Spec.substring. split.
  - induction s as [|c s IH]; cbn [JS.includes];
      intros [Hp|Hr]%orb_true_iff; try done.
    + apply prefix_append in Hp as [b ->]. by exists "", b.
    + apply prefix_append in Hp as [b ->]. by exists "", b.
    + destruct (IH Hr) as (a & b & ->). by exists (String c a), b.
  - intros (a & b & ->). induction a as [|c a IH].
    + rewrite string_app_nil_l.
      assert (Hp : String.prefix k (k +:+ b) = true) by (apply prefix_append; eauto).
      destruct (k +:+ b); cbn [JS.includes]; by rewrite Hp.
    + rewrite string_app_cons. cbn [JS.includes]. rewrite IH. apply orb_true_r.
Qed.

Lemma substring_length k s : Spec.substring k s → String.length k ≤ String.length s.
Proof. intros (a & b & ->). rewrite !string_app_length. lia. Qed.

Lemma substring_trans k s u :
  Spec.substring k s → Spec.substring s u → Spec.substring k u.
Proof.
  intros (a & b & ->) (c & d & ->). exists (c +:+ a), (b +:+ d).
  by rewrite !string_app_assoc.
Qed.

Lemma substring_antisym k s : Spec.substring k s → Spec.substring s k → k = s.
Proof.
  intros (a & b & ->) Hs%substring_length.
  rewrite !string_app_length in Hs.
  assert (a = "") as -> by (apply string_length_zero; lia).
  assert (b = "") as -> by (apply string_length_zero; lia).
  by rewrite string_app_nil_l, string_app_nil_r.
Qed.

End Substrings.

(** ** The stable sort by descending word count *)

Section Sorting.
Context {A : Type} (cmp : A → A → Z) (key : A → nat).
Hypothesis cmp_key : ∀ x y, (cmp x y <=? 0)%Z = true ↔ key y ≤ key x.

Lemma sort_insert_perm x l : JS.sort_insert cmp x l ≡ₚ x :: l.
Proof.
  induction l as [|y l IH]; [done|]. cbn [JS.sort_insert].
  destruct (cmp x y <=? 0)%Z; [done|]. rewrite IH. apply Permutation_swap.
Qed.

Lemma Array_sort_perm l : JS.Array_sort cmp l ≡ₚ l.
Proof.
  unfold JS.Array_sort. induction l as [|x l IH]; [done|].
  cbn [foldr]. by rewrite sort_insert_perm, IH.
Qed.

Lemma sort_insert_sorted x l :
  StronglySorted (λ a b, key b ≤ key a) l →
  StronglySorted (λ a b, key b ≤ key a) (JS.sort_insert cmp x l).
Proof.
  induction 1 as [|y l Hl IH Hy]; cbn [JS.sort_insert].
  - repeat constructor.
  - destruct (cmp x y <=? 0)%Z eqn:Hxy.
    + apply cmp_key in Hxy. constructor; [by constructor|].
      constructor; [done|]. eapply Forall_impl; [exact Hy|].
      intros z Hz. simpl in *. lia.
    + assert (key x < key y) as Hlt.
      { destruct (Nat.le_gt_cases (key y) (key x)) as [Hle|?]; [|done].
        apply cmp_key in Hle. congruence. }
      constructor; [done|].
      rewrite (sort_insert_perm x l). constructor; [lia|done].
Qed.

Lemma Array_sort_sorted l :
  StronglySorted (λ a b, key b ≤ key a) (JS.Array_sort cmp l).
Proof.
  unfold JS.Array_sort. induction l as [|x l IH]; [constructor|].
  cbn [foldr]. by apply sort_insert_sorted.
Qed.

Lemma sort_insert_stable n x l :
  filter (λ a, key a = n) (JS.sort_insert cmp x l)
  = filter (λ a, key a = n) (x :: l).
Proof.
  induction l as [|y l IH]; [done|]. cbn [JS.sort_insert].
  destruct (cmp x y <=? 0)%Z eqn:Hxy; [done|].
  assert (key x < key y) as Hlt.
  { destruct (Nat.le_gt_cases (key y) (key x)) as [Hle|?]; [|done].
    apply cmp_key in Hle. congruence. }
  rewrite filter_cons, IH, !filter_cons.
  destruct (decide (key y = n)), (decide (key x = n)); try done. lia.
Qed.

Lemma Array_sort_stable n l :
  filter (λ a, key a = n) (JS.Array_sort cmp l) = filter (λ a, key a = n) l.
Proof.
  unfold JS.Array_sort. induction l as [|x l IH]; [done|].
  cbn [foldr]. by rewrite sort_insert_stable, !filter_cons, IH.
Qed.
End Sorting.

Section SubsetFilter.
Import AskAndrew.

Lemma wordCount_cmp x y :
  (Z.of_nat (wordCount y) - Z.of_nat (wordCount x) <=? 0)%Z = true
  ↔ wordCount y ≤ wordCount x.
Proof. rewrite Z.leb_le. lia. Qed.

Lemma sortedKeywords_perm matched : sortedKeywords_of matched ≡ₚ matched.
Proof. apply Array_sort_perm. Qed.

Lemma sortedKeywords_sorted matched :
  StronglySorted (λ a b, wordCount b ≤ wordCount a) (sortedKeywords_of matched).
Proof. apply Array_sort_sorted, wordCount_cmp. Qed.

Lemma sortedKeywords_stable n matched :
  filter (λ k, wordCount k = n) (sortedKeywords_of matched)
  = filter (λ k, wordCount k = n) matched.
Proof. apply (Array_sort_stable _ wordCount), wordCount_cmp. Qed.

(** One step of the walk. *)
Lemma filter_keyword_dominated kept k :
  Loop.dominated kept k → filter_keyword kept k = kept.
Proof.
  intros (e & He & Hne & Hsub). unfold filter_keyword.
  replace (existsb _ kept) with true; [done|]. symmetry.
  apply existsb_exists. exists e. split; [by apply list_elem_of_In|].
  apply andb_true_iff. split.
  - apply negb_true_iff. by apply String.eqb_neq.
  - by apply includes_substring.
Qed.

Lemma filter_keyword_free kept k :
  ¬ Loop.dominated kept k → filter_keyword kept k = JS.Set_add k kept.
Proof.
  intros Hfree. unfold filter_keyword.
  replace (existsb _ kept) with false; [done|]. symmetry.
  apply not_true_is_false. intros (e & He & Hc)%existsb_exists.
  apply andb_true_iff in Hc as [Hne Hinc]. apply Hfree. exists e. split_and!.
  - by apply list_elem_of_In.
  - by apply String.eqb_neq, negb_true_iff.
  - by apply includes_substring.
Qed.

Lemma dominated_dec kept k : Loop.dominated kept k ∨ ¬ Loop.dominated kept k.
Proof.
  destruct (existsb (λ e, negb (String.eqb e k) && JS.includes e k) kept) eqn:Hex.
  - left. apply existsb_exists in Hex as (e & He & Hc).
    apply andb_true_iff in Hc as [Hne Hinc]. exists e. split_and!.
    + by apply list_elem_of_In.
    + by apply String.eqb_neq, negb_true_iff.
    + by apply includes_substring.
  - right. intros (e & He & Hne & Hsub).
    apply not_true_iff_false in Hex. apply Hex, existsb_exists.
    exists e. split; [by apply list_elem_of_In|].
    apply andb_true_iff. split.
    + apply negb_true_iff. by apply String.eqb_neq.
    + by apply includes_substring.
Qed.

Lemma elem_of_filter_keyword kept k x :
  x ∈ filter_keyword kept k ↔ x ∈ kept ∨ (x = k ∧ ¬ Loop.dominated kept k).
Proof.
  destruct (dominated_dec kept k) as [Hd|Hd].
  - rewrite (filter_keyword_dominated _ _ Hd). tauto.
  - rewrite (filter_keyword_free _ _ Hd), elem_of_Set_add. tauto.
Qed.

Lemma walk_mono acc l x : x ∈ acc → x ∈ foldl filter_keyword acc l.
Proof.
  revert acc. induction l as [|k l IH]; intros acc Hx; [done|].
  cbn [foldl]. apply IH, elem_of_filter_keyword. by left.
Qed.

Lemma walk_elem acc l x : x ∈ foldl filter_keyword acc l → x ∈ acc ∨ x ∈ l.
Proof.
  revert acc. induction l as [|k l IH]; intros acc; [by left|].
  cbn [foldl]. intros [Hx|Hx]%IH.
  - apply elem_of_filter_keyword in Hx as [?|[-> _]]; [by left|right; left].
  - right. by right.
Qed.

Lemma walk_nodup acc l : NoDup acc → NoDup (foldl filter_keyword acc l).
Proof.
  revert acc. induction l as [|k l IH]; intros acc Hacc; [done|].
  cbn [foldl]. apply IH. unfold filter_keyword.
  destruct (negb _); [by apply NoDup_Set_add|done].
Qed.

Lemma dominated_mono kept kept' k :
  (∀ x, x ∈ kept → x ∈ kept') → Loop.dominated kept k → Loop.dominated kept' k.
Proof. intros Hsub (e & He & Hrest). exists e. split; [by apply Hsub|done]. Qed.

(** Every keyword that was walked over is kept or is a proper part of a
    kept keyword. *)
Lemma walk_covers acc l k :
  k ∈ l →
  k ∈ foldl filter_keyword acc l ∨ Loop.dominated (foldl filter_keyword acc l) k.
Proof.
  revert acc. induction l as [|x l IH]; intros acc Hk; [by apply elem_of_nil in Hk|].
  cbn [foldl]. apply elem_of_cons in Hk as [->|Hk]; [|by apply IH].
  destruct (dominated_dec acc x) as [Hd|Hd].
  - right. eapply dominated_mono; [|exact Hd].
    intros y Hy. apply walk_mono, elem_of_filter_keyword. by left.
  - left. apply walk_mono, elem_of_filter_keyword. by right.
Qed.

(** The decision taken for [k] when the walk reaches it. *)
Lemma walk_decision pre k post :
  k ∉ pre → k ∉ post →
  k ∈ foldl filter_keyword [] (pre ++ k :: post)
  ↔ ¬ Loop.dominated (foldl filter_keyword [] pre) k.
Proof.
  intros Hpre Hpost. rewrite foldl_app. cbn [foldl].
  assert (Hnot : k ∉ foldl filter_keyword [] pre).
  { intros [?%elem_of_nil|?]%walk_elem; done. }
  split.
  - intros [Hk|Hk]%walk_elem; [|done].
    apply elem_of_filter_keyword in Hk as [?|[_ ?]]; done.
  - intros Hfree. apply walk_mono, elem_of_filter_keyword. by right.
Qed.

Lemma filteredKeywords_subset matched k :
  k ∈ filteredKeywords_of matched → k ∈ matched.
Proof.
  unfold filteredKeywords_of. intros [?%elem_of_nil|Hk]%walk_elem; [done|].
  by rewrite <- (sortedKeywords_perm matched).
Qed.

Lemma filteredKeywords_covers matched k :
  k ∈ matched →
  k ∈ filteredKeywords_of matched ∨ Loop.dominated (filteredKeywords_of matched) k.
Proof.
  intros Hk. apply walk_covers. by rewrite (sortedKeywords_perm matched).
Qed.

(** A keyword with fewer words than a matched keyword of which it is a
    part is never kept. *)
Lemma shorter_part_dropped matched a b :
  NoDup matched → a ∈ matched →
  Spec.substring b a → wordCount b < wordCount a →
  b ∉ filteredKeywords_of matched.
Proof.
  intros Hnd Ha Hsub Hwc Hb.
  pose proof (filteredKeywords_subset _ _ Hb) as Hbm.
  assert (Hne : a ≠ b) by (intros ->; lia).
  rewrite <- (sortedKeywords_perm matched) in Ha, Hbm, Hnd.
  pose proof (sortedKeywords_sorted matched) as Hsorted.
  unfold filteredKeywords_of in Hb.
  destruct (list_elem_of_split _ _ Hbm) as (pre & post & Heq).
  rewrite Heq in Ha, Hnd, Hsorted, Hb.
  apply NoDup_app in Hnd as (_ & Hpre & Hpost%NoDup_cons).
  destruct Hpost as [Hpost _].
  assert (Hbpre : b ∉ pre) by (intros ?; by apply (Hpre b); [|left]).
  apply walk_decision in Hb; [|done..].
  apply Hb. clear Hb.
  assert (Hapre : a ∈ pre).
  { apply elem_of_app in Ha as [?|[?|Ha]%elem_of_cons]; [done|congruence|].
    apply StronglySorted_app_1_r in Hsorted.
    apply StronglySorted_inv in Hsorted as [_ Hall].
    rewrite Forall_forall in Hall. specialize (Hall a Ha). simpl in Hall. lia. }
  destruct (walk_covers [] pre a Hapre) as [Hin|(e & He & Hea & Hsub')].
  - exists a. done.
  - exists e. split_and!; [done| |by eapply substring_trans].
    intros ->. apply Hea. by apply substring_antisym.
Qed.

End SubsetFilter.

(** C2, as the code behaves: the matched keywords are walked in descending
    word count, ties in collection order, and a keyword is kept unless a
    different keyword kept before contains it as a substring; every matched
    keyword is kept or is part of a kept one.  When "large language model"
    is triggered, "language model" and "language" are never kept, and
    "large language model" itself is kept when no other triggered keyword
    contains it; the substring test is blind to word boundaries, so a
    triggered "large language models" takes its place. *)
Theorem subset_filter :
  (∀ matched : list string, NoDup matched →
     let sorted := AskAndrew.sortedKeywords_of matched in
     let kept := AskAndrew.filteredKeywords_of matched in
     sorted ≡ₚ matched ∧
     StronglySorted (λ a b, AskAndrew.wordCount b ≤ AskAndrew.wordCount a) sorted ∧
     (∀ n, filter (λ k, AskAndrew.wordCount k = n) sorted
           = filter (λ k, AskAndrew.wordCount k = n) matched) ∧
     (∀ pre k post, sorted = pre ++ k :: post →
        (k ∈ kept ↔
         ¬ ∃ e, e ∈ foldl AskAndrew.filter_keyword [] pre ∧ e ≠ k ∧
                Spec.substring k e)) ∧
     NoDup kept ∧
     (∀ k, k ∈ kept → k ∈ matched) ∧
     (∀ k, k ∈ matched →
        k ∈ kept ∨ ∃ e, e ∈ kept ∧ e ≠ k ∧ Spec.substring k e)) ∧
  (∀ (this : App) (userQuestion : string),
     let nGrams := AskAndrew.nGrams_of (AskAndrew.words_of userQuestion) in
     let matched := (AskAndrew.match_ngrams (keywordMap this) nGrams).1 in
     let kept := sr_matchedKeywords (AskAndrew.performSearch this userQuestion) in
     NoDup matched ∧
     (∀ k, k ∈ matched ↔
           k ∈ ngram_text <$> nGrams ∧ is_Some (keywordMap this !! k)) ∧
     kept = AskAndrew.filteredKeywords_of matched ∧
     ("large language model" ∈ matched →
        ("language model" ∉ kept) ∧ ("language" ∉ kept) ∧
        ((∀ e, e ∈ matched → e ≠ "large language model" →
               ¬ Spec.substring "large language model" e) →
         "large language model" ∈ kept))).
Proof.
  split.
  - intros matched Hnd sorted kept. split_and!.
    + apply sortedKeywords_perm.
    + apply sortedKeywords_sorted.
    + intros n. apply sortedKeywords_stable.
    + intros pre k post Heq.
      assert (Hnd' : NoDup sorted) by (unfold sorted; by rewrite sortedKeywords_perm).
      rewrite Heq in Hnd'. apply NoDup_app in Hnd' as (_ & Hpre & Hpost%NoDup_cons).
      destruct Hpost as [Hpost _].
      unfold kept, AskAndrew.filteredKeywords_of. fold sorted. rewrite Heq.
      apply walk_decision; [|done]. intros Hk. by apply (Hpre k); [|left].
    + apply walk_nodup. constructor.
    + apply filteredKeywords_subset.
    + apply filteredKeywords_covers.
  - intros this userQuestion nGrams matched kept.
    pose proof (match_ngrams_inv (keywordMap this) nGrams) as Hinv.
    pose proof (Loop.inv_matched_nodup _ _ _ Hinv) as Hnd.
    split_and!; [done|apply Hinv|done|].
    intros Hllm. split_and!.
    + apply (shorter_part_dropped matched "large language model"); [done..| |].
      * by exists "large ", "".
      * vm_compute. lia.
    + apply (shorter_part_dropped matched "large language model"); [done..| |].
      * by exists "large ", " model".
      * vm_compute. lia.
    + intros Hfree.
      destruct (filteredKeywords_covers matched _ Hllm) as [?|(e & He & Hne & Hsub)];
        [done|].
      destruct (Hfree e); [by apply filteredKeywords_subset|done..].
Qed.

Lemma subset_filter_witness :
  let this := AskAndrew.loadIndex Scenario.llm_index in
  let kept := sr_matchedKeywords
                (AskAndrew.performSearch this "What is a large language model?") in
  let matched := ["language"; "language model"; "large language model"] in
  (NoDup matched ∧
   AskAndrew.sortedKeywords_of matched ≡ₚ matched ∧
   NoDup (AskAndrew.filteredKeywords_of matched)) ∧
  "large language model" ∈ kept ∧ ("language model" ∉ kept) ∧ ("language" ∉ kept).
Proof.
  intros this kept matched.
  destruct subset_filter as [Hgen Hq].
  assert (Hnd : NoDup matched).
  { apply (bool_decide_unpack _). vm_compute. exact I. }
  split.
  { destruct (Hgen matched Hnd) as (Hperm & _ & _ & _ & Hkept & _).
    split; [exact Hnd|]. split; [exact Hperm|exact Hkept]. }
  destruct (Hq this "What is a large language model?") as (_ & _ & _ & Hllm).
  destruct Hllm as (Hlm & Hl & Hkeep).
  { vm_compute. left. }
  split; [|by split].
  apply Hkeep. intros e He Hne Hsub%includes_substring.
  vm_compute in He.
  repeat (apply elem_of_cons in He as [->|He];
          [first [done | vm_compute in Hsub; discriminate Hsub]|]).
  by apply elem_of_nil in He.
Defined.

Lemma plural_keyword_shadows_singular :
  let this := AskAndrew.loadIndex Scenario.llm_index in
  let userQuestion := "large language models vs large language model" in
  let nGrams := AskAndrew.nGrams_of (AskAndrew.words_of userQuestion) in
  let matched := (AskAndrew.match_ngrams (keywordMap this) nGrams).1 in
  let kept := sr_matchedKeywords (AskAndrew.performSearch this userQuestion) in
  is_Some (keywordMap this !! "large language model") ∧
  is_Some (keywordMap this !! "language model") ∧
  "large language model" ∈ matched ∧ "language model" ∈ matched ∧
  ¬ ("large language model" ∈ kept ∧ "language model" ∉ kept).
Proof.
  intros this userQuestion nGrams matched kept. split_and!.
  - vm_compute. eauto.
  - vm_compute. eauto.
  - vm_compute. right. left.
  - vm_compute. do 2 right. left.
  - intros [Hin _]. vm_compute in Hin.
    apply list_elem_of_singleton in Hin. discriminate Hin.
Qed.

(** ** The matches returned by [performSearch] *)

Section Results.
Import AskAndrew.
Variables (this : App) (userQuestion : string).

Local Abbreviation nGrams := (nGrams_of (words_of userQuestion)).
Local Abbreviation st := (match_ngrams (keywordMap this) nGrams).
Local Abbreviation kept := (filteredKeywords_of st.1).

Lemma performSearch_unfold :
  performSearch this userQuestion =
    {| sr_matches := omap (final_match kept) st.2;
       sr_matchedKeywords := kept |}.
Proof. reflexivity. Qed.

Lemma search_inv : Loop.match_inv (keywordMap this) (ngram_text <$> nGrams) st.
Proof. apply match_ngrams_inv. Qed.

Lemma search_match_origin m :
  m ∈ sr_matches (performSearch this userQuestion) →
  ∃ b, (id (match_document m), b) ∈ st.2 ∧
    match_document m = match_document b ∧
    matchedKeywords m = filter (λ kw, kw ∈ kept) (matchedKeywords b) ∧
    matchedKeywords m ≠ [].
Proof.
  rewrite performSearch_unfold. cbn [sr_matches]. intros Hm.
  destruct (final_match_origin _ _ kept _ search_inv m Hm) as (b & Hb & Hfin & _).
  exists b. apply final_match_Some in Hfin as [Hne Heq]. cbn [snd] in *.
  split; [done|]. rewrite Heq at 1 2 3. by cbn [match_document matchedKeywords].
Qed.

Lemma search_match_keywords m kw :
  m ∈ sr_matches (performSearch this userQuestion) →
  kw ∈ matchedKeywords m → kw ∈ kept.
Proof.
  intros (b & _ & _ & Heq & _)%search_match_origin. rewrite Heq.
  by intros [? _]%list_elem_of_filter.
Qed.

Lemma search_match_entry m :
  m ∈ sr_matches (performSearch this userQuestion) →
  ∃ t e, keywordMap this !! t = Some e ∧
    id (entry_document e) = id (match_document m) ∧
    match_document m = entry_document e ∧
    match_category m = entry_category e ∧
    match_link m = entry_link e.
Proof.
  rewrite performSearch_unfold. cbn [sr_matches].
  intros ([docId b] & Hin & Hfin)%list_elem_of_omap.
  destruct (Loop.inv_bucket _ _ _ search_inv docId b Hin)
    as (_ & t & e & _ & He & Hid & Hdoc & Hcat & Hlink).
  apply final_match_Some in Hfin as [_ ->].
  cbn [snd match_document match_category match_link].
  exists t, e. split_and!; [done|congruence|done..].
Qed.

Lemma search_match_unique m m' kw :
  m ∈ sr_matches (performSearch this userQuestion) →
  m' ∈ sr_matches (performSearch this userQuestion) →
  kw ∈ matchedKeywords m → kw ∈ matchedKeywords m' → m' = m.
Proof.
  rewrite performSearch_unfold. cbn [sr_matches]. intros Hm Hm' Hkw Hkw'.
  destruct (final_match_origin _ _ kept _ search_inv m Hm) as (b & Hb & Hfin & Heq).
  destruct (final_match_origin _ _ kept _ search_inv m' Hm') as (b' & Hb' & Hfin' & Heq').
  rewrite Heq in Hkw. rewrite Heq' in Hkw'.
  apply list_elem_of_filter in Hkw as [[_ Hd] _].
  apply list_elem_of_filter in Hkw' as [[_ Hd'] _].
  assert (Hid : id (match_document m') = id (match_document m)) by congruence.
  rewrite Hid in Hb', Hfin'.
  assert (b' = b) as ->.
  { eapply Map_keys_functional; [apply (Loop.inv_keys_nodup _ _ _ search_inv)|done..]. }
  congruence.
Qed.
End Results.

(** C7: every QueryMatch of the final list has a non-empty matchedKeywords
    list made of kept keywords, and a bucket whose keywords were all removed
    by the subset filter has no QueryMatch in the final list. *)
Theorem bucket_integrity (this : App) (userQuestion : string) :
  let st := AskAndrew.match_ngrams (keywordMap this)
              (AskAndrew.nGrams_of (AskAndrew.words_of userQuestion)) in
  let r := AskAndrew.performSearch this userQuestion in
  (∀ m, m ∈ sr_matches r →
     matchedKeywords m ≠ [] ∧
     ∀ kw, kw ∈ matchedKeywords m → kw ∈ sr_matchedKeywords r) ∧
  (∀ m, m ∈ sr_matches r →
     ∃ b, (id (match_document m), b) ∈ st.2 ∧
       match_document m = match_document b ∧
       matchedKeywords m =
         filter (λ kw, kw ∈ sr_matchedKeywords r) (matchedKeywords b)) ∧
  (∀ docId b, (docId, b) ∈ st.2 →
     (∀ kw, kw ∈ matchedKeywords b → kw ∉ sr_matchedKeywords r) →
     ∀ m, m ∈ sr_matches r → id (match_document m) ≠ docId).
Proof.
  intros st r. split_and!.
  - intros m Hm. split.
    + by destruct (search_match_origin this userQuestion m Hm) as (b & _ & _ & _ & ?).
    + intros kw. by apply search_match_keywords.
  - intros m Hm.
    destruct (search_match_origin this userQuestion m Hm) as (b & ? & ? & ? & _).
    by exists b.
  - intros docId b Hb Hlost m Hm Hid.
    destruct (search_match_origin this userQuestion m Hm) as (b' & Hb' & _ & Heq & Hne).
    rewrite Hid in Hb'.
    assert (b' = b) as ->.
    { eapply Map_keys_functional;
        [apply (Loop.inv_keys_nodup _ _ _ (search_inv this userQuestion))|done..]. }
    destruct (matchedKeywords m) as [|kw kws] eqn:Hf; [done|].
    assert (Hkw : kw ∈ filter (λ kw, kw ∈ sr_matchedKeywords r) (matchedKeywords b)).
    { unfold r. rewrite performSearch_unfold. cbn [sr_matchedKeywords].
      rewrite <- Heq. left. }
    apply list_elem_of_filter in Hkw as [Hkept Hin]. by apply (Hlost kw).
Qed.

Lemma bucket_integrity_witness :
  let this := AskAndrew.loadIndex Scenario.split_index in
  let r := AskAndrew.performSearch this "large language model" in
  let whole :=
    {| match_document :=
         {| id := "whole"; title := "LLM"; content := "An LLM is...";
            keywords := ["large language model"] |};
       match_category := "Generative AI";
       match_link := "https://example.com/genai";
       matchedKeywords := ["large language model"] |} in
  sr_matchedKeywords r = ["large language model"] ∧
  (whole ∈ sr_matches r ∧ matchedKeywords whole ≠ []) ∧
  ∀ m, m ∈ sr_matches r → id (match_document m) ≠ "part".
Proof.
  intros this r whole. split; [vm_compute; reflexivity|].
  destruct (bucket_integrity this "large language model") as (Hkeep & _ & Hlost).
  split.
  { assert (Hin : whole ∈ sr_matches r) by (vm_compute; left).
    split; [exact Hin|]. by destruct (Hkeep whole Hin). }
  apply (Hlost "part"
           {| match_document :=
                {| id := "part"; title := "LM"; content := "A model of...";
                   keywords := ["language model"] |};
              match_category := "Generative AI";
              match_link := "https://example.com/genai";
              matchedKeywords := ["language model"] |}).
  - vm_compute. right. left.
  - intros kw Hkw Hkept. cbn [matchedKeywords] in Hkw.
    apply list_elem_of_singleton in Hkw as ->.
    vm_compute in Hkept. apply list_elem_of_singleton in Hkept. discriminate Hkept.
Defined.

(** C10, as the code behaves: the kept keywords are, as a set, the union
    of the matchedKeywords of the returned QueryMatches; a kept keyword
    lies in exactly one QueryMatch, whose document has the id of the
    document that its index entry points to (the id is the key of the
    buckets) and is that document when ids identify the documents of the
    Keyword Index; no QueryMatch holds a keyword outside the kept set. *)
Theorem kept_keywords_partition (this : App) (userQuestion : string) :
  let r := AskAndrew.performSearch this userQuestion in
  (∀ kw, kw ∈ sr_matchedKeywords r ↔
         ∃ m, m ∈ sr_matches r ∧ kw ∈ matchedKeywords m) ∧
  NoDup ((λ m, id (match_document m)) <$> sr_matches r) ∧
  (∀ kw, kw ∈ sr_matchedKeywords r →
     ∃ e m, keywordMap this !! kw = Some e ∧
       m ∈ sr_matches r ∧ kw ∈ matchedKeywords m ∧
       id (match_document m) = id (entry_document e) ∧
       (Spec.ids_identify (keywordMap this) →
          match_document m = entry_document e) ∧
       ∀ m', m' ∈ sr_matches r → kw ∈ matchedKeywords m' → m' = m).
Proof.
  intros r.
  pose proof (search_inv this userQuestion) as Hinv.
  assert (Hkept : ∀ kw, kw ∈ sr_matchedKeywords r →
     ∃ e m, keywordMap this !! kw = Some e ∧
       m ∈ sr_matches r ∧ kw ∈ matchedKeywords m ∧
       id (match_document m) = id (entry_document e)).
  { intros kw Hkw. unfold r in *. rewrite performSearch_unfold in *.
    cbn [sr_matches sr_matchedKeywords] in *.
    eapply kept_keyword_match; [exact Hinv|done|by apply filteredKeywords_subset]. }
  split_and!.
  - intros kw. split.
    + intros Hkw. destruct (Hkept kw Hkw) as (e & m & _ & Hm & Hin & _). by exists m.
    + intros (m & Hm & Hin).
      by apply (search_match_keywords this userQuestion m).
  - unfold r. rewrite performSearch_unfold. cbn [sr_matches].
    eapply final_matches_nodup, Hinv.
  - intros kw Hkw. destruct (Hkept kw Hkw) as (e & m & He & Hm & Hin & Hid).
    exists e, m. split_and!; [done..| |].
    + intros Hids.
      destruct (search_match_entry this userQuestion m Hm) as (t0 & e0 & He0 & Hid0 & Hdoc0 & _).
      rewrite Hdoc0. apply (Hids t0 kw); [done..|congruence].
    + intros m' Hm' Hin'. by eapply search_match_unique.
Qed.

(** ** Matches over an index built by [loadIndex] *)

Section BuiltIndex.
Import AskAndrew.
Variable json : list Category.

Lemma keywordMap_lookup_occurrence k e :
  keywordMap (loadIndex json) !! k = Some e → (k, e) ∈ Spec.occurrences json.
Proof.
  rewrite keywordMap_occurrences. destruct (decide (k = "")) as [->|Hk].
  - by rewrite foldl_bind_keyword_empty_key, lookup_empty.
  - rewrite foldl_bind_keyword_lookup by done.
    destruct (last (filter (λ p, p.1 = k) (Spec.occurrences json)))
      as [[k' e']|] eqn:Hlast; [|by rewrite lookup_empty].
    intros [= <-]. apply last_Some_elem_of in Hlast.
    apply list_elem_of_filter in Hlast as [Hk' Hin]. cbn [fst snd] in *. by subst.
Qed.

Lemma keywordMap_entry_document k e :
  keywordMap (loadIndex json) !! k = Some e →
  entry_document e ∈ Spec.all_documents json ∧
  ∃ raw, raw ∈ keywords (entry_document e) ∧ k = JS.trim (JS.toLowerCase raw).
Proof.
  intros (cat & doc & raw & Hcat & Hdoc & Hraw & -> & ->)%keywordMap_lookup_occurrence
           %elem_of_occurrences.
  cbn [entry_document]. split; [|by exists raw].
  unfold Spec.all_documents. apply list_elem_of_bind. by exists cat.
Qed.

Lemma unique_ids_identify :
  Spec.unique_ids json → Spec.ids_identify (keywordMap (loadIndex json)).
Proof.
  intros Huniq k1 k2 e1 e2 [H1 _]%keywordMap_entry_document
    [H2 _]%keywordMap_entry_document Hid.
  by apply Huniq.
Qed.
End BuiltIndex.

(** C6, as the code behaves: the matchedKeywords of a QueryMatch is a list
    with one entry for every n-gram occurrence whose text is a kept keyword
    of that document, in generation order, so a keyword whose n-gram occurs
    at two positions of the question is listed twice; every entry is a kept
    keyword and a normalised keyword of a document with the id of the
    QueryMatch's document, which is that document when ids are unique. *)
Theorem matched_keywords_entries (json : list Category) (userQuestion : string) :
  let this := AskAndrew.loadIndex json in
  let r := AskAndrew.performSearch this userQuestion in
  let texts := ngram_text <$> AskAndrew.nGrams_of (AskAndrew.words_of userQuestion) in
  ∀ m, m ∈ sr_matches r →
    matchedKeywords m =
      filter (λ t, t ∈ sr_matchedKeywords r ∧
                   Loop.docId_of (keywordMap this) t = Some (id (match_document m)))
        texts ∧
    match_document m ∈ Spec.all_documents json ∧
    (∀ kw, kw ∈ matchedKeywords m →
       kw ∈ sr_matchedKeywords r ∧
       ∃ doc raw, doc ∈ Spec.all_documents json ∧
         id doc = id (match_document m) ∧
         raw ∈ keywords doc ∧ kw = JS.trim (JS.toLowerCase raw)) ∧
    (Spec.unique_ids json →
       ∀ kw, kw ∈ matchedKeywords m →
         ∃ raw, raw ∈ keywords (match_document m) ∧
                kw = JS.trim (JS.toLowerCase raw)).
Proof.
  intros this r texts m Hm.
  assert (Hlist : matchedKeywords m =
      filter (λ t, t ∈ sr_matchedKeywords r ∧
                   Loop.docId_of (keywordMap this) t = Some (id (match_document m)))
        texts).
  { unfold r in Hm |- *. rewrite performSearch_unfold in Hm |- *.
    cbn [sr_matches sr_matchedKeywords] in Hm |- *.
    by destruct (final_match_origin _ _ _ _ (search_inv this userQuestion) m Hm)
      as (b & _ & _ & ?). }
  assert (Hdoc : match_document m ∈ Spec.all_documents json).
  { destruct (search_match_entry this userQuestion m Hm) as (t0 & e0 & He0 & _ & -> & _).
    by apply keywordMap_entry_document in He0 as [? _]. }
  assert (Hentry : ∀ kw, kw ∈ matchedKeywords m →
       kw ∈ sr_matchedKeywords r ∧
       ∃ doc raw, doc ∈ Spec.all_documents json ∧
         id doc = id (match_document m) ∧
         raw ∈ keywords doc ∧ kw = JS.trim (JS.toLowerCase raw)).
  { intros kw Hkw. rewrite Hlist in Hkw.
    apply list_elem_of_filter in Hkw as [[Hkept Hd] _]. split; [done|].
    unfold Loop.docId_of in Hd.
    destruct (keywordMap this !! kw) as [e|] eqn:He; [|done].
    injection Hd as Hd.
    apply keywordMap_entry_document in He as (Hin & raw & Hraw & ->).
    by exists (entry_document e), raw. }
  split_and!; [done..|].
  intros Huniq kw Hkw.
  destruct (Hentry kw Hkw) as (_ & doc & raw & Hin & Hid & Hraw & ->).
  assert (doc = match_document m) as -> by by apply Huniq.
  by exists raw.
Qed.

Lemma scenario_unique_ids nlp_link : Spec.unique_ids (Scenario.index nlp_link).
Proof.
  intros d1 d2 H1 H2 Hid. vm_compute in H1, H2.
  apply elem_of_cons in H1 as [->|H1];
    [|apply list_elem_of_singleton in H1 as ->];
    (apply elem_of_cons in H2 as [->|H2];
       [|apply list_elem_of_singleton in H2 as ->]);
    first [reflexivity | discriminate Hid].
Qed.

Lemma matched_keywords_entries_witness :
  let this := AskAndrew.loadIndex (Scenario.index "https://example.com/nlp") in
  let m := {| match_document := Scenario.d2; match_category := "NLP";
              match_link := "https://example.com/nlp";
              matchedKeywords := ["token"; "token"] |} in
  m ∈ sr_matches (AskAndrew.performSearch this "token token") ∧
  ∃ raw, raw ∈ keywords Scenario.d2 ∧ "token" = JS.trim (JS.toLowerCase raw).
Proof.
  intros this m.
  assert (Hm : m ∈ sr_matches (AskAndrew.performSearch this "token token")).
  { vm_compute. left. }
  split; [exact Hm|].
  destruct (matched_keywords_entries (Scenario.index "https://example.com/nlp")
              "token token" m Hm) as (_ & _ & _ & Hkw).
  apply (Hkw (scenario_unique_ids _) "token"). left.
Defined.

Lemma repeated_word_repeats_keyword :
  ¬ ∀ m, m ∈ sr_matches (AskAndrew.performSearch
                           (AskAndrew.loadIndex (Scenario.index "https://example.com/nlp"))
                           "token token") →
         NoDup (matchedKeywords m).
Proof.
  intros H.
  specialize (H {| match_document := Scenario.d2; match_category := "NLP";
                   match_link := "https://example.com/nlp";
                   matchedKeywords := ["token"; "token"] |}).
  cbn [matchedKeywords] in H.
  assert (Hnd : NoDup ["token"; "token"]) by (apply H; vm_compute; left).
  apply NoDup_cons in Hnd as [Hnot _]. apply Hnot. left.
Qed.

(** With two documents of one id, the kept keyword of the first lies in
    the QueryMatch of the second: its index entry points to another
    document than the one of its QueryMatch. *)
Lemma shared_id_other_document :
  let this := AskAndrew.loadIndex Scenario.shared_id_index in
  let r := AskAndrew.performSearch this "beta alpha" in
  "alpha" ∈ sr_matchedKeywords r ∧
  (∃ e m, keywordMap this !! "alpha" = Some e ∧ m ∈ sr_matches r ∧
          "alpha" ∈ matchedKeywords m ∧
          title (entry_document e) = "T1" ∧ title (match_document m) = "T2") ∧
  ¬ ∃ e m, keywordMap this !! "alpha" = Some e ∧ m ∈ sr_matches r ∧
           "alpha" ∈ matchedKeywords m ∧ match_document m = entry_document e.
Proof.
  intros this r.
  assert (He : ∃ e, keywordMap this !! "alpha" = Some e ∧
                    title (entry_document e) = "T1").
  { eexists. split; [vm_compute; reflexivity|reflexivity]. }
  assert (Hm : ∀ m, m ∈ sr_matches r → title (match_document m) = "T2").
  { intros m Hm. vm_compute in Hm.
    apply list_elem_of_singleton in Hm as ->. reflexivity. }
  split; [vm_compute; right; left|]. split.
  - destruct He as (e & He & Ht). exists e. eexists.
    split; [exact He|]. split; [vm_compute; left|].
    split; [right; left|]. split; [exact Ht|reflexivity].
  - intros (e' & m & He' & Hin & _ & Hdoc).
    destruct He as (e & He & Ht). rewrite He in He'. injection He' as <-.
    specialize (Hm m Hin). rewrite Hdoc, Ht in Hm. discriminate Hm.
Qed.

Lemma kept_keywords_partition_witness :
  let this := AskAndrew.loadIndex (Scenario.index "https://example.com/nlp") in
  let r := AskAndrew.performSearch this "neural network tokenization" in
  "tokenization" ∈ sr_matchedKeywords r ∧
  ∃ e m, keywordMap this !! "tokenization" = Some e ∧ m ∈ sr_matches r ∧
         "tokenization" ∈ matchedKeywords m ∧ match_document m = entry_document e.
Proof.
  intros this r.
  assert (Hkw : "tokenization" ∈ sr_matchedKeywords r) by (vm_compute; right; left).
  split; [exact Hkw|].
  destruct (kept_keywords_partition this "neural network tokenization")
    as (_ & _ & Hpart).
  destruct (Hpart "tokenization" Hkw) as (e & m & He & Hm & Hin & _ & Hdoc & _).
  exists e, m. split_and!; [done..|].
  apply Hdoc, unique_ids_identify, scenario_unique_ids.
Defined.

(** ** The normal form of a question *)

Section NormalForm.
Import JS.

Lemma alnum_not_space c : is_lower_alnum c = true → is_space c = false.
Proof. destruct c as [[] [] [] [] [] [] [] []]; by vm_compute. Qed.

Lemma space_char_is_space : is_space " " = true.
Proof. reflexivity. Qed.

Lemma space_not_alnum : is_lower_alnum " " = false.
Proof. reflexivity. Qed.

Lemma all_chars_map p f s :
  Shape.all_chars p (map_chars f s) = Shape.all_chars (λ c, p (f c)) s.
Proof. induction s as [|c r IH]; [done|]. simpl. by rewrite IH. Qed.

Lemma all_chars_impl (p q : ascii → bool) s :
  (∀ c, p c = true → q c = true) →
  Shape.all_chars p s = true → Shape.all_chars q s = true.
Proof.
  intros Hpq. induction s as [|c r IH]; [done|]. simpl.
  intros [Hc Hr]%andb_true_iff. by rewrite (Hpq c Hc), IH.
Qed.

Lemma all_chars_trimStart p s :
  Shape.all_chars p s = true → Shape.all_chars p (trimStart s) = true.
Proof.
  induction s as [|c r IH]; [done|]. cbn [trimStart].
  destruct (is_space c); [|done]. simpl. intros [_ Hr]%andb_true_iff. auto.
Qed.

Lemma all_chars_trimEnd p s :
  Shape.all_chars p s = true → Shape.all_chars p (trimEnd s) = true.
Proof.
  induction s as [|c r IH]; [done|]. simpl.
  intros [Hc Hr]%andb_true_iff. specialize (IH Hr).
  destruct (trimEnd r) as [|c' r'].
  - destruct (is_space c); [done|]. simpl. by rewrite Hc.
  - simpl in *. by rewrite Hc, IH.
Qed.

(** The replacement leaves letters, digits and white space only. *)
Lemma replace_non_alnum_chars s :
  Shape.all_chars (λ c, is_lower_alnum c || is_space c) (replace_non_alnum s) = true.
Proof.
  unfold replace_non_alnum. rewrite all_chars_map.
  induction s as [|c r IH]; [done|]. cbn [Shape.all_chars]. rewrite IH, andb_true_r.
  destruct (is_lower_alnum c || is_space c) eqn:Hc; [done|]. reflexivity.
Qed.

Lemma collapse_spaced b s :
  Shape.all_chars (λ c, is_lower_alnum c || is_space c) s = true →
  Shape.spaced b (collapse_from b s) = true.
Proof.
  revert b. induction s as [|c r IH]; intros b; [done|].
  cbn [Shape.all_chars]. intros [Hc Hr]%andb_true_iff.
  destruct (is_space c) eqn:Hsp.
  - rewrite (collapse_cons_space b c r Hsp). destruct b; [by apply IH|].
    cbn [Shape.spaced]. replace (Ascii.eqb " " " ") with true by done.
    cbn [negb andb]. by apply IH.
  - rewrite (collapse_cons_nonspace b c r Hsp). cbn [Shape.spaced].
    rewrite orb_false_r in Hc.
    destruct (Ascii.eqb_spec c " ") as [->|_]; [done|].
    rewrite Hc. cbn [andb]. by apply IH.
Qed.

Lemma spaced_true_trimStart s : Shape.spaced true s = true → trimStart s = s.
Proof.
  destruct s as [|c r]; [done|]. cbn [Shape.spaced trimStart].
  destruct (Ascii.eqb_spec c " ") as [->|_]; [done|].
  intros [Hc _]%andb_true_iff. by rewrite (alnum_not_space c Hc).
Qed.

Lemma spaced_weaken b s : Shape.spaced true s = true → Shape.spaced b s = true.
Proof.
  destruct s as [|c r]; [done|]. cbn [Shape.spaced].
  destruct (Ascii.eqb c " "); [done|done].
Qed.

Lemma spaced_trimStart b s :
  Shape.spaced b s = true → Shape.spaced true (trimStart s) = true.
Proof.
  destruct s as [|c r]; [done|]. cbn [Shape.spaced trimStart].
  destruct (Ascii.eqb_spec c " ") as [->|Hne].
  - intros [_ Hr]%andb_true_iff. replace (is_space " ") with true by done.
    by rewrite (spaced_true_trimStart r Hr).
  - intros [Hc Hr]%andb_true_iff. rewrite (alnum_not_space c Hc).
    cbn [Shape.spaced]. destruct (Ascii.eqb_spec c " "); [done|].
    by rewrite Hc, Hr.
Qed.

Lemma spaced_chars b s :
  Shape.spaced b s = true →
  Shape.all_chars (λ c, is_lower_alnum c || Ascii.eqb c " ") s = true.
Proof.
  revert b. induction s as [|c r IH]; intros b; [done|]. cbn [Shape.spaced Shape.all_chars].
  destruct (Ascii.eqb c " ").
  - intros [_ Hr]%andb_true_iff. rewrite orb_true_r. eauto.
  - intros [Hc Hr]%andb_true_iff. rewrite Hc. eauto.
Qed.

Lemma spaced_trimEnd b s :
  Shape.spaced b s = true → Shape.spaced b (trimEnd s) = true.
Proof.
  revert b. induction s as [|c r IH]; intros b; [done|]. cbn [Shape.spaced].
  destruct (Ascii.eqb_spec c " ") as [->|Hne].
  - intros [Hb Hr]%andb_true_iff. rewrite (trimEnd_cons_space " " r eq_refl).
    specialize (IH true Hr). destruct (trimEnd r) as [|c' r']; [done|].
    cbn [Shape.spaced]. replace (Ascii.eqb " " " ") with true by done.
    by rewrite Hb.
  - intros [Hc Hr]%andb_true_iff.
    rewrite (trimEnd_cons_nonspace c r (alnum_not_space c Hc)).
    cbn [Shape.spaced]. destruct (Ascii.eqb_spec c " "); [done|].
    by rewrite Hc, (IH false Hr).
Qed.

Lemma normalize_question_normalized question :
  Shape.normalized (Spec.normalize_question question).
Proof.
  unfold Spec.normalize_question, trim, collapse_spaces. split.
  - apply spaced_trimEnd, spaced_trimStart with false, collapse_spaced,
      replace_non_alnum_chars.
  - apply trimEnd_idemp.
Qed.

Lemma split_space_cons_space r : split_space (String " " r) = "" :: split_space r.
Proof. reflexivity. Qed.

Lemma split_space_cons_other c r :
  c ≠ " "%char →
  split_space (String c r) =
    match split_space r with
    | w :: ws => String c w :: ws
    | [] => [String c ""]
    end.
Proof. intros Hc. cbn [split_space]. by destruct (Ascii.eqb_spec c " "). Qed.

(** Splitting a string of single-spaced words. *)
Lemma split_spaced b s :
  Shape.spaced b s = true →
  ∃ w ws, split_space (trimEnd s) = w :: ws ∧
    Shape.all_chars is_lower_alnum w = true ∧
    Forall Shape.word ws ∧
    (b = true → trimEnd s ≠ "" → w ≠ "").
Proof.
  revert b. induction s as [|c r IH]; intros b.
  - intros _. exists "", []. by split_and!.
  - cbn [Shape.spaced]. destruct (Ascii.eqb_spec c " ") as [->|Hne].
    + intros [Hb Hr]%andb_true_iff. apply negb_true_iff in Hb as ->.
      rewrite (trimEnd_cons_space " " r eq_refl).
      destruct (IH true Hr) as (w & ws & Hsplit & Hw & Hws & Hne).
      destruct (trimEnd r) as [|c' r'] eqn:Htr.
      * exists "", []. by split_and!.
      * exists "", (w :: ws). split_and!; [|done| |done].
        -- by rewrite split_space_cons_space, Hsplit.
        -- constructor; [|done]. split; [by apply Hne|done].
    + intros [Hc Hr]%andb_true_iff.
      rewrite (trimEnd_cons_nonspace c r (alnum_not_space c Hc)).
      destruct (IH false Hr) as (w & ws & Hsplit & Hw & Hws & _).
      exists (String c w), ws. split_and!; [| |done|done].
      * by rewrite split_space_cons_other, Hsplit.
      * cbn [Shape.all_chars]. by rewrite Hc, Hw.
Qed.

Lemma split_normalized s :
  Shape.normalized s →
  (s = "" ∧ split_space s = [""]) ∨ (s ≠ "" ∧ Forall Shape.word (split_space s)).
Proof.
  intros [Hsp Htrim]. destruct (split_spaced true s Hsp) as (w & ws & Hsplit & Hw & Hws & Hne).
  rewrite Htrim in Hsplit, Hne. destruct (decide (s = "")) as [->|Hs].
  - by left.
  - right. split; [done|]. rewrite Hsplit. constructor; [|done].
    split; [by apply Hne|done].
Qed.

End NormalForm.

Section NormalFormFixpoint.
Import JS.

Lemma split_space_nonempty s : split_space s ≠ [].
Proof.
  destruct s as [|c r]; [done|]. cbn [split_space].
  destruct (Ascii.eqb c " "); [done|]. by destruct (split_space r).
Qed.

(** [s.split(' ').join(' ')] gives [s] back. *)
Lemma join_split_space s : join_space (split_space s) = s.
Proof.
  induction s as [|c r IH]; [done|].
  destruct (Ascii.eqb_spec c " ") as [->|Hne].
  - rewrite split_space_cons_space.
    destruct (split_space r) as [|w ws] eqn:Hs; [by apply split_space_nonempty in Hs|].
    change (join_space ("" :: w :: ws)) with ("" +:+ " " +:+ join_space (w :: ws)).
    by rewrite IH.
  - rewrite split_space_cons_other by done.
    destruct (split_space r) as [|w [|w' ws]] eqn:Hs.
    + by apply split_space_nonempty in Hs.
    + cbn [join_space] in *. by rewrite IH.
    + change (join_space (String c w :: w' :: ws))
        with (String c (w +:+ " " +:+ join_space (w' :: ws))).
      by rewrite <- IH.
Qed.

Lemma lower_char_fixed c :
  is_lower_alnum c || Ascii.eqb c " " = true → lower_char c = c.
Proof. destruct c as [[] [] [] [] [] [] [] []]; by vm_compute. Qed.

Lemma map_chars_fixed f p s :
  (∀ c, p c = true → f c = c) →
  Shape.all_chars p s = true → map_chars f s = s.
Proof.
  intros Hf. induction s as [|c r IH]; [done|]. cbn [Shape.all_chars map_chars].
  intros [Hc Hr]%andb_true_iff. by rewrite (Hf c Hc), IH.
Qed.

Lemma collapse_fixed b s : Shape.spaced b s = true → collapse_from b s = s.
Proof.
  revert b. induction s as [|c r IH]; intros b; [done|]. cbn [Shape.spaced].
  destruct (Ascii.eqb_spec c " ") as [->|Hne].
  - intros [Hb Hr]%andb_true_iff. apply negb_true_iff in Hb as ->.
    rewrite (collapse_cons_space false " " r eq_refl). by rewrite (IH true Hr).
  - intros [Hc Hr]%andb_true_iff.
    rewrite (collapse_cons_nonspace b c r (alnum_not_space c Hc)).
    by rewrite (IH false Hr).
Qed.

(** A normalised string is its own normal form. *)
Lemma normalize_question_fixed s :
  Shape.normalized s → Spec.normalize_question s = s.
Proof.
  intros [Hsp Htrim]. unfold Spec.normalize_question, toLowerCase, replace_non_alnum.
  pose proof (spaced_chars true s Hsp) as Hchars.
  rewrite (map_chars_fixed lower_char _ s lower_char_fixed Hchars).
  rewrite (map_chars_fixed _ (λ c, is_lower_alnum c || Ascii.eqb c " ") s); [|  |done].
  - unfold collapse_spaces. rewrite (collapse_fixed false s (spaced_weaken false s Hsp)).
    unfold trim. by rewrite (spaced_true_trimStart s Hsp).
  - intros c Hc. destruct (is_lower_alnum c) eqn:Ha; [done|].
    cbn [orb] in Hc. apply Ascii.eqb_eq in Hc as ->. reflexivity.
Qed.

Lemma words_of_normalized s :
  Shape.normalized s → AskAndrew.words_of s = split_space s.
Proof.
  intros Hs. rewrite words_of_spec. unfold Spec.words.
  by rewrite normalize_question_fixed.
Qed.

Lemma all_space_trimStart s :
  Shape.all_chars is_space s = true → trimStart s = "".
Proof.
  induction s as [|c r IH]; [done|]. cbn [Shape.all_chars trimStart].
  intros [-> Hr]%andb_true_iff. auto.
Qed.

Lemma blank_normalize question :
  Shape.blank question → Spec.normalize_question question = "".
Proof.
  unfold Shape.blank, Spec.normalize_question, toLowerCase, replace_non_alnum.
  intros Hblank.
  assert (Hsp : Shape.all_chars is_space
            (map_chars (λ c, if is_lower_alnum c || is_space c then c else " "%char)
               (map_chars lower_char question)) = true).
  { rewrite !all_chars_map. eapply all_chars_impl; [|exact Hblank].
    intros c Hc. cbn beta. apply negb_true_iff in Hc. rewrite Hc. cbn [orb].
    by destruct (is_space (lower_char c)) eqn:Hs. }
  unfold trim, collapse_spaces. rewrite trimStart_collapse.
  by rewrite (all_space_trimStart _ Hsp).
Qed.

End NormalFormFixpoint.

(** X1: the words taken from a question are non-empty runs of [a-z0-9], or
    the single empty word when the question has no letter or digit; joined
    by spaces they are the normalised question, and normalising that string
    again gives the same words, hence the same search result. *)
Theorem question_normal_form (this : App) (userQuestion : string) :
  let words := AskAndrew.words_of userQuestion in
  (words = [""] ∨ Forall Shape.word words) ∧
  JS.join_space words = Spec.normalize_question userQuestion ∧
  AskAndrew.words_of (JS.join_space words) = words ∧
  AskAndrew.performSearch this (JS.join_space words)
    = AskAndrew.performSearch this userQuestion.
Proof.
  intros words.
  assert (Hjoin : JS.join_space words = Spec.normalize_question userQuestion).
  { unfold words. rewrite words_of_spec. apply join_split_space. }
  assert (Hfix : AskAndrew.words_of (JS.join_space words) = words).
  { rewrite Hjoin, words_of_normalized by apply normalize_question_normalized.
    unfold words. by rewrite words_of_spec. }
  split_and!; [|done|done|].
  - unfold words. rewrite words_of_spec. unfold Spec.words.
    destruct (split_normalized _ (normalize_question_normalized userQuestion))
      as [[_ ?]|[_ ?]]; [by left|by right].
  - unfold AskAndrew.performSearch. by rewrite Hfix.
Qed.

(** X2: a question without any letter or digit (empty, blank, punctuation
    only) yields no candidate at all: the matcher returns no match and no
    keyword, and the assembler answers as for the empty question. *)
Theorem blank_question_search (this : App) (userQuestion : string) :
  Shape.blank userQuestion →
  AskAndrew.words_of userQuestion = [""] ∧
  AskAndrew.performSearch this userQuestion
    = {| sr_matches := []; sr_matchedKeywords := [] |} ∧
  AskAndrew.searchContext this userQuestion = AskAndrew.searchContext this "".
Proof.
  intros Hblank.
  assert (Hwords : AskAndrew.words_of userQuestion = [""]).
  { rewrite words_of_spec. unfold Spec.words. by rewrite blank_normalize. }
  assert (Hsearch : AskAndrew.performSearch this userQuestion
            = {| sr_matches := []; sr_matchedKeywords := [] |}).
  { unfold AskAndrew.performSearch. by rewrite Hwords. }
  split_and!; [done..|].
  unfold AskAndrew.searchContext. by rewrite Hsearch.
Qed.

Lemma blank_question_search_witness :
  Shape.blank "  ?!  ... " ∧
  AskAndrew.searchContext (AskAndrew.loadIndex (Scenario.index "https://example.com/nlp"))
    "  ?!  ... "
  = AskAndrew.searchContext (AskAndrew.loadIndex (Scenario.index "https://example.com/nlp")) "".
Proof.
  assert (Hb : Shape.blank "  ?!  ... ") by (vm_compute; reflexivity).
  split; [exact Hb|].
  by destruct (blank_question_search
    (AskAndrew.loadIndex (Scenario.index "https://example.com/nlp")) _ Hb) as (_ & _ & ?).
Defined.

(** ** Shape of the candidate texts *)

Section Candidates.
Import JS.

Lemma spaced_app_word b w rest :
  Shape.all_chars is_lower_alnum w = true →
  Shape.spaced b (w +:+ rest)
  = Shape.spaced (if decide (w = "") then b else false) rest.
Proof.
  revert b. induction w as [|c w IH]; intros b; [done|].
  cbn [Shape.all_chars]. intros [Hc Hw]%andb_true_iff.
  rewrite string_app_cons. cbn [Shape.spaced].
  destruct (Ascii.eqb_spec c " ") as [->|_]; [done|].
  rewrite Hc, (IH false Hw). cbn [andb]. by destruct (decide (w = "")).
Qed.

Lemma word_trimEnd w : Shape.all_chars is_lower_alnum w = true → trimEnd w = w.
Proof.
  induction w as [|c w IH]; [done|]. cbn [Shape.all_chars].
  intros [Hc Hw]%andb_true_iff.
  by rewrite (trimEnd_cons_nonspace c w (alnum_not_space c Hc)), IH.
Qed.

Lemma trimEnd_app_nonempty a b :
  trimEnd b ≠ "" → trimEnd (a +:+ b) = a +:+ trimEnd b.
Proof.
  intros Hb. induction a as [|c a IH]; [done|].
  rewrite !string_app_cons. simpl. rewrite IH.
  destruct (a +:+ trimEnd b) eqn:Ha; [|done].
  destruct a; [|done]. by rewrite string_app_nil_l in Ha.
Qed.

Lemma split_space_word w :
  Shape.all_chars is_lower_alnum w = true → split_space w = [w].
Proof.
  induction w as [|c w IH]; [done|]. cbn [Shape.all_chars].
  intros [Hc Hw]%andb_true_iff.
  rewrite split_space_cons_other, IH; [done..|].
  intros ->. by rewrite space_not_alnum in Hc.
Qed.

Lemma split_space_app_word w rest :
  Shape.all_chars is_lower_alnum w = true →
  split_space (w +:+ " " +:+ rest) = w :: split_space rest.
Proof.
  induction w as [|c w IH]; [done|]. cbn [Shape.all_chars].
  intros [Hc Hw]%andb_true_iff.
  rewrite string_app_cons, split_space_cons_other, IH; [done..|].
  intros ->. by rewrite space_not_alnum in Hc.
Qed.

(** One or more words joined by single spaces. *)
Lemma join_words ws :
  ws ≠ [] → Forall Shape.word ws →
  Shape.normalized (join_space ws) ∧ join_space ws ≠ "" ∧
  split_space (join_space ws) = ws.
Proof.
  induction ws as [|w ws IH]; [done|]. intros _ Hall.
  apply Forall_cons in Hall as [[Hne Hw] Hws].
  destruct ws as [|w' ws].
  - cbn [join_space]. split_and!; [|done|by apply split_space_word].
    split; [|by apply word_trimEnd].
    rewrite <- (string_app_nil_r w), spaced_app_word by done.
    by destruct (decide (w = "")).
  - destruct (IH ltac:(done) Hws) as ([Hsp Htrim] & Hne' & Hsplit).
    change (join_space (w :: w' :: ws)) with (w +:+ " " +:+ join_space (w' :: ws)).
    split_and!.
    + split.
      * rewrite spaced_app_word by done. rewrite decide_False by done.
        rewrite string_app_cons, string_app_nil_l. cbn [Shape.spaced].
        replace (Ascii.eqb " " " ") with true by done. by rewrite Hsp.
      * rewrite trimEnd_app_nonempty.
        -- f_equal. rewrite string_app_cons, string_app_nil_l.
           rewrite (trimEnd_cons_space " " _ eq_refl), Htrim.
           by destruct (join_space (w' :: ws)).
        -- rewrite string_app_cons, string_app_nil_l.
           rewrite (trimEnd_cons_space " " _ eq_refl), Htrim.
           by destruct (join_space (w' :: ws)).
    + by destruct w.
    + by rewrite split_space_app_word, Hsplit.
Qed.

Lemma elem_of_windows n (ws l : list string) :
  0 < n →
  l ∈ Spec.windows n ws ↔ ∃ pre post, ws = pre ++ l ++ post ∧ length l = n.
Proof.
  intros Hn. rewrite windows_seq by done. rewrite list_elem_of_fmap. split.
  - intros (i & -> & Hi%elem_of_seq).
    exists (take i ws), (drop n (drop i ws)). split.
    + by rewrite take_drop, take_drop.
    + rewrite length_take, length_drop. lia.
  - intros (pre & post & -> & Hlen). exists (length pre). split.
    + by rewrite drop_app_length, take_app_length'.
    + apply elem_of_seq. rewrite !length_app. lia.
Qed.

Lemma Forall_word_sublist (pre l post : list string) :
  Forall Shape.word (pre ++ l ++ post) → Forall Shape.word l.
Proof. intros H%Forall_app. destruct H as [_ H%Forall_app]. tauto. Qed.

(** Every candidate text comes from words of the question. *)
Lemma candidate_origin words t :
  t ∈ ngram_text <$> AskAndrew.nGrams_of words →
  ∃ pre l post, words = pre ++ l ++ post ∧ t = join_space l ∧
    (length l = 3 ∨ length l = 2 ∨
     (length l = 1 ∧ 2 ≤ String.length t ∧ t ∉ AskAndrew.stopWords)).
Proof.
  rewrite nGrams_of_text, !elem_of_app, !list_elem_of_fmap.
  intros [(l & -> & Hl)|[(l & -> & Hl)|Hw]].
  - apply elem_of_windows in Hl as (pre & post & -> & Hlen); [|lia].
    exists pre, l, post. auto.
  - apply elem_of_windows in Hl as (pre & post & -> & Hlen); [|lia].
    exists pre, l, post. auto.
  - apply list_elem_of_filter in Hw as [[Hlen Hstop] Hin].
    apply list_elem_of_split in Hin as (pre & post & ->).
    exists pre, [t], post. split_and!; [done..|]. right. right. done.
Qed.

Lemma candidate_present words pre l post :
  words = pre ++ l ++ post →
  (length l = 3 ∨ length l = 2 ∨
   (∃ w, l = [w] ∧ 2 ≤ String.length w ∧ w ∉ AskAndrew.stopWords)) →
  join_space l ∈ ngram_text <$> AskAndrew.nGrams_of words.
Proof.
  intros -> Hl. rewrite nGrams_of_text, !elem_of_app, !list_elem_of_fmap.
  destruct Hl as [Hl|[Hl|(w & -> & Hlen & Hstop)]].
  - left. exists l. split; [done|]. apply elem_of_windows; [lia|]. eauto.
  - right. left. exists l. split; [done|]. apply elem_of_windows; [lia|]. eauto.
  - right. right. apply list_elem_of_filter. split; [done|].
    rewrite !elem_of_app. right. left. left.
Qed.

Lemma candidate_shape userQuestion t :
  t ∈ ngram_text <$> AskAndrew.nGrams_of (AskAndrew.words_of userQuestion) →
  Shape.ngram_shaped t.
Proof.
  intros Ht.
  assert (Hwords : AskAndrew.words_of userQuestion = [""]
                   ∨ Forall Shape.word (AskAndrew.words_of userQuestion)).
  { rewrite words_of_spec. unfold Spec.words.
    destruct (split_normalized _ (normalize_question_normalized userQuestion))
      as [[_ ?]|[_ ?]]; [by left|by right]. }
  destruct Hwords as [Hblank|Hwords].
  { rewrite Hblank in Ht. vm_compute in Ht. by apply elem_of_nil in Ht. }
  apply candidate_origin in Ht as (pre & l & post & Heq & -> & Hlen).
  rewrite Heq in Hwords. apply Forall_word_sublist in Hwords.
  assert (Hl : l ≠ []) by (intros ->; simpl in Hlen; lia).
  destruct (join_words l Hl Hwords) as (Hnorm & Hne & Hsplit).
  unfold Shape.ngram_shaped, AskAndrew.wordCount. rewrite Hsplit.
  split_and!; [done|done|lia|]. intros H1. destruct Hlen as [?|[?|(_ & ? & ?)]]; [lia|lia|done].
Qed.

End Candidates.

(** ** Which keywords a question can reach *)

Section Reach.
Import AskAndrew.
Variables (this : App) (userQuestion : string).

Local Abbreviation texts := (ngram_text <$> nGrams_of (words_of userQuestion)).
Local Abbreviation matched :=
  ((match_ngrams (keywordMap this) (nGrams_of (words_of userQuestion))).1).
Local Abbreviation result := (performSearch this userQuestion).

Lemma matched_iff k :
  k ∈ matched ↔ k ∈ texts ∧ is_Some (keywordMap this !! k).
Proof. apply (Loop.inv_matched _ _ _ (search_inv this userQuestion)). Qed.

Lemma kept_matched k : k ∈ sr_matchedKeywords result → k ∈ matched.
Proof. rewrite performSearch_unfold. apply filteredKeywords_subset. Qed.

(** A triggered text is kept or is part of a kept keyword, and the kept
    keyword sits in a returned match. *)
Lemma triggered_covered k :
  k ∈ texts → is_Some (keywordMap this !! k) →
  ∃ m kw, m ∈ sr_matches result ∧ kw ∈ matchedKeywords m ∧
          kw ∈ sr_matchedKeywords result ∧ Spec.substring k kw.
Proof.
  intros Ht Hk.
  assert (Hm : k ∈ matched) by by apply matched_iff.
  assert (Hcov : ∃ kw, kw ∈ sr_matchedKeywords result ∧ Spec.substring k kw).
  { rewrite performSearch_unfold. cbn [sr_matchedKeywords].
    destruct (filteredKeywords_covers _ _ Hm) as [?|(e & He & _ & Hsub)].
    - exists k. split; [done|]. exists "", "".
      by rewrite string_app_nil_l, string_app_nil_r.
    - by exists e. }
  destruct Hcov as (kw & Hkw & Hsub).
  pose proof Hkw as Hkw'. rewrite performSearch_unfold in Hkw'.
  cbn [sr_matchedKeywords] in Hkw'.
  destruct (kept_keyword_match _ _ _ _ (search_inv this userQuestion) kw Hkw'
              (filteredKeywords_subset _ _ Hkw')) as (e & m & _ & Hm' & Hin & _).
  exists m, kw. by rewrite performSearch_unfold.
Qed.

Lemma no_match_iff :
  sr_matches result = [] ↔ ∀ t, t ∈ texts → keywordMap this !! t = None.
Proof.
  split.
  - intros Hnil t Ht. destruct (keywordMap this !! t) as [e|] eqn:He; [|done].
    destruct (triggered_covered t Ht ltac:(by eexists)) as (m & _ & Hm & _).
    rewrite Hnil in Hm. by apply elem_of_nil in Hm.
  - intros Hnone. destruct (sr_matches result) as [|m ms] eqn:Hms; [done|].
    assert (Hm : m ∈ sr_matches result) by (rewrite Hms; left).
    destruct (search_match_entry this userQuestion m Hm) as (t & e & He & _).
    destruct (search_match_origin this userQuestion m Hm) as (b & Hb & _).
    destruct (Loop.inv_bucket _ _ _ (search_inv this userQuestion) _ b Hb)
      as (_ & t' & e' & Ht' & He' & _).
    by rewrite (Hnone t' Ht') in He'.
Qed.

Lemma no_kept_iff :
  sr_matchedKeywords result = [] ↔ ∀ t, t ∈ texts → keywordMap this !! t = None.
Proof.
  split.
  - intros Hnil t Ht. destruct (keywordMap this !! t) as [e|] eqn:He; [|done].
    destruct (triggered_covered t Ht ltac:(by eexists)) as (_ & kw & _ & _ & Hkw & _).
    rewrite Hnil in Hkw. by apply elem_of_nil in Hkw.
  - intros Hnone. destruct (sr_matchedKeywords result) as [|k ks] eqn:Hks; [done|].
    assert (Hk : k ∈ sr_matchedKeywords result) by (rewrite Hks; left).
    apply kept_matched, matched_iff in Hk as [Ht [e He]].
    by rewrite (Hnone k Ht) in He.
Qed.



End Reach.

Section AskedKeyword.
Import AskAndrew.



End AskedKeyword.

(** X3: whatever the question, a returned keyword is an index key made of
    one to three words of [a-z0-9] separated by single spaces, and a
    single-word keyword has at least two characters and is no stop word.
    Index keywords of any other shape (punctuation inside, four words or
    more, one character, a stop word) are never returned. *)
Theorem returned_keywords_shaped (this : App) (userQuestion : string) :
  let r := AskAndrew.performSearch this userQuestion in
  (∀ kw, kw ∈ sr_matchedKeywords r →
     Shape.ngram_shaped kw ∧ is_Some (keywordMap this !! kw)) ∧
  (∀ m kw, m ∈ sr_matches r → kw ∈ matchedKeywords m → Shape.ngram_shaped kw) ∧
  (∀ k, ¬ Shape.ngram_shaped k →
     (k ∉ sr_matchedKeywords r) ∧ ∀ m, m ∈ sr_matches r → k ∉ matchedKeywords m).
Proof.
  intros r.
  assert (Hkept : ∀ kw, kw ∈ sr_matchedKeywords r →
     Shape.ngram_shaped kw ∧ is_Some (keywordMap this !! kw)).
  { intros kw Hkw%kept_matched%matched_iff. destruct Hkw as [Ht Hk].
    split; [by eapply candidate_shape|done]. }
  assert (Hm : ∀ m kw, m ∈ sr_matches r → kw ∈ matchedKeywords m →
     Shape.ngram_shaped kw).
  { intros m kw Hm Hkw. apply Hkept.
    by apply (search_match_keywords this userQuestion m). }
  split_and!; [done..|].
  intros k Hk. split.
  - intros Hin. by apply Hk, Hkept.
  - intros m Hin Hkw. by eapply Hk, Hm.
Qed.

Lemma returned_keywords_shaped_witness :
  let this := AskAndrew.loadIndex
                [ {| category := "Models"; link := "https://example.com/m";
                     documents := [Scenario.doc_of "g" "GPT-4"] |} ] in
  is_Some (keywordMap this !! "gpt-4") ∧
  ¬ Shape.ngram_shaped "gpt-4" ∧
  "gpt-4" ∉ sr_matchedKeywords (AskAndrew.performSearch this "What is GPT-4?").
Proof.
  intros this.
  assert (Hshape : ¬ Shape.ngram_shaped "gpt-4").
  { intros [[Hsp _] _]. vm_compute in Hsp. discriminate Hsp. }
  split; [vm_compute; eauto|]. split; [exact Hshape|].
  destruct (returned_keywords_shaped this "What is GPT-4?") as (_ & _ & Hdead).
  by destruct (Hdead "gpt-4" Hshape).
Defined.

(** X4: when words of the question, taken as a window of two or three
    words or as a single word of at least two characters that is no stop
    word, spell a key of the Keyword Index, the result holds a QueryMatch
    with a kept keyword that contains that key: a hit is never lost, it is
    at most absorbed by a longer kept keyword. *)
Theorem triggered_window_covered (this : App) (userQuestion : string)
    (pre l post : list string) :
  AskAndrew.words_of userQuestion = pre ++ l ++ post →
  (length l = 3 ∨ length l = 2 ∨
   (∃ w, l = [w] ∧ 2 ≤ String.length w ∧ w ∉ AskAndrew.stopWords)) →
  is_Some (keywordMap this !! JS.join_space l) →
  let r := AskAndrew.performSearch this userQuestion in
  ∃ m kw, m ∈ sr_matches r ∧ kw ∈ matchedKeywords m ∧
          kw ∈ sr_matchedKeywords r ∧ Spec.substring (JS.join_space l) kw.
Proof.
  intros Hwords Hl Hkey r. apply triggered_covered; [|done].
  by apply (candidate_present _ pre l post).
Qed.

Lemma triggered_window_covered_witness :
  let this := AskAndrew.loadIndex Scenario.llm_index in
  let r := AskAndrew.performSearch this "large language models vs large language model" in
  ∃ m kw, m ∈ sr_matches r ∧ kw ∈ matchedKeywords m ∧
          kw ∈ sr_matchedKeywords r ∧ Spec.substring "language model" kw.
Proof.
  intros this r.
  apply (triggered_window_covered this
           "large language models vs large language model"
           ["large"; "language"; "models"; "vs"; "large"] ["language"; "model"] []).
  - vm_compute. reflexivity.
  - right. left. reflexivity.
  - vm_compute. eauto.
Defined.

(** X5: the matcher returns no QueryMatch exactly when no candidate text of
    the question is a key of the Keyword Index, which is also exactly when
    it returns no kept keyword; the subset filter alone never empties the
    result.  In that case the assembler answers as for the empty
    question. *)
Theorem no_match_iff_nothing_triggered (this : App) (userQuestion : string) :
  let r := AskAndrew.performSearch this userQuestion in
  let texts := ngram_text <$> AskAndrew.nGrams_of (AskAndrew.words_of userQuestion) in
  (sr_matches r = [] ↔ ∀ t, t ∈ texts → keywordMap this !! t = None) ∧
  (sr_matchedKeywords r = [] ↔ sr_matches r = []) ∧
  (sr_matches r = [] →
     AskAndrew.searchContext this userQuestion = AskAndrew.searchContext this "").
Proof.
  intros r texts. split_and!.
  - apply no_match_iff.
  - unfold r. by rewrite no_match_iff, no_kept_iff.
  - intros Hnil. unfold AskAndrew.searchContext. fold r. by rewrite Hnil.
Qed.

Lemma no_match_iff_nothing_triggered_witness :
  let this := AskAndrew.loadIndex (Scenario.index "https://example.com/nlp") in
  sr_matches (AskAndrew.performSearch this "asdkjasdj random nonsense") = [] ∧
  AskAndrew.searchContext this "asdkjasdj random nonsense"
    = AskAndrew.searchContext this "".
Proof.
  intros this.
  assert (Hnil : sr_matches (AskAndrew.performSearch this "asdkjasdj random nonsense") = [])
    by (vm_compute; reflexivity).
  split; [exact Hnil|].
  destruct (no_match_iff_nothing_triggered this "asdkjasdj random nonsense")
    as (_ & _ & Hctx).
  exact (Hctx Hnil).
Defined.



(** ** Order of the returned matches *)

Section MatchOrder.
Import AskAndrew.
Variable km : gmap string Entry.

Lemma match_ngram_keys st ngram :
  (match_ngram km st ngram).2.*1 =
    match Loop.docId_of km (ngram_text ngram) with
    | Some docId => JS.Set_add docId st.2.*1
    | None => st.2.*1
    end.
Proof.
  unfold match_ngram, Loop.docId_of.
  destruct (km !! ngram_text ngram) as [mtch|]; [|done].
  cbn [fmap option_fmap option_map snd]. rewrite Map_alter_keys.
  unfold JS.Set_add, JS.Set_has.
  destruct (JS.Map_has (id (entry_document mtch)) st.2) eqn:Hhas.
  - apply Map_has_keys in Hhas. by rewrite bool_decide_eq_true_2.
  - assert (Hnot : id (entry_document mtch) ∉ st.2.*1).
    { intros Hin%Map_has_keys. congruence. }
    rewrite bool_decide_eq_false_2 by done.
    by rewrite (Map_set_fresh _ _ _ Hnot), fmap_app.
Qed.

Lemma match_ngrams_keys_foldl nGrams st :
  (foldl (match_ngram km) st nGrams).2.*1 =
    foldl (λ s d, JS.Set_add d s) st.2.*1
      (omap (Loop.docId_of km) (ngram_text <$> nGrams)).
Proof.
  revert st. induction nGrams as [|ngram nGrams IH]; intros st; [done|].
  cbn [foldl]. rewrite IH, match_ngram_keys, fmap_cons. cbn [omap list_omap].
  by destruct (Loop.docId_of km (ngram_text ngram)).
Qed.

(** The buckets are in the order in which their documents are first hit. *)
Lemma match_ngrams_keys nGrams :
  (match_ngrams km nGrams).2.*1 =
    Spec.dedup_first (omap (Loop.docId_of km) (ngram_text <$> nGrams)).
Proof.
  unfold match_ngrams. rewrite match_ngrams_keys_foldl.
  apply (Set_from_dedup_first (omap (Loop.docId_of km) (ngram_text <$> nGrams))).
Qed.

Lemma final_match_ids texts kept st (dm : list (string * QueryMatch)) :
  Loop.match_inv km texts st →
  (∀ kw, kw ∈ kept → kw ∈ texts) →
  (∀ kv, kv ∈ dm → kv ∈ st.2) →
  (λ m, id (match_document m)) <$> omap (final_match kept) dm =
    filter (λ d, Exists (λ kw, Loop.docId_of km kw = Some d) kept) dm.*1.
Proof.
  intros Hinv Hkept. induction dm as [|[d b] dm IH]; intros Hsub; [done|].
  cbn [omap list_omap]. rewrite fmap_cons. cbn [fst].
  assert (IH' := IH (λ kv Hkv, Hsub kv (list_elem_of_further _ _ _ Hkv))).
  destruct (Loop.inv_bucket _ _ _ Hinv d b (Hsub _ (list_elem_of_here _ _)))
    as (Hkw & t & e & _ & _ & Hid & Hdoc & _).
  destruct (final_match kept (d, b)) as [m|] eqn:Hfin.
  - apply final_match_Some in Hfin as [Hne ->]. cbn [snd] in Hne.
    rewrite fmap_cons. cbn [match_document snd]. rewrite filter_cons_True.
    + f_equal; [congruence|done].
    + destruct (filter _ (matchedKeywords b)) as [|kw kws] eqn:Hf; [done|].
      assert (Hin : kw ∈ filter (λ kw, kw ∈ kept) (matchedKeywords b))
        by (rewrite Hf; left).
      apply list_elem_of_filter in Hin as [Hk Hb]. rewrite Hkw in Hb.
      apply list_elem_of_filter in Hb as [Hd _].
      apply Exists_exists. by exists kw.
  - rewrite filter_cons_False; [done|].
    intros (kw & Hk & Hd)%Exists_exists.
    assert (Hsome : final_match kept (d, b) ≠ None); [|done].
    assert (Hin : kw ∈ filter (λ kw, kw ∈ kept) (matchedKeywords b)).
    { apply list_elem_of_filter. split; [done|]. rewrite Hkw.
      apply list_elem_of_filter. split; [done|by apply Hkept]. }
    unfold final_match. cbn [snd].
    destruct (filter _ (matchedKeywords b)); [by apply elem_of_nil in Hin|done].
Qed.

End MatchOrder.

(** X7: the QueryMatches are returned in the order in which the candidate
    texts first hit their documents, trigrams before bigrams before single
    words and left to right within each, one match for every hit document
    that keeps a keyword. *)
Theorem matches_in_first_hit_order (this : App) (userQuestion : string) :
  let r := AskAndrew.performSearch this userQuestion in
  let texts := ngram_text <$> AskAndrew.nGrams_of (AskAndrew.words_of userQuestion) in
  (λ m, id (match_document m)) <$> sr_matches r =
    filter (λ d, Exists (λ kw, Loop.docId_of (keywordMap this) kw = Some d)
                   (sr_matchedKeywords r))
      (Spec.dedup_first (omap (Loop.docId_of (keywordMap this)) texts)).
Proof.
  intros r texts. unfold r, texts. rewrite performSearch_unfold.
  cbn [sr_matches sr_matchedKeywords].
  rewrite <- match_ngrams_keys.
  apply (final_match_ids _ _ _ _ _ (search_inv this userQuestion)); [|done].
  intros kw Hkw%filteredKeywords_subset.
  by apply (Loop.inv_matched _ _ _ (search_inv this userQuestion)) in Hkw as [? _].
Qed.

Section ContextBlocks.

Lemma join_with_contains sep (parts : list string) p :
  p ∈ parts → Spec.substring p (JS.join_with sep parts).
Proof.
  induction parts as [|q parts IH]; [by intros ?%elem_of_nil|].
  intros [->|Hin]%elem_of_cons.
  - destruct parts as [|q' parts].
    + exists "", "". by rewrite string_app_nil_l, string_app_nil_r.
    + exists "", (sep +:+ JS.join_with sep (q' :: parts)). done.
  - destruct parts as [|q' parts]; [by apply elem_of_nil in Hin|].
    destruct (IH Hin) as (a & b & Hab).
    exists (q +:+ sep +:+ a), b.
    change (JS.join_with sep (q :: q' :: parts))
      with (q +:+ sep +:+ JS.join_with sep (q' :: parts)).
    rewrite Hab. by rewrite !string_app_assoc.
Qed.

Lemma searchContext_blocks this userQuestion :
  sr_matches (AskAndrew.performSearch this userQuestion) ≠ [] →
  context (AskAndrew.searchContext this userQuestion) =
    Some (JS.join_with (newline +:+ newline)
      ((λ m, "[" +:+ match_category m +:+ " - " +:+ title (match_document m) +:+ "]"
             +:+ newline +:+ content (match_document m))
       <$> sr_matches (AskAndrew.performSearch this userQuestion))) ∧
  ctx_documents (AskAndrew.searchContext this userQuestion) =
    match_document <$> sr_matches (AskAndrew.performSearch this userQuestion).
Proof.
  intros H. unfold AskAndrew.searchContext.
  by destruct (sr_matches (AskAndrew.performSearch this userQuestion)).
Qed.

End ContextBlocks.

(** X8: when the matcher returns matches, the assembled context holds, for
    every returned document, its block with the whole content of the
    document (nothing is cut or summarised), and the documents of the
    result are the matched documents in match order, with pairwise distinct
    ids. *)
Theorem context_holds_documents (this : App) (userQuestion : string) :
  let matches := sr_matches (AskAndrew.performSearch this userQuestion) in
  let r := AskAndrew.searchContext this userQuestion in
  matches ≠ [] →
  ctx_documents r = match_document <$> matches ∧
  NoDup (id <$> ctx_documents r) ∧
  ∃ text, context r = Some text ∧
    ∀ m, m ∈ matches →
      Spec.substring ("[" +:+ match_category m +:+ " - " +:+ title (match_document m)
                      +:+ "]" +:+ newline +:+ content (match_document m)) text ∧
      Spec.substring (content (match_document m)) text.
Proof.
  intros matches r Hne.
  destruct (searchContext_blocks this userQuestion Hne) as [Hctx Hdocs].
  fold matches r in Hctx, Hdocs. split_and!.
  - done.
  - rewrite Hdocs, <- list_fmap_compose.
    unfold matches. rewrite performSearch_unfold. cbn [sr_matches].
    apply (final_matches_nodup _ _ _ _ (search_inv this userQuestion)).
  - eexists. split; [exact Hctx|]. intros m Hm.
    assert (Hblock : Spec.substring
              ("[" +:+ match_category m +:+ " - " +:+ title (match_document m)
               +:+ "]" +:+ newline +:+ content (match_document m))
              (JS.join_with (newline +:+ newline)
                 ((λ m, "[" +:+ match_category m +:+ " - " +:+ title (match_document m)
                        +:+ "]" +:+ newline +:+ content (match_document m))
                  <$> matches))).
    { apply join_with_contains, list_elem_of_fmap. by exists m. }
    split; [done|]. eapply substring_trans; [|exact Hblock].
    exists ("[" +:+ match_category m +:+ " - " +:+ title (match_document m)
            +:+ "]" +:+ newline), "".
    by rewrite string_app_nil_r, !string_app_assoc.
Qed.

Lemma context_holds_documents_witness :
  let this := AskAndrew.loadIndex (Scenario.index "https://example.com/nlp") in
  let r := AskAndrew.searchContext this "neural network tokenization" in
  ctx_documents r = [Scenario.d1; Scenario.d2] ∧ NoDup (id <$> ctx_documents r).
Proof.
  intros this r.
  assert (Hne : sr_matches (AskAndrew.performSearch this "neural network tokenization") ≠ [])
    by (vm_compute; discriminate).
  destruct (context_holds_documents this "neural network tokenization" Hne)
    as (Hdocs & Hnd & _).
  split; [|exact Hnd]. vm_compute. reflexivity.
Defined.

(** ** The chat around the engine: greetings and dispatch *)

Section Greetings.
Import JS.

Lemma canonicalize_lower c :
  JSText.canonicalize (lower_char c) = JSText.canonicalize c.
Proof. destruct c as [[] [] [] [] [] [] [] []]; by vm_compute. Qed.

Lemma lower_canonicalize c :
  lower_char (JSText.canonicalize c) = lower_char c.
Proof. destruct c as [[] [] [] [] [] [] [] []]; by vm_compute. Qed.

Lemma canonicalize_eq_lower a b :
  JSText.canonicalize a = JSText.canonicalize b ↔ lower_char a = lower_char b.
Proof.
  split; intros H.
  - by rewrite <- (lower_canonicalize a), H, lower_canonicalize.
  - by rewrite <- (canonicalize_lower a), H, canonicalize_lower.
Qed.

Lemma greeting_tail_lower c :
  (let c := lower_char c in
   is_space c || Ascii.eqb c "!" || Ascii.eqb c "?")
  = (is_space c || Ascii.eqb c "!" || Ascii.eqb c "?").
Proof. destruct c as [[] [] [] [] [] [] [] []]; by vm_compute. Qed.

Lemma match_literal_ci_lower literal s :
  JSText.match_literal_ci literal (toLowerCase s)
  = toLowerCase <$> JSText.match_literal_ci literal s.
Proof.
  revert s. induction literal as [|p l IH]; intros s; [done|].
  destruct s as [|c r]; [done|].
  cbn [toLowerCase map_chars JSText.match_literal_ci].
  rewrite canonicalize_lower.
  destruct (Ascii.eqb _ _); [apply IH|done].
Qed.

Lemma match_literal_ci_split literal s rest :
  JSText.match_literal_ci literal s = Some rest ↔
  ∃ head, s = head +:+ rest ∧ toLowerCase head = toLowerCase literal.
Proof.
  revert s. induction literal as [|p l IH]; intros s.
  - cbn. split.
    + intros [= ->]. by exists "".
    + intros (head & -> & Hh). destruct head; [done|discriminate].
  - destruct s as [|c r]; cbn [JSText.match_literal_ci].
    + split; [done|]. intros (head & Hs & Hh).
      destruct head; [discriminate|]. discriminate.
    + destruct (Ascii.eqb_spec (JSText.canonicalize p) (JSText.canonicalize c))
        as [Heq|Hne].
      * rewrite IH. apply canonicalize_eq_lower in Heq. split.
        -- intros (head & -> & Hh). exists (String c head). split; [done|].
           cbn [toLowerCase map_chars]. unfold toLowerCase in Hh.
           by rewrite Hh, Heq.
        -- intros (head & Hs & Hh). destruct head as [|c' head]; [discriminate|].
           rewrite string_app_cons in Hs. injection Hs as -> ->.
           exists head. split; [done|].
           cbn [toLowerCase map_chars] in Hh. by injection Hh.
      * split; [done|]. intros (head & Hs & Hh).
        destruct head as [|c' head]; [discriminate|].
        rewrite string_app_cons in Hs. injection Hs as -> ->.
        cbn [toLowerCase map_chars] in Hh. injection Hh as Hc _.
        destruct Hne. by apply canonicalize_eq_lower.
Qed.

Lemma lower_char_idemp c : lower_char (lower_char c) = lower_char c.
Proof. destruct c as [[] [] [] [] [] [] [] []]; by vm_compute. Qed.

Lemma toLowerCase_idemp s : toLowerCase (toLowerCase s) = toLowerCase s.
Proof.
  induction s as [|c r IH]; [done|].
  cbn [toLowerCase map_chars]. unfold toLowerCase in IH.
  by rewrite IH, lower_char_idemp.
Qed.

Lemma greeting_test_spec s :
  AskAndrewChat.greetingPattern_test s = true ↔
  ∃ head rest, s = head +:+ rest ∧
    toLowerCase head ∈ AskAndrewChat.greetingWords ∧
    Shape.all_chars (λ c, is_space c || Ascii.eqb c "!" || Ascii.eqb c "?")
      rest = true.
Proof.
  unfold AskAndrewChat.greetingPattern_test. rewrite existsb_exists. split.
  - intros (w & Hw & Hm).
    destruct (JSText.match_literal_ci w s) as [rest|] eqn:Hlit; [|done].
    apply match_literal_ci_split in Hlit as (head & -> & Hh).
    exists head, rest. split_and!; [done| |done].
    rewrite Hh. apply list_elem_of_In in Hw.
    assert (Hfix : Forall (λ w, toLowerCase w = w) AskAndrewChat.greetingWords)
      by (repeat constructor).
    rewrite Forall_forall in Hfix. by rewrite (Hfix _ Hw).
  - intros (head & rest & -> & Hin & Hrest).
    exists (toLowerCase head). split; [by apply list_elem_of_In|].
    assert (Hlit : JSText.match_literal_ci (toLowerCase head) (head +:+ rest)
                   = Some rest).
    { apply match_literal_ci_split. exists head.
      by rewrite toLowerCase_idemp. }
    by rewrite Hlit.
Qed.

Lemma greeting_test_lower s :
  AskAndrewChat.greetingPattern_test (toLowerCase s)
  = AskAndrewChat.greetingPattern_test s.
Proof.
  unfold AskAndrewChat.greetingPattern_test.
  induction AskAndrewChat.greetingWords as [|w ws IH]; [done|].
  cbn [existsb]. rewrite IH. f_equal.
  rewrite match_literal_ci_lower.
  destruct (JSText.match_literal_ci w s) as [rest|]; [|done].
  cbn. unfold toLowerCase. rewrite all_chars_map.
  clear. induction rest as [|c r IH]; [done|].
  cbn [Shape.all_chars]. rewrite IH. f_equal. apply greeting_tail_lower.
Qed.

End Greetings.

(** X9: the greeting test accepts exactly one of the seven greetings,
    written in any letter case, followed by nothing but white space,
    exclamation marks and question marks; the letter case of the message
    never changes the outcome. *)
Theorem greeting_recognition (s : string) :
  (AskAndrewChat.greetingPattern_test s = true ↔
   ∃ head rest, s = head +:+ rest ∧
     JS.toLowerCase head ∈ AskAndrewChat.greetingWords ∧
     Shape.all_chars (λ c, JS.is_space c || Ascii.eqb c "!" || Ascii.eqb c "?")
       rest = true) ∧
  AskAndrewChat.greetingPattern_test (JS.toLowerCase s)
  = AskAndrewChat.greetingPattern_test s ∧
  ComputingLocalChat.greetingPattern_test s
  = AskAndrewChat.greetingPattern_test s.
Proof.
  split_and!; [apply greeting_test_spec|apply greeting_test_lower|done].
Qed.

Section Dispatch.
Import JS.

Lemma trimStart_idemp s : trimStart (trimStart s) = trimStart s.
Proof.
  induction s as [|c r IH]; [done|].
  cbn [trimStart]. destruct (is_space c) eqn:Hc; [done|].
  cbn [trimStart]. by rewrite Hc.
Qed.

Lemma trim_idemp s : trim (trim s) = trim s.
Proof.
  unfold trim.
  by rewrite trimStart_trimEnd, trimStart_idemp, trimEnd_idemp.
Qed.

Lemma truthy_false_empty s : truthy s = false ↔ s = "".
Proof.
  destruct (truthy s) eqn:H.
  - apply truthy_nonempty in H. naive_solver.
  - split; [|done]. intros _. destruct (decide (s = "")) as [|Hne]; [done|].
    apply truthy_nonempty in Hne. congruence.
Qed.

End Dispatch.

(** X10: what the two chats do with a message.  Ask Andrew ignores a blank
    message and a message sent while a response is generated, greets when
    the chat held no message before and the message is a greeting, and
    otherwise answers the trimmed, non-empty message with the context
    retrieved for it.  The local app
    also refuses a message of more than 1000 code units and waits for the
    CPU model; in every other case it does what Ask Andrew does. *)
Theorem sendMessage_dispatch (this : App)
    (isGenerating usingWllama wllamaLoaded : bool) (messagesBefore : nat)
    (input : string) :
  let asked := AskAndrewChat.sendMessage this isGenerating messagesBefore input in
  let loc :=
    ComputingLocalChat.sendMessage this isGenerating usingWllama wllamaLoaded
      messagesBefore input in
  (asked = AskAndrewChat.Ignored ↔ JS.trim input = "" ∨ isGenerating = true) ∧
  (asked = AskAndrewChat.Greeted ↔
     JS.trim input ≠ "" ∧ isGenerating = false ∧ messagesBefore = 0 ∧
     AskAndrewChat.greetingPattern_test (JS.trim input) = true) ∧
  (∀ userMessage searchResult,
     asked = AskAndrewChat.Answered userMessage searchResult →
     userMessage = JS.trim input ∧ userMessage ≠ "" ∧
     JS.trim userMessage = userMessage ∧
     searchResult = AskAndrew.searchContext this userMessage) ∧
  (loc = ComputingLocalChat.TooLong ↔
     asked ≠ AskAndrewChat.Ignored ∧ 1000 < String.length (JS.trim input)) ∧
  (loc = ComputingLocalChat.StillLoading ↔
     asked ≠ AskAndrewChat.Ignored ∧ String.length (JS.trim input) ≤ 1000 ∧
     usingWllama = true ∧ wllamaLoaded = false) ∧
  (String.length (JS.trim input) ≤ 1000 →
   (usingWllama = true → wllamaLoaded = true) →
   loc = match asked with
         | AskAndrewChat.Ignored => ComputingLocalChat.Ignored
         | AskAndrewChat.Greeted => ComputingLocalChat.Greeted
         | AskAndrewChat.Answered userMessage searchResult =>
             ComputingLocalChat.Answered userMessage searchResult
         end).
Proof.
  intros asked loc. subst asked loc.
  unfold AskAndrewChat.sendMessage, ComputingLocalChat.sendMessage,
    ComputingLocalChat.MAX_MESSAGE_LENGTH.
  change ComputingLocalChat.greetingPattern_test
    with AskAndrewChat.greetingPattern_test.
  change ComputingLocal.searchContext with AskAndrew.searchContext.
  pose proof (trim_idemp input) as Hidem.
  destruct (decide (JS.trim input = "")) as [He|Hne];
    [rewrite (proj2 (truthy_false_empty _) He); rewrite He in *
    |rewrite (proj2 (truthy_nonempty _) Hne)];
    destruct isGenerating; cbn [negb orb];
    destruct (Nat.ltb_spec 1000 (String.length (JS.trim input))) as [Hlen|Hlen];
    destruct (Nat.leb_spec (messagesBefore + 1) 1) as [Hm|Hm];
    destruct (AskAndrewChat.greetingPattern_test (JS.trim input)) eqn:Hg;
    destruct usingWllama, wllamaLoaded; cbn [andb negb];
    cbn [String.length] in *;
    repeat match goal with
           | |- _ ∧ _ => split
           | |- _ ↔ _ => split
           | |- ∀ _, _ => intro
           end;
    try done; try lia; try congruence;
    try (simplify_eq; split_and!; first [done|lia|congruence]);
    try (destruct_and?; destruct_or?; first [done|lia|congruence]);
    try (left; done); try (right; done); try (exfalso; naive_solver lia).
Qed.

(** ** The conversation history *)

Section History.
Import AskAndrewChat.

Lemma turns_of_app t1 t2 : turns_of (t1 ++ t2) = turns_of t1 ++ turns_of t2.
Proof. unfold turns_of. apply bind_app. Qed.

Lemma turns_of_snoc t u a :
  turns_of (t ++ [(u, a)])
  = turns_of t ++ [{| chat_role := "user"; chat_content := u |};
                   {| chat_role := "assistant"; chat_content := a |}].
Proof. by rewrite turns_of_app. Qed.

Lemma length_turns_of t : length (turns_of t) = 2 * length t.
Proof.
  induction t as [|[u a] t IH]; [done|].
  change (turns_of ((u, a) :: t))
    with ({| chat_role := "user"; chat_content := u |}
          :: {| chat_role := "assistant"; chat_content := a |} :: turns_of t).
  cbn [length]. lia.
Qed.

Lemma drop_turns_of k t : drop (2 * k) (turns_of t) = turns_of (drop k t).
Proof.
  revert t. induction k as [|k IH]; intros t; [done|].
  destruct t as [|[u a] t]; [done|].
  replace (2 * S k) with (S (S (2 * k))) by lia.
  change (turns_of ((u, a) :: t))
    with ({| chat_role := "user"; chat_content := u |}
          :: {| chat_role := "assistant"; chat_content := a |} :: turns_of t).
  cbn [drop]. apply IH.
Qed.

Lemma slice_last_turns_of k t :
  JSText.slice_last (2 * k) (turns_of t) = turns_of (JSText.slice_last k t).
Proof.
  unfold JSText.slice_last. rewrite length_turns_of, <- drop_turns_of.
  f_equal. lia.
Qed.

Lemma length_slice_last {A} k (l : list A) :
  length (JSText.slice_last k l) ≤ k.
Proof. unfold JSText.slice_last. rewrite length_drop. lia. Qed.

Lemma run_snoc this webGPU events e :
  run this webGPU (events ++ [e]) = step this (run this webGPU events) e.
Proof. unfold run. by rewrite foldl_app. Qed.

Lemma run_webGPU this webGPU events :
  webGPUAvailable (run this webGPU events) = webGPU.
Proof.
  induction events as [|e events IH] using rev_ind; [done|].
  rewrite run_snoc. destruct e as [input before g| |confirmed]; cbn [step].
  - destruct (sendMessage this false before input); try done.
    unfold generateResponse.
    destruct (simpleMode _ || negb (webGPUAvailable _)); [done|].
    by destruct g.
  - unfold toggleMode. by destruct (negb _).
  - unfold restartConversation. by destruct confirmed.
Qed.

Lemma sendMessage_cases this before input :
  match sendMessage this false before input with
  | Answered u r => u = JS.trim input ∧ u ≠ ""
  | _ => True
  end.
Proof.
  unfold sendMessage.
  destruct (JS.truthy (JS.trim input)) eqn:Ht; cbn [negb orb]; [|done].
  apply truthy_nonempty in Ht.
  by destruct ((before + 1 <=? 1) && greetingPattern_test (JS.trim input)).
Qed.

Lemma run_turns this webGPU events :
  ∃ turns,
    conversationHistory (run this webGPU events) = turns_of turns ∧
    (webGPU = false → turns = []) ∧
    ∀ u a, (u, a) ∈ turns →
      ∃ input before,
        Send input before (Streamed a) ∈ events ∧
        u = JS.trim input ∧ u ≠ "".
Proof.
  induction events as [|e events (turns & Hh & Hgpu & Hturns)] using rev_ind.
  { exists []. split_and!; [done|done|]. by intros ?? ?%elem_of_nil. }
  assert (Hweak : ∀ u a, (u, a) ∈ turns →
            ∃ input before, Send input before (Streamed a) ∈ events ++ [e] ∧
              u = JS.trim input ∧ u ≠ "").
  { intros u a (input & before & Hin & ?)%Hturns.
    exists input, before. split; [|done]. apply elem_of_app. by left. }
  rewrite run_snoc. destruct e as [input before g| |confirmed]; cbn [step].
  - pose proof (sendMessage_cases this before input) as Hcase.
    destruct (sendMessage this false before input) as [| |u r];
      [by exists turns|by exists turns|].
    destruct Hcase as (-> & Hne).
    unfold generateResponse. rewrite run_webGPU.
    destruct (simpleMode _ || negb webGPU) eqn:Hmode; [by exists turns|].
    destruct g as [a|]; [|by exists turns].
    exists (turns ++ [(JS.trim input, a)]). cbn [conversationHistory].
    split_and!.
    + by rewrite Hh, turns_of_snoc.
    + intros ->. rewrite orb_true_r in Hmode. done.
    + intros u' a' [Hin|Hin%list_elem_of_singleton]%elem_of_app; [by apply Hweak|].
      injection Hin as -> ->. exists input, before.
      split; [|done]. apply elem_of_app. right. by apply list_elem_of_singleton.
  - exists turns. split_and!; [|done|done].
    unfold toggleMode. by destruct (negb _).
  - unfold restartConversation. destruct confirmed; [|by exists turns].
    exists []. split_and!; [done|done|]. by intros ?? ?%elem_of_nil.
Qed.

End History.

Section LocalHistory.
Import AskAndrewChat.

Lemma local_sendMessage_cases this usingWllama wllamaLoaded before input :
  match ComputingLocalChat.sendMessage this false usingWllama wllamaLoaded
          before input with
  | ComputingLocalChat.Answered u r =>
      u = JS.trim input ∧ u ≠ "" ∧ String.length u ≤ 1000 ∧
      (usingWllama = true → wllamaLoaded = true)
  | _ => True
  end.
Proof.
  unfold ComputingLocalChat.sendMessage, ComputingLocalChat.MAX_MESSAGE_LENGTH.
  destruct (JS.truthy (JS.trim input)) eqn:Ht; cbn [negb orb]; [|done].
  apply truthy_nonempty in Ht.
  destruct (Nat.ltb_spec 1000 (String.length (JS.trim input))); [done|].
  destruct usingWllama, wllamaLoaded; cbn [andb negb]; try done;
    by destruct ((before + 1 <=? 1) && _).
Qed.

Lemma local_run_snoc this events e :
  ComputingLocalChat.run this (events ++ [e])
  = ComputingLocalChat.step this (ComputingLocalChat.run this events) e.
Proof. unfold ComputingLocalChat.run. by rewrite foldl_app. Qed.

Lemma local_run_turns this events :
  ∃ turns,
    ComputingLocalChat.run this events = turns_of turns ∧
    ∀ u a, (u, a) ∈ turns →
      ∃ input usingWllama wllamaLoaded before,
        ComputingLocalChat.Send input usingWllama wllamaLoaded before
          (ComputingLocalChat.Streamed a false) ∈ events ∧
        u = JS.trim input ∧ u ≠ "" ∧ String.length u ≤ 1000 ∧
        JS.trim a ≠ "".
Proof.
  induction events as [|e events (turns & Hh & Hturns)] using rev_ind.
  { exists []. split; [done|]. by intros ?? ?%elem_of_nil. }
  assert (Hweak : ∀ u a, (u, a) ∈ turns →
            ∃ input usingWllama wllamaLoaded before,
              ComputingLocalChat.Send input usingWllama wllamaLoaded before
                (ComputingLocalChat.Streamed a false) ∈ events ++ [e] ∧
              u = JS.trim input ∧ u ≠ "" ∧ String.length u ≤ 1000 ∧
              JS.trim a ≠ "").
  { intros u a (input & uw & wl & before & Hin & ?)%Hturns.
    exists input, uw, wl, before. split; [|done]. apply elem_of_app. by left. }
  rewrite local_run_snoc.
  destruct e as [input uw wl before g|confirmed]; cbn [ComputingLocalChat.step].
  - pose proof (local_sendMessage_cases this uw wl before input) as Hcase.
    destruct (ComputingLocalChat.sendMessage this false uw wl before input)
      as [| | | |u r]; try by exists turns.
    destruct Hcase as (-> & Hne & Hlen & _).
    unfold ComputingLocalChat.generateResponse.
    destruct g as [a stopped|]; [|by exists turns].
    destruct stopped; cbn [negb andb]; [by exists turns|].
    destruct (JS.truthy (JS.trim a)) eqn:Ha; [|by exists turns].
    apply truthy_nonempty in Ha.
    exists (turns ++ [(JS.trim input, a)]). split.
    + by rewrite Hh, turns_of_snoc.
    + intros u' a' [Hin|Hin%list_elem_of_singleton]%elem_of_app; [by apply Hweak|].
      injection Hin as -> ->. exists input, uw, wl, before.
      split; [|done]. apply elem_of_app. right. by apply list_elem_of_singleton.
  - destruct confirmed; [|by exists turns].
    exists []. split; [done|]. by intros ?? ?%elem_of_nil.
Qed.

End LocalHistory.

(** X11: whatever the user sends, toggles and restarts, the conversation
    history of Ask Andrew is a sequence of complete turns, a user message
    followed by the assistant's answer.  The user message of a turn is the
    trimmed, non-empty text that was typed, without the retrieved context,
    and the answer is what the engine streamed for it; without WebGPU the
    history stays empty.  The request to the engine is the system prompt,
    the last three complete turns and the new prompt: at most eight
    messages. *)
Theorem history_complete_turns (this : App) (webGPU : bool)
    (events : list AskAndrewChat.Event) :
  ∃ turns : list (string * string),
    AskAndrewChat.conversationHistory (AskAndrewChat.run this webGPU events)
    = AskAndrewChat.turns_of turns ∧
    (webGPU = false → turns = []) ∧
    (∀ u a, (u, a) ∈ turns →
       ∃ input before,
         AskAndrewChat.Send input before (AskAndrewChat.Streamed a) ∈ events ∧
         u = JS.trim input ∧ u ≠ "") ∧
    ∀ systemPrompt context userMessage,
      let messages :=
        AskAndrewChat.engine_messages systemPrompt
          (AskAndrewChat.conversationHistory
             (AskAndrewChat.run this webGPU events))
          context userMessage in
      messages
      = {| AskAndrewChat.chat_role := "system";
           AskAndrewChat.chat_content := systemPrompt |}
        :: AskAndrewChat.turns_of (JSText.slice_last 3 turns)
        ++ [{| AskAndrewChat.chat_role := "user";
               AskAndrewChat.chat_content :=
                 AskAndrewChat.userPrompt_of context userMessage |}] ∧
      length messages ≤ 8.
Proof.
  destruct (run_turns this webGPU events) as (turns & Hh & Hgpu & Hturns).
  exists turns. split_and!; [done|done|done|].
  intros systemPrompt context userMessage messages. subst messages.
  unfold AskAndrewChat.engine_messages. rewrite Hh.
  change 6 with (2 * 3). rewrite (slice_last_turns_of 3 turns). split; [done|].
  cbn [length]. rewrite length_app, length_turns_of. cbn [length].
  pose proof (length_slice_last 3 turns). lia.
Qed.

(** X12: the conversation history of the local app is a sequence of
    complete turns as well, and here a turn is recorded only for an answer
    that was not stopped and is not blank; the user message of a turn is
    the trimmed, non-empty text that was typed, of at most 1000 code
    units.  The request to the WebLLM engine is the system prompt, the last
    three complete turns and the new prompt. *)
Theorem local_history_complete_turns (this : App)
    (events : list ComputingLocalChat.Event) :
  ∃ turns : list (string * string),
    ComputingLocalChat.run this events = AskAndrewChat.turns_of turns ∧
    (∀ u a, (u, a) ∈ turns →
       ∃ input usingWllama wllamaLoaded before,
         ComputingLocalChat.Send input usingWllama wllamaLoaded before
           (ComputingLocalChat.Streamed a false) ∈ events ∧
         u = JS.trim input ∧ u ≠ "" ∧ String.length u ≤ 1000 ∧
         JS.trim a ≠ "") ∧
    ∀ systemPrompt context userMessage,
      let messages :=
        ComputingLocalChat.webllm_messages systemPrompt
          (ComputingLocalChat.run this events) context userMessage in
      messages
      = {| AskAndrewChat.chat_role := "system";
           AskAndrewChat.chat_content := systemPrompt |}
        :: AskAndrewChat.turns_of (JSText.slice_last 3 turns)
        ++ [{| AskAndrewChat.chat_role := "user";
               AskAndrewChat.chat_content :=
                 AskAndrewChat.userPrompt_of context userMessage |}] ∧
      length messages ≤ 8.
Proof.
  destruct (local_run_turns this events) as (turns & Hh & Hturns).
  exists turns. split_and!; [done|done|].
  intros systemPrompt context userMessage messages. subst messages.
  unfold ComputingLocalChat.webllm_messages. rewrite Hh.
  change 6 with (2 * 3). rewrite (slice_last_turns_of 3 turns). split; [done|].
  cbn [length]. rewrite length_app, length_turns_of. cbn [length].
  pose proof (length_slice_last 3 turns). lia.
Qed.

(** ** Prompts and responses built from a search result *)

Section Prompts.
Import AskAndrew.

Lemma join_with_nonempty sep x l : x ≠ "" → JS.join_with sep (x :: l) ≠ "".
Proof. destruct x; [done|]. by destruct l. Qed.

(** The context of a search result is null or a non-empty string. *)
Lemma searchContext_context_truthy this userQuestion c :
  context (searchContext this userQuestion) = Some c → JS.truthy c = true.
Proof.
  unfold searchContext.
  destruct (sr_matches (performSearch this userQuestion)) as [|m ms].
  - cbn. destruct (List.find _ _) as [cat|]; [|done].
    destruct (documents cat); [done|]. by intros [= <-].
  - cbn -[JS.join_with]. intros [= <-].
    apply truthy_nonempty. by apply join_with_nonempty.
Qed.

(** A search result without documents has no context. *)
Lemma searchContext_no_documents this userQuestion :
  ctx_documents (searchContext this userQuestion) = [] →
  context (searchContext this userQuestion) = None.
Proof.
  unfold searchContext.
  destruct (sr_matches (performSearch this userQuestion)) as [|m ms]; [|done].
  cbn. destruct (List.find _ _) as [cat|]; [|done].
  by destruct (documents cat).
Qed.


Lemma length_substring0 n s :
  String.length (JSText.substring0 n s) ≤ n.
Proof.
  revert s. induction n as [|n IH]; intros [|c r]; cbn; try lia.
  specialize (IH r). lia.
Qed.

Lemma chatMLPrompt_length context userMessage :
  String.length (ComputingLocalChat.chatMLPrompt context userMessage)
  ≤ 711 + String.length userMessage.
Proof.
  unfold ComputingLocalChat.chatMLPrompt.
  set (information := match context with Some _ => _ | None => _ end).
  assert (Hinfo : String.length information ≤ 404).
  { subst information.
    assert (String.length ("No specific information available." +:+ newline)
            ≤ 404) by (apply Nat.leb_le; vm_compute; reflexivity).
    destruct context as [c|]; [|done].
    destruct (JS.truthy c); [|done].
    rewrite string_app_length. change (String.length newline) with 1.
    destruct (Nat.ltb_spec 400 (String.length c)); [|lia].
    rewrite string_app_length. pose proof (length_substring0 400 c).
    change (String.length "...") with 3. lia. }
  clearbody information.
  rewrite !string_app_length. change (String.length newline) with 1.
  repeat match goal with
         | |- context [String.length (String ?c ?s)] =>
             let n := eval vm_compute in (String.length (String c s)) in
             change (String.length (String c s)) with n
         end.
  lia.
Qed.




(** The loop of the simple response joins the contents with blank lines. *)
Lemma simple_loop (n k : nat) (docs : list Document) (acc : string) :
  docs ≠ [] → k + length docs = n →
  foldl (λ response (p : nat * Document),
           let response := response +:+ content p.2 in
           if p.1 <? n - 1 then response +:+ newline +:+ newline else response)
    acc (imap (λ index doc, (k + index, doc)) docs)
  = acc +:+ JS.join_with (newline +:+ newline) (content <$> docs).
Proof.
  revert k acc. induction docs as [|d docs IH]; intros k acc Hne Hn; [done|].
  cbn [imap foldl fst snd]. destruct docs as [|d' docs].
  - cbn [imap foldl fmap list_fmap JS.join_with length] in *.
    replace (k + 0 <? n - 1) with false
      by (symmetry; apply Nat.ltb_ge; lia).
    done.
  - replace (k + 0 <? n - 1) with true
      by (symmetry; apply Nat.ltb_lt; cbn [length] in Hn; lia).
    rewrite (imap_ext _ (λ index doc, (S k + index, doc)))
      by (intros; unfold compose; f_equal; lia).
    rewrite IH; [|done|cbn [length] in *; lia].
    rewrite (fmap_cons content d). rewrite (fmap_cons content d' docs).
    cbn [JS.join_with].
    by rewrite !string_app_assoc.
Qed.

End Prompts.

(** X13: the prompts of the local app for a message that is answered.  The
    retrieved context is null or a non-empty string; the WebLLM prompt is
    the context, a blank line, [Q: ] and the message when there is a
    context, and the message alone otherwise.  The ChatML prompt of the CPU
    engine is never longer than 1711 code units, however long the context
    is. *)
Theorem local_prompts_bounded (this : App) (usingWllama wllamaLoaded : bool)
    (messagesBefore : nat) (input userMessage : string)
    (searchResult : ContextResult) :
  ComputingLocalChat.sendMessage this false usingWllama wllamaLoaded
    messagesBefore input
  = ComputingLocalChat.Answered userMessage searchResult →
  (∀ systemPrompt history,
     last (ComputingLocalChat.webllm_messages systemPrompt history
             (context searchResult) userMessage)
     = Some {| AskAndrewChat.chat_role := "user";
               AskAndrewChat.chat_content :=
                 match context searchResult with
                 | Some c => c +:+ newline +:+ newline +:+ "Q: " +:+ userMessage
                 | None => userMessage
                 end |}) ∧
  (∀ c, context searchResult = Some c → c ≠ "") ∧
  String.length
    (ComputingLocalChat.chatMLPrompt (context searchResult) userMessage)
  ≤ 1711.
Proof.
  intros Hsend.
  pose proof (local_sendMessage_cases this usingWllama wllamaLoaded
                messagesBefore input) as Hcase.
  rewrite Hsend in Hcase. destruct Hcase as (Hu & Hne & Hlen & _).
  assert (Hr : searchResult = AskAndrew.searchContext this userMessage).
  { revert Hsend. unfold ComputingLocalChat.sendMessage.
    repeat match goal with
           | |- context [if ?b then _ else _] => destruct b
           end; try done.
    intros [= <- <-]. done. }
  assert (Htruthy : ∀ c, context searchResult = Some c → JS.truthy c = true).
  { intros c Hc. rewrite Hr in Hc.
    by apply (searchContext_context_truthy this userMessage). }
  split_and!.
  - intros systemPrompt history. unfold ComputingLocalChat.webllm_messages.
    rewrite app_comm_cons, last_snoc.
    destruct (context searchResult) as [c|]; [|done].
    by rewrite (Htruthy c eq_refl).
  - intros c Hc. by apply truthy_nonempty, Htruthy.
  - pose proof (chatMLPrompt_length (context searchResult) userMessage). lia.
Qed.

Lemma local_prompts_bounded_witness :
  ∃ searchResult c,
    context searchResult = Some c ∧ c ≠ "" ∧ 400 < String.length c ∧
    String.length
      (ComputingLocalChat.chatMLPrompt (context searchResult)
         "What is a transformer?")
    ≤ 1711.
Proof.
  exists (AskAndrew.searchContext (AskAndrew.loadIndex Scenario.long_index)
            "What is a transformer?"),
         ("[Generative AI - Transformers]" +:+ newline
          +:+ content Scenario.long_doc).
  assert (Hc : context (AskAndrew.searchContext
                          (AskAndrew.loadIndex Scenario.long_index)
                          "What is a transformer?")
               = Some ("[Generative AI - Transformers]" +:+ newline
                       +:+ content Scenario.long_doc))
    by (vm_compute; reflexivity).
  assert (Hsend : ComputingLocalChat.sendMessage
                    (AskAndrew.loadIndex Scenario.long_index) false true true 1
                    "  What is a transformer? "
                  = ComputingLocalChat.Answered "What is a transformer?"
                      (AskAndrew.searchContext
                         (AskAndrew.loadIndex Scenario.long_index)
                         "What is a transformer?"))
    by (vm_compute; reflexivity).
  split; [exact Hc|].
  split; [exact (proj1 (proj2 (local_prompts_bounded _ _ _ _ _ _ _ Hsend)) _ Hc)|].
  split; [apply Nat.ltb_lt; vm_compute; reflexivity|].
  exact (proj2 (proj2 (local_prompts_bounded _ _ _ _ _ _ _ Hsend))).
Defined.


(** X15: the text of a simple-mode response.  For the result of a search it
    is the contents of the documents of the result, whole and in order,
    separated by blank lines, without the headers of the context, and the
    fixed "no information" sentence when the result has no document, which
    is exactly when the result has no context. *)
Theorem simple_response_text (this : App) (userQuestion : string) :
  let r := AskAndrew.searchContext this userQuestion in
  AskAndrewChat.simpleResponseText r
  = match ctx_documents r with
    | [] => AskAndrewChat.noInformation
    | docs => JS.join_with (newline +:+ newline) (content <$> docs)
    end ∧
  (ctx_documents r = [] ↔ context r = None) ∧
  ∀ doc, doc ∈ ctx_documents r →
    Spec.substring (content doc) (AskAndrewChat.simpleResponseText r).
Proof.
  intros r.
  assert (Htext : AskAndrewChat.simpleResponseText r
    = match ctx_documents r with
      | [] => AskAndrewChat.noInformation
      | docs => JS.join_with (newline +:+ newline) (content <$> docs)
      end).
  { unfold AskAndrewChat.simpleResponseText.
    destruct (ctx_documents r) as [|d docs] eqn:Hdocs.
    - cbn [length Nat.eqb].
      pose proof (searchContext_no_documents this userQuestion Hdocs) as Hc.
      fold r in Hc. by rewrite Hc.
    - change (length (d :: docs) =? 0) with false. cbv iota.
      by refine (simple_loop (length (d :: docs)) 0 (d :: docs) "" _ _). }
  split_and!; [done| |].
  - split; [apply searchContext_no_documents|].
    intros Hctx. subst r. revert Hctx. unfold AskAndrew.searchContext.
    destruct (sr_matches _) as [|m ms]; [|done].
    cbn. destruct (List.find _ _) as [cat|]; [|done].
    by destruct (documents cat).
  - intros doc Hdoc. rewrite Htext.
    destruct (ctx_documents r) as [|d docs]; [by apply elem_of_nil in Hdoc|].
    apply join_with_contains. by apply list_elem_of_fmap_2.
Qed.

(** ** Keywords of a text and the search links *)

Section Keywords.
Import JS ComputingHistory.

Local Abbreviation kw := (λ c : ascii, is_lower_alnum c || Ascii.eqb c "_").

Lemma kw_not_space c : kw c = true → is_space c = false.
Proof. destruct c as [[] [] [] [] [] [] [] []]; by vm_compute. Qed.

Lemma kw_word_char c : kw c = true → is_word_char c = true.
Proof. destruct c as [[] [] [] [] [] [] [] []]; by vm_compute. Qed.

Lemma kw_lower_fixed c : kw c || Ascii.eqb c " " = true → lower_char c = c.
Proof. destruct c as [[] [] [] [] [] [] [] []]; by vm_compute. Qed.

Lemma lowered_word_char c :
  is_word_char (lower_char c) || is_space (lower_char c) = true →
  kw (lower_char c) || is_space (lower_char c) = true.
Proof. destruct c as [[] [] [] [] [] [] [] []]; by vm_compute. Qed.

Lemma all_chars_app p a b :
  Shape.all_chars p (a +:+ b) = Shape.all_chars p a && Shape.all_chars p b.
Proof.
  induction a as [|c a IH]; [done|].
  rewrite string_app_cons. cbn [Shape.all_chars]. by rewrite IH, andb_assoc.
Qed.

Lemma all_chars_join p ws :
  p " "%char = true → Forall (λ w, Shape.all_chars p w = true) ws →
  Shape.all_chars p (join_space ws) = true.
Proof.
  intros Hp. induction ws as [|w ws IH]; [done|].
  intros [Hw Hws]%Forall_cons. destruct ws as [|w' ws]; [done|].
  change (join_space (w :: w' :: ws)) with (w +:+ " " +:+ join_space (w' :: ws)).
  rewrite !all_chars_app, Hw, (IH Hws). cbn. by rewrite Hp.
Qed.

Lemma remove_punctuation_lower_chars text :
  Shape.all_chars (λ c, kw c || is_space c)
    (remove_punctuation (toLowerCase text)) = true.
Proof.
  induction text as [|c r IH]; [done|].
  cbn [toLowerCase map_chars remove_punctuation].
  destruct (is_word_char (lower_char c) || is_space (lower_char c)) eqn:Hc;
    [|done].
  cbn [Shape.all_chars]. by rewrite (lowered_word_char c Hc).
Qed.

Lemma remove_punctuation_fixed s :
  Shape.all_chars (λ c, kw c || Ascii.eqb c " ") s = true →
  remove_punctuation s = s.
Proof.
  induction s as [|c r IH]; [done|]. cbn [Shape.all_chars remove_punctuation].
  intros [Hc Hr]%andb_true_iff. rewrite (IH Hr).
  assert (is_word_char c || is_space c = true) as ->; [|done].
  revert Hc. clear. destruct c as [[] [] [] [] [] [] [] []]; by vm_compute.
Qed.

Lemma split_whitespace_from_nonempty b s : split_whitespace_from b s ≠ [].
Proof.
  revert b. induction s as [|c r IH]; intros b; [done|].
  cbn [split_whitespace_from]. destruct (is_space c).
  - destruct b; [apply IH|done].
  - by destruct (split_whitespace_from false r).
Qed.

(** The pieces of a split at white space hold no white space. *)
Lemma split_whitespace_pieces b s :
  Shape.all_chars (λ c, kw c || is_space c) s = true →
  Forall (λ w, Shape.all_chars kw w = true) (split_whitespace_from b s).
Proof.
  revert b. induction s as [|c r IH]; intros b.
  { intros _. by repeat constructor. }
  cbn [Shape.all_chars split_whitespace_from].
  intros [Hc Hr]%andb_true_iff. destruct (is_space c) eqn:Hs.
  - destruct b; [by apply IH|]. constructor; [done|by apply IH].
  - rewrite orb_false_r in Hc. specialize (IH false Hr).
    destruct (split_whitespace_from false r) as [|w ws].
    + repeat constructor. cbn [Shape.all_chars]. by rewrite Hc.
    + apply Forall_cons in IH as [Hw Hws]. constructor; [|done].
      cbn [Shape.all_chars]. by rewrite Hc, Hw.
Qed.

Lemma split_whitespace_word b w :
  Shape.all_chars kw w = true → split_whitespace_from b w = [w].
Proof.
  revert b. induction w as [|c w IH]; intros b; [done|].
  cbn [Shape.all_chars split_whitespace_from].
  intros [Hc Hw]%andb_true_iff.
  by rewrite (kw_not_space c Hc), (IH false Hw).
Qed.

Lemma split_whitespace_app_word w rest :
  Shape.all_chars kw w = true →
  split_whitespace_from false (w +:+ " " +:+ rest)
  = w :: split_whitespace_from true rest.
Proof.
  induction w as [|c w IH]; [done|].
  cbn [Shape.all_chars]. intros [Hc Hw]%andb_true_iff.
  rewrite string_app_cons. cbn [split_whitespace_from].
  by rewrite (kw_not_space c Hc), (IH Hw).
Qed.

Lemma split_whitespace_from_word_start b w rest :
  w ≠ "" → Shape.all_chars kw w = true →
  split_whitespace_from b (w +:+ rest) = split_whitespace_from false (w +:+ rest).
Proof.
  destruct w as [|c w]; [done|]. intros _.
  cbn [Shape.all_chars]. intros [Hc Hw]%andb_true_iff.
  rewrite string_app_cons. cbn [split_whitespace_from].
  by rewrite (kw_not_space c Hc).
Qed.

Lemma split_whitespace_join b ws :
  ws ≠ [] → Forall (λ w, w ≠ "" ∧ Shape.all_chars kw w = true) ws →
  split_whitespace_from b (join_space ws) = ws.
Proof.
  revert b. induction ws as [|w ws IH]; intros b; [done|]. intros _.
  intros [[Hne Hw] Hws]%Forall_cons. destruct ws as [|w' ws].
  - by apply split_whitespace_word.
  - change (join_space (w :: w' :: ws)) with (w +:+ " " +:+ join_space (w' :: ws)).
    rewrite split_whitespace_from_word_start by done.
    rewrite split_whitespace_app_word by done.
    by rewrite IH.
Qed.

Lemma filter_all {A} (P : A → Prop) `{∀ x, Decision (P x)} (l : list A) :
  Forall P l → filter P l = l.
Proof.
  induction 1 as [|x l Hx Hl IH]; [done|].
  by rewrite filter_cons_True, IH.
Qed.

(** The words that [extractKeywords] joins. *)
Lemma extractKeywords_words text :
  ∃ ws, extractKeywords text = join_space ws ∧
    Forall (λ w, w ≠ "" ∧ (w ∉ STOPWORDS) ∧ Shape.all_chars kw w = true) ws.
Proof.
  unfold extractKeywords. eexists. split; [done|].
  apply Forall_forall. intros w [[Hstop Hlen] Hin]%list_elem_of_filter.
  split_and!; [|done|].
  - intros ->. cbn in Hlen. lia.
  - pose proof (split_whitespace_pieces false _
                  (remove_punctuation_lower_chars text)) as Hall.
    rewrite Forall_forall in Hall. by apply Hall.
Qed.

Lemma extractKeywords_fixed ws :
  Forall (λ w, w ≠ "" ∧ (w ∉ STOPWORDS) ∧ Shape.all_chars kw w = true) ws →
  extractKeywords (join_space ws) = join_space ws.
Proof.
  intros Hws. destruct (decide (ws = [])) as [->|Hne]; [done|].
  assert (Hchars : Shape.all_chars (λ c, kw c || Ascii.eqb c " ")
                     (join_space ws) = true).
  { apply all_chars_join; [done|]. eapply Forall_impl; [exact Hws|].
    intros w (_ & _ & Hw). revert Hw. apply all_chars_impl.
    intros c ->. done. }
  unfold extractKeywords, toLowerCase.
  rewrite (map_chars_fixed lower_char _ _ kw_lower_fixed Hchars).
  rewrite (remove_punctuation_fixed _ Hchars).
  unfold split_whitespace. rewrite split_whitespace_join; [|done|].
  - f_equal. apply filter_all. eapply Forall_impl; [exact Hws|].
    intros w (Hw & Hstop & _). split; [done|].
    destruct w; [done|]. cbn. lia.
  - eapply Forall_impl; [exact Hws|]. by intros w (? & _ & ?).
Qed.

Lemma plus_for_space_chars k :
  Shape.all_chars (λ c, kw c || Ascii.eqb c " ") k = true →
  Shape.all_chars (λ c, kw c || Ascii.eqb c "+") (plus_for_space k) = true.
Proof.
  unfold plus_for_space. rewrite all_chars_map. apply all_chars_impl.
  intros c. destruct c as [[] [] [] [] [] [] [] []]; by vm_compute.
Qed.

End Keywords.

Section SearchLinks.
Import JS ComputingHistory.

Local Abbreviation kw := (λ c : ascii, is_lower_alnum c || Ascii.eqb c "_").

Lemma map_chars_app f a b :
  map_chars f (a +:+ b) = map_chars f a +:+ map_chars f b.
Proof.
  induction a as [|c a IH]; [done|].
  rewrite string_app_cons. cbn [map_chars]. by rewrite IH.
Qed.

Lemma plus_for_space_word w :
  Shape.all_chars kw w = true → plus_for_space w = w.
Proof.
  unfold plus_for_space. apply map_chars_fixed.
  intros c. destruct c as [[] [] [] [] [] [] [] []]; by vm_compute.
Qed.

(** Replacing the spaces of the joined words joins the words with [+]. *)
Lemma plus_for_space_join ws :
  Forall (λ w, Shape.all_chars kw w = true) ws →
  plus_for_space (join_space ws) = join_with "+" ws.
Proof.
  induction ws as [|w ws IH]; [done|].
  intros [Hw Hws]%Forall_cons. destruct ws as [|w' ws].
  - cbn [join_space join_with]. by apply plus_for_space_word.
  - change (join_space (w :: w' :: ws))
      with (w +:+ " " +:+ join_space (w' :: ws)).
    change (join_with "+" (w :: w' :: ws))
      with (w +:+ "+" +:+ join_with "+" (w' :: ws)).
    unfold plus_for_space in *. rewrite !map_chars_app.
    rewrite (plus_for_space_word w Hw : map_chars _ w = w), (IH Hws). done.
Qed.

Lemma plus_for_space_length k :
  String.length (plus_for_space k) = String.length k.
Proof.
  unfold plus_for_space. induction k as [|c r IH]; [done|].
  cbn [map_chars String.length]. by rewrite IH.
Qed.

End SearchLinks.

(** X16: the keywords of a text are words of lower-case letters, digits
    and underscores, none of them a stop word, joined by single spaces, so
    they hold no markup and no character that a link would have to
    escape; extracting the keywords of the keywords changes nothing.  The
    eBay link of a text is the eBay address followed by these words joined
    by [+], the Bing link is the Bing address followed by them, and a text
    without keywords gets no link but the request to be more specific. *)
Theorem extracted_keywords (text : string) :
  let keywords := ComputingHistory.extractKeywords text in
  ∃ ws,
    keywords = JS.join_space ws ∧
    Forall (λ w, w ≠ "" ∧ (w ∉ ComputingHistory.STOPWORDS) ∧
              Shape.all_chars (λ c, JS.is_lower_alnum c || Ascii.eqb c "_") w
              = true) ws ∧
    Shape.all_chars
      (λ c, JS.is_lower_alnum c || Ascii.eqb c "_" || Ascii.eqb c " ") keywords
    = true ∧
    ComputingHistory.extractKeywords keywords = keywords ∧
    (∀ k url,
       ComputingHistory.textRoute text = ComputingHistory.Ebay k url →
       k = keywords ∧ k ≠ "" ∧
       url = "https://www.ebay.com/sch/i.html?_nkw=" +:+ JS.join_with "+" ws) ∧
    (∀ k url,
       ComputingHistory.textRoute text = ComputingHistory.Bing k url →
       k = keywords ∧ k ≠ "" ∧
       url = "https://www.bing.com/search?q=" +:+ JS.join_with "+" ws) ∧
    (ComputingHistory.textRoute text = ComputingHistory.MoreSpecific ↔
     ws = []) ∧
    String.length (JS.join_with "+" ws) = String.length keywords ∧
    Shape.all_chars
      (λ c, JS.is_lower_alnum c || Ascii.eqb c "_" || Ascii.eqb c "+")
      (JS.join_with "+" ws)
    = true.
Proof.
  intros keywords.
  destruct (extractKeywords_words text) as (ws & Hk & Hws). fold keywords in Hk.
  assert (Hwords : Forall (λ w, Shape.all_chars
            (λ c, JS.is_lower_alnum c || Ascii.eqb c "_") w = true) ws).
  { eapply Forall_impl; [exact Hws|]. by intros w (_ & _ & ?). }
  assert (Hchars : Shape.all_chars
            (λ c, JS.is_lower_alnum c || Ascii.eqb c "_" || Ascii.eqb c " ")
            keywords = true).
  { rewrite Hk. apply all_chars_join; [done|]. eapply Forall_impl; [exact Hwords|].
    intros w. apply all_chars_impl. by intros c ->. }
  assert (Hplus : ComputingHistory.plus_for_space keywords
                  = JS.join_with "+" ws).
  { rewrite Hk. by apply plus_for_space_join. }
  assert (Hempty : keywords = "" ↔ ws = []).
  { rewrite Hk. split; [|by intros ->].
    destruct ws as [|w ws]; [done|]. intros Hjoin.
    apply Forall_cons in Hws as [(Hw & _) _]. destruct w; [done|].
    by destruct ws. }
  exists ws. split_and!.
  - done.
  - done.
  - done.
  - rewrite Hk. by apply extractKeywords_fixed.
  - intros k url. unfold ComputingHistory.textRoute. fold keywords.
    destruct (JS.truthy keywords) eqn:Ht; cbn [negb]; [|done].
    apply truthy_nonempty in Ht. destruct (_ || _ || _); [|by destruct (_ || _ || _)].
    intros [= <- <-]. by rewrite Hplus.
  - intros k url. unfold ComputingHistory.textRoute. fold keywords.
    destruct (JS.truthy keywords) eqn:Ht; cbn [negb]; [|done].
    apply truthy_nonempty in Ht. destruct (_ || _ || _); [done|].
    destruct (_ || _ || _); [|done].
    intros [= <- <-]. by rewrite Hplus.
  - rewrite <- Hempty. unfold ComputingHistory.textRoute. fold keywords.
    destruct (JS.truthy keywords) eqn:Ht; cbn [negb].
    + apply truthy_nonempty in Ht. split; [|done].
      destruct (_ || _ || _); [done|]. by destruct (_ || _ || _).
    + apply truthy_false_empty in Ht. done.
  - by rewrite <- Hplus, plus_for_space_length.
  - rewrite <- Hplus. by apply plus_for_space_chars.
Qed.

(** ** The first sentence of a text *)

Section FirstSentence.
Import JS ComputingHistory.

Local Abbreviation inner := (λ c : ascii, negb (is_terminator c)).

Lemma terminator_not_space c : is_terminator c = true → is_space c = false.
Proof. destruct c as [[] [] [] [] [] [] [] []]; by vm_compute. Qed.

Lemma trimStart_suffix s : ∃ a, s = a +:+ trimStart s.
Proof.
  induction s as [|c r [a IH]]; [by exists ""|].
  cbn [trimStart]. destruct (is_space c); [|by exists ""].
  exists (String c a). by rewrite string_app_cons, <- IH.
Qed.

Lemma trimEnd_prefix s : ∃ b, s = trimEnd s +:+ b.
Proof.
  induction s as [|c r [b IH]]; [by exists ""|].
  destruct (is_space c) eqn:Hc.
  - rewrite (trimEnd_cons_space c r Hc).
    destruct (trimEnd r) as [|c' r'] eqn:Hr.
    + by exists (String c r).
    + exists b. by rewrite string_app_cons, <- IH.
  - rewrite (trimEnd_cons_nonspace c r Hc). exists b.
    by rewrite string_app_cons, <- IH.
Qed.

Lemma trim_substring s : Spec.substring (trim s) s.
Proof.
  destruct (trimStart_suffix s) as [a Ha].
  destruct (trimEnd_prefix (trimStart s)) as [b Hb].
  exists a, b. unfold trim. by rewrite <- Hb.
Qed.

Lemma length_trim s : String.length (trim s) ≤ String.length s.
Proof. apply substring_length, trim_substring. Qed.

Lemma all_chars_trim p s :
  Shape.all_chars p s = true → Shape.all_chars p (trim s) = true.
Proof. intros H. by apply all_chars_trimEnd, all_chars_trimStart. Qed.

Lemma substring0_prefix n s : ∃ b, s = JSText.substring0 n s +:+ b.
Proof.
  revert s. induction n as [|n IH]; intros s; [by exists s; destruct s|].
  destruct s as [|c r]; [by exists ""|].
  destruct (IH r) as [b Hb]. exists b. cbn [JSText.substring0].
  by rewrite string_app_cons, <- Hb.
Qed.

Lemma substring0_all n s :
  String.length s ≤ n → JSText.substring0 n s = s.
Proof.
  revert s. induction n as [|n IH]; intros [|c r]; cbn; try done; try lia.
  intros H. rewrite IH; [done|lia].
Qed.

Lemma all_chars_substring0 p n s :
  Shape.all_chars p s = true → Shape.all_chars p (JSText.substring0 n s) = true.
Proof.
  revert s. induction n as [|n IH]; intros [|c r]; cbn; try done.
  intros [-> Hr]%andb_true_iff. by apply IH.
Qed.

(** Trimming keeps a first character that is no white space. *)
Lemma trim_cons_nonspace c r :
  is_space c = false → trim (String c r) = String c (trimEnd r).
Proof.
  intros Hc. unfold trim. cbn [trimStart]. rewrite Hc.
  by apply trimEnd_cons_nonspace.
Qed.

Lemma first_sentence_true_none s :
  first_sentence_from true s = None ↔ Shape.all_chars inner s = true.
Proof.
  induction s as [|c r IH]; [done|].
  cbn [first_sentence_from Shape.all_chars].
  destruct (is_terminator c); cbn [negb andb]; [done|].
  rewrite <- IH. by destruct (first_sentence_from true r).
Qed.

Lemma first_sentence_true_some s m :
  first_sentence_from true s = Some m →
  ∃ body c rest, m = body +:+ String c "" ∧ s = m +:+ rest ∧
    is_terminator c = true ∧ Shape.all_chars inner body = true.
Proof.
  revert m. induction s as [|c r IH]; intros m; [done|].
  cbn [first_sentence_from]. destruct (is_terminator c) eqn:Hc.
  - intros [= <-]. by exists "", c, r.
  - destruct (first_sentence_from true r) as [m'|]; [|done].
    intros [= <-]. destruct (IH m' eq_refl) as (body & c' & rest & -> & -> & ? & ?).
    exists (String c body), c', rest. split_and!; [done|done|done|].
    cbn [Shape.all_chars]. by rewrite Hc.
Qed.

Lemma first_sentence_false_some s m :
  first_sentence_from false s = Some m →
  ∃ body c rest, m = body +:+ String c "" ∧ s = m +:+ rest ∧ body ≠ "" ∧
    is_terminator c = true ∧ Shape.all_chars inner body = true.
Proof.
  destruct s as [|c r]; [done|]. cbn [first_sentence_from].
  destruct (is_terminator c) eqn:Hc; [done|].
  destruct (first_sentence_from true r) as [m'|] eqn:Hr; [|done].
  intros [= <-].
  destruct (first_sentence_true_some r m' Hr) as (body & c' & rest & -> & -> & ? & ?).
  exists (String c body), c', rest. split_and!; [done..|].
  cbn [Shape.all_chars]. by rewrite Hc.
Qed.

(** A sentence is found again in itself. *)
Lemma first_sentence_of_sentence b body c :
  (b = false → body ≠ "") →
  is_terminator c = true → Shape.all_chars inner body = true →
  first_sentence_from b (body +:+ String c "") = Some (body +:+ String c "").
Proof.
  revert b. induction body as [|c' body IH]; intros b Hb Hc Hbody.
  - rewrite string_app_nil_l. cbn [first_sentence_from]. rewrite Hc.
    destruct b; [done|]. by destruct Hb.
  - cbn [Shape.all_chars] in Hbody. apply andb_true_iff in Hbody as [Hc' Hbody].
    rewrite string_app_cons. cbn [first_sentence_from].
    apply negb_true_iff in Hc'. rewrite Hc'.
    by rewrite (IH true).
Qed.

Lemma first_sentence_false_none s :
  first_sentence_from false s = None →
  Shape.all_chars inner s = true ∨
  ∃ c r, s = String c r ∧ is_terminator c = true.
Proof.
  destruct s as [|c r]; [by left|]. cbn [first_sentence_from].
  destruct (is_terminator c) eqn:Hc; [right; by exists c, r|].
  destruct (first_sentence_from true r) eqn:Hr; [done|]. intros _. left.
  cbn [Shape.all_chars]. rewrite Hc. by apply first_sentence_true_none.
Qed.

Lemma first_sentence_false_inner s :
  Shape.all_chars inner s = true → first_sentence_from false s = None.
Proof.
  destruct s as [|c r]; [done|]. cbn [Shape.all_chars first_sentence_from].
  intros [Hc Hr]%andb_true_iff. apply negb_true_iff in Hc. rewrite Hc.
  apply first_sentence_true_none in Hr. by rewrite Hr.
Qed.

(** Trimming a sentence trims its body. *)
Lemma trim_sentence body c :
  is_terminator c = true →
  trim (body +:+ String c "") = trimStart body +:+ String c "".
Proof.
  intros Hc. pose proof (terminator_not_space c Hc) as Hs.
  unfold trim.
  assert (Hstart : trimStart (body +:+ String c "")
                   = trimStart body +:+ String c "").
  { induction body as [|c' body IH];
      [rewrite string_app_nil_l; cbn [trimStart]; by rewrite Hs|].
    rewrite string_app_cons. cbn [trimStart].
    destruct (is_space c'); [done|]. by rewrite string_app_cons. }
  rewrite Hstart.
  assert (Hend : trimEnd (String c "") = String c "")
    by by rewrite (trimEnd_cons_nonspace c "" Hs).
  rewrite trimEnd_app_nonempty; rewrite Hend; done.
Qed.

Lemma truncate_shape text :
  let r := truncateToFirstSentence text in
  (∃ body c, r = body +:+ String c "" ∧ is_terminator c = true ∧
     Shape.all_chars inner body = true ∧ first_sentence_from false text ≠ None) ∨
  (first_sentence_from false text = None ∧
   r = trim (JSText.substring0 100 text)).
Proof.
  unfold truncateToFirstSentence.
  destruct (first_sentence_from false text) as [m|] eqn:Hm; [left|by right].
  destruct (first_sentence_false_some _ _ Hm) as (body & c & rest & -> & _ & _ & Hc & Hb).
  exists (trimStart body), c. split_and!; [by apply trim_sentence|done| |done].
  by apply all_chars_trimStart.
Qed.

Lemma truncate_idemp text :
  truncateToFirstSentence (truncateToFirstSentence text)
  = truncateToFirstSentence text.
Proof.
  destruct (truncate_shape text) as [(body & c & Hr & Hc & Hb & _)|[Hnone Hr]];
    cbn zeta in Hr.
  - assert (Htrim : trim (truncateToFirstSentence text)
                    = truncateToFirstSentence text).
    { unfold truncateToFirstSentence.
      destruct (first_sentence_from false text); apply trim_idemp. }
    rewrite Hr in *. destruct body as [|c' body].
    + rewrite string_app_nil_l. unfold truncateToFirstSentence.
      cbn [first_sentence_from]. rewrite Hc. cbn [JSText.substring0].
      by rewrite (trim_cons_nonspace c "" (terminator_not_space c Hc)).
    + unfold truncateToFirstSentence at 1.
      rewrite first_sentence_of_sentence; done.
  - assert (Hlen : String.length (truncateToFirstSentence text) ≤ 100).
    { rewrite Hr. etrans; [apply length_trim|apply length_substring0]. }
    assert (Hagain : first_sentence_from false (truncateToFirstSentence text)
                     = None).
    { rewrite Hr. destruct (first_sentence_false_none _ Hnone)
        as [Hall|(c & r & -> & Hc)].
      - by apply first_sentence_false_inner, all_chars_trim, all_chars_substring0.
      - cbn [JSText.substring0].
        rewrite trim_cons_nonspace by by apply terminator_not_space.
        cbn [first_sentence_from]. by rewrite Hc. }
    unfold truncateToFirstSentence at 1. rewrite Hagain.
    rewrite substring0_all by done. rewrite Hr. apply trim_idemp.
Qed.

End FirstSentence.

(** X17: the first sentence kept of a text is trimmed and is a part of the
    text; it is either a run of characters without a full stop, exclamation
    mark or question mark followed by one of them, or at most 100 code units
    long; and truncating it again changes nothing. *)
Theorem first_sentence_truncation (text : string) :
  let r := ComputingHistory.truncateToFirstSentence text in
  JS.trim r = r ∧
  Spec.substring r text ∧
  ComputingHistory.truncateToFirstSentence r = r ∧
  ((∃ body c, r = body +:+ String c "" ∧
      ComputingHistory.is_terminator c = true ∧
      Shape.all_chars (λ c, negb (ComputingHistory.is_terminator c)) body = true)
   ∨ String.length r ≤ 100).
Proof.
  intros r. split_and!.
  - unfold r, ComputingHistory.truncateToFirstSentence.
    destruct (ComputingHistory.first_sentence_from false text); apply trim_idemp.
  - unfold r, ComputingHistory.truncateToFirstSentence.
    destruct (ComputingHistory.first_sentence_from false text) as [m|] eqn:Hm.
    + destruct (first_sentence_false_some _ _ Hm) as (_ & _ & rest & _ & Ht & _).
      apply (substring_trans _ m); [apply trim_substring|].
      exists "", rest. by rewrite string_app_nil_l.
    + apply (substring_trans _ (JSText.substring0 100 text));
        [apply trim_substring|].
      destruct (substring0_prefix 100 text) as [b Hb].
      exists "", b. by rewrite string_app_nil_l.
  - apply truncate_idemp.
  - destruct (truncate_shape text) as [(body & c & Hr & Hc & Hb & _)|[_ Hr]];
      cbn zeta in Hr; fold r in Hr.
    + left. by exists body, c.
    + right. rewrite Hr. etrans; [apply length_trim|apply length_substring0].
Qed.

(** ** The two remembered exchanges *)

Section Window.
Import ComputingHistory.

Lemma slice_last_short {A} n (l : list A) :
  length l ≤ n → JSText.slice_last n l = l.
Proof.
  intros H. unfold JSText.slice_last.
  by replace (length l - n) with 0 by lia.
Qed.












End Window.


(** ** Text sent to the speech service *)

Section Escaping.
Import AskAndrewSpeech.

Local Abbreviation markup :=
  (λ c : ascii, Ascii.eqb c "<" || Ascii.eqb c ">" || Ascii.eqb c "'"
                || Ascii.eqb c "034").

Lemma escape_char_cases c :
  (escape_char c = String c "" ∧ markup c = false ∧ c ≠ "&"%char) ∨
  (c = "<"%char ∧ escape_char c = "&lt;") ∨
  (c = ">"%char ∧ escape_char c = "&gt;") ∨
  (c = "&"%char ∧ escape_char c = "&amp;") ∨
  (c = "'"%char ∧ escape_char c = "&apos;") ∨
  (c = "034"%char ∧ escape_char c = "&quot;").
Proof.
  unfold escape_char.
  destruct (Ascii.eqb_spec c "<") as [->|H1]; [by right; left|].
  destruct (Ascii.eqb_spec c ">") as [->|H2]; [by right; right; left|].
  destruct (Ascii.eqb_spec c "&") as [->|H3]; [by right; right; right; left|].
  destruct (Ascii.eqb_spec c "'") as [->|H4];
    [by right; right; right; right; left|].
  destruct (Ascii.eqb_spec c "034") as [->|H5];
    [by right; right; right; right; right|].
  by left.
Qed.

Lemma escapeXml_no_markup text :
  Shape.all_chars (λ c, negb (markup c)) (escapeXml text) = true.
Proof.
  induction text as [|c r IH]; [done|]. cbn [escapeXml].
  rewrite all_chars_app, IH, andb_true_r.
  destruct (escape_char_cases c)
    as [(-> & Hm & _)|[(_ & ->)|[(_ & ->)|[(_ & ->)|[(_ & ->)|(_ & ->)]]]]];
    try done.
  cbn [Shape.all_chars]. by rewrite Hm.
Qed.

Lemma escapeXml_injective text text' :
  escapeXml text = escapeXml text' → text = text'.
Proof.
  revert text'. induction text as [|c r IH]; intros [|c' r'];
    cbn [escapeXml]; [done| | |].
  - destruct (escape_char_cases c')
      as [(-> & _)|[(_ & ->)|[(_ & ->)|[(_ & ->)|[(_ & ->)|(_ & ->)]]]]];
      by rewrite ?string_app_cons.
  - destruct (escape_char_cases c)
      as [(-> & _)|[(_ & ->)|[(_ & ->)|[(_ & ->)|[(_ & ->)|(_ & ->)]]]]];
      by rewrite ?string_app_cons.
  - destruct (escape_char_cases c)
      as [(-> & _ & Hc)|[(-> & ->)|[(-> & ->)|[(-> & ->)|[(-> & ->)|(-> & ->)]]]]];
    destruct (escape_char_cases c')
      as [(-> & _ & Hc')|[(-> & ->)|[(-> & ->)|[(-> & ->)|[(-> & ->)|(-> & ->)]]]]];
    rewrite ?string_app_cons, ?string_app_nil_l; intros H;
    try discriminate H;
    try (injection H as H; f_equal; by apply IH);
    try (injection H as -> H; f_equal; by apply IH);
    try (injection H as ? _; congruence).
Qed.

Lemma escapeXml_plain text :
  Shape.all_chars (λ c, negb (markup c || Ascii.eqb c "&")) text = true →
  escapeXml text = text.
Proof.
  induction text as [|c r IH]; [done|]. cbn [Shape.all_chars escapeXml].
  intros [Hc Hr]%andb_true_iff. rewrite (IH Hr).
  assert (escape_char c = String c "") as ->; [|done].
  revert Hc. clear. destruct c as [[] [] [] [] [] [] [] []]; by vm_compute.
Qed.

Lemma escapeXml_length text :
  String.length text ≤ String.length (escapeXml text) ≤ 6 * String.length text.
Proof.
  induction text as [|c r IH]; [cbn; lia|]. cbn [escapeXml String.length].
  rewrite string_app_length.
  destruct (escape_char_cases c)
    as [(-> & _)|[(_ & ->)|[(_ & ->)|[(_ & ->)|[(_ & ->)|(_ & ->)]]]]];
    cbn [String.length]; lia.
Qed.

End Escaping.

(** X19: text escaped for the speech markup holds none of [<], [>], the
    apostrophe and the quotation mark; two different texts are never
    escaped to the same text, so nothing of the text is lost; a text
    without the five special characters is left as it is; and the escaped
    text is at most six times as long as the text. *)
Theorem xml_escaping (text : string) :
  Shape.all_chars
    (λ c, negb (Ascii.eqb c "<" || Ascii.eqb c ">" || Ascii.eqb c "'"
                || Ascii.eqb c "034"))
    (AskAndrewSpeech.escapeXml text) = true ∧
  (∀ text', AskAndrewSpeech.escapeXml text = AskAndrewSpeech.escapeXml text' →
     text = text') ∧
  (Shape.all_chars
     (λ c, negb (Ascii.eqb c "<" || Ascii.eqb c ">" || Ascii.eqb c "'"
                 || Ascii.eqb c "034" || Ascii.eqb c "&")) text = true →
   AskAndrewSpeech.escapeXml text = text) ∧
  String.length text ≤ String.length (AskAndrewSpeech.escapeXml text)
    ≤ 6 * String.length text.
Proof.
  split_and!.
  - apply escapeXml_no_markup.
  - apply escapeXml_injective.
  - apply escapeXml_plain.
  - apply escapeXml_length.
  - apply escapeXml_length.
Qed.

(** ** The typing animation *)

Section Typing.
Import JS.

Lemma join_take_prefix n ws :
  ∃ rest, join_space ws = join_space (take n ws) +:+ rest.
Proof.
  revert n. induction ws as [|w ws IH]; intros n.
  { exists "". by destruct n. }
  destruct n as [|n]; [by exists (join_space (w :: ws))|].
  cbn [take]. destruct ws as [|w' ws].
  { exists "". rewrite take_nil. cbn [join_space]. by rewrite string_app_nil_r. }
  destruct n as [|n].
  - exists (" " +:+ join_space (w' :: ws)). done.
  - destruct (IH (S n)) as [rest Hrest]. exists rest.
    cbn [take] in *.
    change (join_space (w :: w' :: ws))
      with (w +:+ " " +:+ join_space (w' :: ws)).
    change (join_space (w :: w' :: take n ws))
      with (w +:+ " " +:+ join_space (w' :: take n ws)).
    by rewrite Hrest, !string_app_assoc.
Qed.

Lemma typing_frame_prefix htmlContent i :
  ∃ rest,
    htmlContent
    = join_space (slice 0 (i + 1) (split_space htmlContent)) +:+ rest.
Proof.
  unfold slice. rewrite Nat.sub_0_r, drop_0.
  destruct (join_take_prefix (i + 1) (split_space htmlContent)) as [rest H].
  exists rest. by rewrite <- H, join_split_space.
Qed.

End Typing.

(** X20: the typing animation shows only beginnings of the response: every
    value written to the element is a prefix of the final content, the
    first is empty, and the last is the whole content, whether or not a
    stop was requested.  When no stop is requested, there is one value for
    each word of the content. *)
Theorem typing_animation (htmlContent : string) (stopAfter : option nat) :
  let frames := AskAndrewTyping.animateTyping htmlContent stopAfter in
  head frames = Some "" ∧
  last frames = Some htmlContent ∧
  Forall (λ frame, ∃ rest, htmlContent = frame +:+ rest) frames ∧
  length frames ≤ length (JS.split_space htmlContent) + 2 ∧
  (stopAfter = None →
   length frames = length (JS.split_space htmlContent) + 2 ∧
   frames !! length (JS.split_space htmlContent) = Some htmlContent).
Proof.
  intros frames. subst frames. unfold AskAndrewTyping.animateTyping.
  set (words := JS.split_space htmlContent).
  set (passes := match stopAfter with
                 | Some n => Nat.min n (length words)
                 | None => length words
                 end).
  assert (Hpasses : passes ≤ length words)
    by (subst passes; destruct stopAfter; lia).
  split_and!.
  - done.
  - by rewrite app_assoc, last_snoc.
  - apply Forall_app. split; [repeat constructor; by exists htmlContent|].
    apply Forall_app. split.
    + apply Forall_fmap, Forall_forall. intros i _. cbn.
      apply typing_frame_prefix.
    + repeat constructor. exists "". by rewrite string_app_nil_r.
  - rewrite !length_app, length_fmap, length_seq. cbn [length]. lia.
  - intros ->. subst passes. split.
    + rewrite !length_app, length_fmap, length_seq. cbn [length]. lia.
    + assert (Hw : words ≠ []) by apply split_space_nonempty.
      destruct (length words) as [|n] eqn:Hn; [by destruct words|].
      cbn [app]. rewrite lookup_cons.
      rewrite lookup_app_l by (rewrite length_fmap, length_seq; lia).
      rewrite list_lookup_fmap, lookup_seq_lt by lia. cbn.
      unfold JS.slice. rewrite Nat.sub_0_r, drop_0.
      rewrite take_ge by (fold words; lia).
      subst words. by rewrite join_split_space.
Qed.

(** ** The cleaned answer of the model *)

Section CleanResponse.
Import JS ComputingHistory.

Local Abbreviation inner := (λ c : ascii, negb (is_terminator c)).

Lemma terminator_not_line_terminator c :
  is_terminator c = true → is_line_terminator c = false.
Proof. destruct c as [[] [] [] [] [] [] [] []]; by vm_compute. Qed.

Lemma list_ascii_of_string_app a b :
  list_ascii_of_string (a +:+ b)
  = list_ascii_of_string a ++ list_ascii_of_string b.
Proof.
  induction a as [|c a IH]; [done|].
  rewrite string_app_cons. cbn [list_ascii_of_string]. by rewrite IH.
Qed.

Lemma ends_with_terminator_snoc body c :
  ends_with_terminator (body +:+ String c "") = is_terminator c.
Proof.
  unfold ends_with_terminator. rewrite list_ascii_of_string_app.
  cbn [list_ascii_of_string]. by rewrite last_snoc.
Qed.

Lemma match_complete_at_some s m :
  match_complete_at s = Some m →
  ∃ body c rest, m = body +:+ String c "" ∧ is_terminator c = true ∧
    s = m +:+ rest.
Proof.
  revert m. induction s as [|c r IH]; intros m; [done|].
  cbn [match_complete_at]. destruct (is_line_terminator c); [done|].
  destruct (match_complete_at r) as [m'|].
  - intros [= <-]. destruct (IH m' eq_refl) as (body & c' & rest & -> & Hc & ->).
    by exists (String c body), c', rest.
  - destruct (is_terminator c) eqn:Hc; [|done]. intros [= <-].
    by exists "", c, r.
Qed.

Lemma match_complete_some s m :
  match_complete s = Some m →
  ∃ body c, m = body +:+ String c "" ∧ is_terminator c = true ∧
    Spec.substring m s.
Proof.
  revert m. induction s as [|c r IH]; intros m; [done|].
  cbn [match_complete].
  destruct (match_complete_at (String c r)) as [m'|] eqn:Hat.
  - intros [= <-].
    destruct (match_complete_at_some _ _ Hat) as (body & c' & rest & -> & Hc & Hs).
    exists body, c'. split_and!; [done..|].
    exists "", rest. by rewrite string_app_nil_l.
  - intros Hm. destruct (IH m Hm) as (body & c' & -> & Hc & (a & b & ->)).
    exists body, c'. split_and!; [done..|].
    exists (String c a), b. by rewrite string_app_cons.
Qed.

Lemma match_complete_none s :
  match_complete s = None → Shape.all_chars inner s = true.
Proof.
  induction s as [|c r IH]; [done|]. cbn [match_complete Shape.all_chars].
  destruct (match_complete_at (String c r)) eqn:Hat; [done|].
  intros Hr. rewrite (IH Hr), andb_true_r.
  cbn [match_complete_at] in Hat.
  destruct (is_terminator c) eqn:Hc; [|done].
  rewrite (terminator_not_line_terminator c Hc) in Hat.
  by destruct (match_complete_at r).
Qed.

Lemma cleanResponse_cases raw r :
  cleanResponse raw = Some r →
  10 ≤ String.length r ∧
  (r = trim raw ∨
   ∃ m, match_complete (trim raw) = Some m ∧ r = trim m ∧
        ends_with_terminator (trim raw) = false) ∧
  (ends_with_terminator (trim raw) = false →
   match_complete (trim raw) = None → r = trim raw).
Proof.
  unfold cleanResponse.
  set (cleaned := if truthy (trim raw) && negb (ends_with_terminator (trim raw))
                  then _ else _).
  destruct (truthy cleaned) eqn:Ht; cbn [negb orb]; [|done].
  destruct (Nat.ltb_spec (String.length cleaned) 10); [done|].
  intros [= <-]. split; [done|]. subst cleaned.
  destruct (truthy (trim raw)); cbn [andb];
    [|split; [by left|done]].
  destruct (ends_with_terminator (trim raw)); cbn [negb];
    [split; [by left|done]|].
  destruct (match_complete (trim raw)) as [m|] eqn:Hm.
  - split; [right; by exists m|done].
  - split; [by left|done].
Qed.

End CleanResponse.

(** X21: an answer that the local page accepts from its model is trimmed,
    at least ten code units long and a part of what the model produced.
    It ends with a full stop, an exclamation mark or a question mark, or
    else it holds none of them at all: an unfinished last sentence is cut
    off whenever the text holds a finished one.  A text that already ends
    with one of the three is only trimmed. *)
Theorem cleaned_response (raw r : string) :
  ComputingHistory.cleanResponse raw = Some r →
  10 ≤ String.length r ∧
  JS.trim r = r ∧
  Spec.substring r raw ∧
  (ComputingHistory.ends_with_terminator r = true ∨
   Shape.all_chars (λ c, negb (ComputingHistory.is_terminator c)) r = true) ∧
  (ComputingHistory.ends_with_terminator (JS.trim raw) = true → r = JS.trim raw).
Proof.
  intros Hclean.
  destruct (cleanResponse_cases raw r Hclean)
    as (Hlen & [->|(m & Hm & -> & Hend)] & Hnone).
  - split_and!; [done|apply trim_idemp|apply trim_substring| |done].
    destruct (ComputingHistory.ends_with_terminator (JS.trim raw)) eqn:Hend;
      [by left|].
    destruct (ComputingHistory.match_complete (JS.trim raw)) as [m|] eqn:Hm.
    + right. unfold ComputingHistory.cleanResponse in Hclean.
      rewrite Hend, Hm in Hclean.
      destruct (match_complete_some _ _ Hm) as (body & c & -> & Hc & _).
      destruct (JS.truthy (JS.trim raw)) eqn:Ht; cbn [andb negb] in Hclean.
      * destruct (_ || _) in Hclean; [done|]. injection Hclean as Hr.
        rewrite <- Hr, trim_sentence, ends_with_terminator_snoc, Hc in Hend
          by done.
        done.
      * apply truthy_false_empty in Ht. rewrite Ht in Hm. done.
    + right. by apply match_complete_none.
  - destruct (match_complete_some _ _ Hm) as (body & c & -> & Hc & Hsub).
    split_and!; [done|apply trim_idemp| | |by rewrite Hend].
    + eapply substring_trans; [apply trim_substring|].
      eapply substring_trans; [exact Hsub|apply trim_substring].
    + left. by rewrite trim_sentence, ends_with_terminator_snoc.
Qed.

Lemma cleaned_response_witness :
  10 ≤ String.length "The ENIAC was built in 1945." ∧
  JS.trim "The ENIAC was built in 1945." = "The ENIAC was built in 1945.".
Proof.
  refine (let H := cleaned_response
            "  The ENIAC was built in 1945. It was hu"
            "The ENIAC was built in 1945." _ in
          conj (proj1 H) (proj1 (proj2 H))).
  vm_compute. reflexivity.
Defined.

(** ** Words as patterns *)

Section Patterns.
Import ComputingHistory.

Lemma syntax_char_class c : is_syntax_char c = JSPattern.SyntaxCharacter c.
Proof. destruct c as [[] [] [] [] [] [] [] []]; by vm_compute. Qed.

Lemma not_syntax_not_backslash c :
  JSPattern.SyntaxCharacter c = false → Ascii.eqb c "\" = false.
Proof. destruct c as [[] [] [] [] [] [] [] []]; by vm_compute. Qed.

Lemma literal_text_escapeRegex word :
  JSPattern.literal_text (escapeRegex word) = Some word.
Proof.
  induction word as [|c r IH]; [done|]. cbn [escapeRegex].
  rewrite syntax_char_class.
  destruct (JSPattern.SyntaxCharacter c) eqn:Hc.
  - cbn [JSPattern.literal_text]. change (Ascii.eqb "\" "\") with true.
    cbv iota. by rewrite Hc, IH.
  - cbn [JSPattern.literal_text].
    by rewrite (not_syntax_not_backslash c Hc), Hc, IH.
Qed.

Lemma escapeRegex_length word :
  String.length word ≤ String.length (escapeRegex word)
  ≤ 2 * String.length word.
Proof.
  induction word as [|c r IH]; [cbn; lia|]. cbn [escapeRegex].
  destruct (is_syntax_char c); cbn [String.length]; lia.
Qed.

End Patterns.

(** X22: a word escaped by [escapeRegex] is a pattern of literal atoms only,
    and the text that this pattern matches is the word itself, whatever
    characters the word holds: the class of [escapeRegex] is the set of
    syntax characters of patterns.  Two words never have the same escaped
    form, and the escaped form is at most twice as long as the word. *)
Theorem escaped_word_is_literal (word : string) :
  JSPattern.literal_text (ComputingHistory.escapeRegex word) = Some word ∧
  (∀ c, ComputingHistory.is_syntax_char c = JSPattern.SyntaxCharacter c) ∧
  (∀ word', ComputingHistory.escapeRegex word
            = ComputingHistory.escapeRegex word' → word = word') ∧
  String.length word ≤ String.length (ComputingHistory.escapeRegex word)
    ≤ 2 * String.length word.
Proof.
  split_and!.
  - apply literal_text_escapeRegex.
  - apply syntax_char_class.
  - intros word' H.
    pose proof (literal_text_escapeRegex word) as H1.
    pose proof (literal_text_escapeRegex word') as H2.
    rewrite H in H1. congruence.
  - apply escapeRegex_length.
  - apply escapeRegex_length.
Qed.

(** ** The file of prohibited words *)

Section ProhibitedWords.
Import JS ComputingHistory.

Local Abbreviation no_line_feed := (λ c : ascii, negb (Ascii.eqb c "010")).
Local Abbreviation carriage_return := ("013"%char).

Lemma reverseWord_involutive text : reverseWord (reverseWord text) = text.
Proof.
  unfold reverseWord.
  by rewrite list_ascii_of_string_of_list_ascii, reverse_involutive,
    string_of_list_ascii_of_string.
Qed.

Lemma list_ascii_of_map_chars f s :
  list_ascii_of_string (map_chars f s) = f <$> list_ascii_of_string s.
Proof. induction s as [|c r IH]; [done|]. cbn. by rewrite IH. Qed.

Lemma map_chars_of_list_ascii f l :
  map_chars f (string_of_list_ascii l) = string_of_list_ascii (f <$> l).
Proof. induction l as [|c l IH]; [done|]. cbn. by rewrite IH. Qed.

Lemma toLowerCase_reverseWord text :
  toLowerCase (reverseWord text) = reverseWord (toLowerCase text).
Proof.
  unfold toLowerCase, reverseWord.
  by rewrite map_chars_of_list_ascii, list_ascii_of_map_chars, fmap_reverse.
Qed.

Lemma reverseWord_nonempty text : text ≠ "" → reverseWord text ≠ "".
Proof.
  intros Hne Hrev. apply Hne.
  by rewrite <- (reverseWord_involutive text), Hrev.
Qed.

Lemma toLowerCase_nonempty text : text ≠ "" → toLowerCase text ≠ "".
Proof. by destruct text. Qed.

Lemma trimEnd_fixed_last s c :
  trimEnd s = s → last (list_ascii_of_string s) = Some c → is_space c = false.
Proof.
  induction s as [|d r IH]; [done|].
  destruct (is_space d) eqn:Hd.
  - rewrite (trimEnd_cons_space d r Hd).
    destruct (trimEnd r) as [|d' r'] eqn:Hr; [done|]. intros [= Hfix].
    destruct r as [|e r]; [done|]. cbn [list_ascii_of_string].
    rewrite last_cons_cons. apply IH. congruence.
  - rewrite (trimEnd_cons_nonspace d r Hd). intros [= Hfix].
    destruct r as [|e r]; [cbn; congruence|]. cbn [list_ascii_of_string].
    rewrite last_cons_cons. by apply IH.
Qed.

Lemma trim_fixed_trimEnd s : trim s = s → trimEnd s = s.
Proof. intros H. rewrite <- H at 1. unfold trim. by rewrite trimEnd_idemp. Qed.

Lemma trimmed_no_return_end s :
  trim s = s → last (list_ascii_of_string s) ≠ Some carriage_return.
Proof.
  intros Hs Hlast.
  by pose proof (trimEnd_fixed_last s _ (trim_fixed_trimEnd s Hs) Hlast).
Qed.

Lemma split_lines_keep c r :
  Ascii.eqb c "010" = false →
  (c = carriage_return → ∃ c' r', r = String c' r' ∧ Ascii.eqb c' "010" = false) →
  split_lines (String c r)
  = match split_lines r with
    | w :: ws => String c w :: ws
    | [] => [String c ""]
    end.
Proof.
  intros Hc Hcr. cbn [split_lines]. rewrite Hc.
  destruct (Ascii.eqb_spec c carriage_return) as [->|_]; [|done].
  destruct (Hcr eq_refl) as (c' & r' & -> & ->). done.
Qed.

Lemma split_lines_line l sep rest :
  sep = newline ∨ sep = String carriage_return newline →
  Shape.all_chars no_line_feed l = true →
  last (list_ascii_of_string l) ≠ Some carriage_return →
  split_lines (l +:+ sep +:+ rest) = l :: split_lines rest.
Proof.
  intros Hsep. induction l as [|c l IH]; intros Hl Hlast.
  { by destruct Hsep as [->| ->]. }
  cbn [Shape.all_chars] in Hl. apply andb_true_iff in Hl as [Hc Hl].
  apply negb_true_iff in Hc. rewrite string_app_cons.
  rewrite split_lines_keep; [|done|].
  - rewrite IH; [done|done|].
    destruct l as [|d l]; [done|].
    cbn [list_ascii_of_string] in Hlast. by rewrite last_cons_cons in Hlast.
  - intros ->. destruct l as [|d l]; [done|].
    cbn [Shape.all_chars] in Hl. apply andb_true_iff in Hl as [Hd _].
    apply negb_true_iff in Hd. rewrite string_app_cons. by exists d, (l +:+ sep +:+ rest).
Qed.

Lemma split_lines_one l :
  Shape.all_chars no_line_feed l = true → split_lines l = [l].
Proof.
  induction l as [|c l IH]; [done|]. cbn [Shape.all_chars].
  intros [Hc Hl]%andb_true_iff. apply negb_true_iff in Hc.
  specialize (IH Hl). cbn [split_lines]. rewrite Hc, IH.
  destruct (Ascii.eqb c carriage_return); [|done].
  destruct l as [|d l]; [done|].
  cbn [Shape.all_chars] in Hl. apply andb_true_iff in Hl as [Hd _].
  apply negb_true_iff in Hd. by rewrite Hd.
Qed.

Lemma loadInappropriateWords_lines sep lines :
  sep = newline ∨ sep = String carriage_return newline →
  Forall (λ l, l ≠ "" ∧ trim l = l ∧ Shape.all_chars no_line_feed l = true)
    lines →
  loadInappropriateWords (join_with sep lines)
  = (λ l, reverseWord (toLowerCase l)) <$> lines.
Proof.
  intros Hsep. induction lines as [|l lines IH]; [done|].
  intros [(Hne & Htrim & Hlf) Hlines]%Forall_cons.
  assert (Hkeep : 0 < String.length l) by (destruct l; [done|cbn; lia]).
  destruct lines as [|l' lines].
  - cbn [join_with]. unfold loadInappropriateWords.
    rewrite split_lines_one by done. cbn [fmap list_fmap]. rewrite Htrim.
    by rewrite filter_cons_True, filter_nil.
  - change (join_with sep (l :: l' :: lines))
      with (l +:+ sep +:+ join_with sep (l' :: lines)).
    specialize (IH Hlines). unfold loadInappropriateWords in *.
    rewrite split_lines_line; [|done|done|by apply trimmed_no_return_end].
    rewrite fmap_cons, Htrim, filter_cons_True by done.
    by rewrite fmap_cons, IH.
Qed.

Lemma loadInappropriateWords_words text w :
  w ∈ loadInappropriateWords text → w ≠ "" ∧ toLowerCase w = w.
Proof.
  unfold loadInappropriateWords.
  intros (l & -> & [Hlen _]%list_elem_of_filter)%list_elem_of_fmap.
  split.
  - apply reverseWord_nonempty, toLowerCase_nonempty.
    intros ->. cbn in Hlen. lia.
  - by rewrite toLowerCase_reverseWord, toLowerCase_idemp.
Qed.

End ProhibitedWords.

(** X23: the file of prohibited words holds one word on each line, written
    backwards.  For a file of non-empty trimmed lines, separated by line
    feeds or by carriage return and line feed, the loaded words are the
    lines in file order, lower-cased and read backwards; reading a word
    backwards twice gives the word, so a loaded word read backwards is the
    lower-cased line. *)
Theorem prohibited_words_loaded (sep : string) (lines : list string) :
  sep = newline ∨ sep = String "013" newline →
  Forall (λ l, l ≠ "" ∧ JS.trim l = l ∧
               Shape.all_chars (λ c, negb (Ascii.eqb c "010")) l = true) lines →
  let words := ComputingHistory.loadInappropriateWords (JS.join_with sep lines) in
  words = (λ l, ComputingHistory.reverseWord (JS.toLowerCase l)) <$> lines ∧
  Forall2 (λ l w, ComputingHistory.reverseWord w = JS.toLowerCase l) lines words ∧
  Forall (λ w, w ≠ "" ∧ JS.toLowerCase w = w) words.
Proof.
  intros Hsep Hlines words.
  assert (Hwords : words
            = (λ l, ComputingHistory.reverseWord (JS.toLowerCase l)) <$> lines)
    by by apply loadInappropriateWords_lines.
  split_and!; [done| |].
  - rewrite Hwords. apply Forall2_fmap_r, Forall_Forall2_diag, Forall_forall.
    intros l _. apply reverseWord_involutive.
  - apply Forall_forall. intros w Hw.
    by apply (loadInappropriateWords_words (JS.join_with sep lines)).
Qed.

Lemma prohibited_words_loaded_witness :
  ComputingHistory.loadInappropriateWords
    (JS.join_with (String "013" newline) ["drow"; "Rehtona"])
  = ["word"; "another"].
Proof.
  refine (proj1 (prohibited_words_loaded (String "013" newline)
                   ["drow"; "Rehtona"] _ _)).
  - by right.
  - repeat constructor; done.
Defined.

(** ** Instances *)


Lemma extracted_keywords_witness :
  ComputingHistory.textRoute "Buy an ENIAC computer, for sale?"
  = ComputingHistory.Ebay "eniac computer"
      "https://www.ebay.com/sch/i.html?_nkw=eniac+computer" ∧
  ∃ ws,
    "eniac computer" = JS.join_space ws ∧
    "https://www.ebay.com/sch/i.html?_nkw=eniac+computer"
    = "https://www.ebay.com/sch/i.html?_nkw=" +:+ JS.join_with "+" ws.
Proof.
  assert (H : ComputingHistory.textRoute "Buy an ENIAC computer, for sale?"
              = ComputingHistory.Ebay "eniac computer"
                  "https://www.ebay.com/sch/i.html?_nkw=eniac+computer")
    by (vm_compute; reflexivity).
  split; [exact H|].
  destruct (extracted_keywords "Buy an ENIAC computer, for sale?")
    as (ws & Hk & _ & _ & _ & Hebay & _).
  exists ws. split; [exact Hk|].
  exact (proj2 (proj2 (Hebay _ _ H))).
Defined.


(** ** The check against the prohibited words *)

Section Moderation.
Import JS JSPattern ComputingHistory ComputingHistoryModeration.

Local Abbreviation chars := list_ascii_of_string.

Lemma syntax_not_b c : SyntaxCharacter c = true → Ascii.eqb c "b" = false.
Proof. destruct c as [[] [] [] [] [] [] [] []]; by vm_compute. Qed.

Lemma parse_escapeRegex word rest :
  parse (escapeRegex word +:+ rest)
  = (λ atoms, (Char <$> chars word) ++ atoms) <$> parse rest.
Proof.
  induction word as [|c r IH].
  { rewrite string_app_nil_l. by destruct (parse rest). }
  cbn [escapeRegex]. rewrite syntax_char_class.
  destruct (SyntaxCharacter c) eqn:Hc.
  - rewrite !string_app_cons. cbn [parse].
    change (Ascii.eqb "\" "\") with true. cbv iota.
    rewrite (syntax_not_b c Hc), Hc, IH. by destruct (parse rest).
  - rewrite string_app_cons. cbn [parse].
    rewrite (not_syntax_not_backslash c Hc), Hc, IH. by destruct (parse rest).
Qed.

Lemma parse_wordPattern word :
  parse (wordPattern word)
  = Some (WordBoundary :: (Char <$> chars word) ++ [WordBoundary]).
Proof.
  unfold wordPattern.
  change ("\b" +:+ escapeRegex word +:+ "\b")
    with (String "\" (String "b" (escapeRegex word +:+ "\b"))).
  cbn [parse]. change (Ascii.eqb "\" "\") with true.
  change (Ascii.eqb "b" "b") with true. cbv iota.
  by rewrite parse_escapeRegex.
Qed.

Lemma last_previous (previous : option ascii) :
  last (option_list previous ++ chars "") = previous.
Proof. by destruct previous. Qed.

Lemma last_option_list_app {A} (l l' : list A) :
  last (option_list (last l) ++ l') = last (l ++ l').
Proof. rewrite !last_app. by destruct (last l). Qed.

Lemma toLowerCase_empty s : toLowerCase s = "" → s = "".
Proof. by destruct s. Qed.

(** The literal atoms of a word match a part of the input that is the
    word up to letter case. *)
Lemma match_at_literal word atoms previous s :
  match_at ((Char <$> chars word) ++ atoms) previous s = true ↔
  ∃ mid post, s = mid +:+ post ∧ toLowerCase mid = toLowerCase word ∧
    match_at atoms (last (option_list previous ++ chars mid)) post = true.
Proof.
  revert previous s. induction word as [|c r IH]; intros previous s.
  - cbn [chars fmap list_fmap app]. split.
    + intros H. exists "", s. by rewrite last_previous.
    + intros (mid & post & -> & ->%toLowerCase_empty & H).
      by rewrite last_previous in H.
  - cbn [chars fmap list_fmap app match_at]. destruct s as [|d s].
    + split; [done|]. intros (mid & post & Hs & Hmid & _).
      destruct mid; [done|]. by rewrite string_app_cons in Hs.
    + rewrite andb_true_iff, IH. split.
      * intros [Hcd (mid & post & -> & Hmid & H)].
        apply Ascii.eqb_eq, canonicalize_eq_lower in Hcd.
        exists (String d mid), post. split_and!; [done| |].
        -- cbn [toLowerCase map_chars]. unfold toLowerCase in Hmid.
           by rewrite Hmid, Hcd.
        -- cbn [chars]. rewrite last_app_cons. exact H.
      * intros (mid & post & Hs & Hmid & H).
        destruct mid as [|d' mid]; [done|].
        rewrite string_app_cons in Hs. injection Hs as -> ->.
        cbn [toLowerCase map_chars] in Hmid. injection Hmid as Hd Hmid.
        split; [by apply Ascii.eqb_eq, canonicalize_eq_lower|].
        exists mid, post. split_and!; [done|done|].
        cbn [chars] in H. by rewrite last_app_cons in H.
Qed.

(** A match is looked for from every position of the input. *)
Lemma test_from_spec atoms previous s :
  test_from atoms previous s = true ↔
  ∃ pre rest, s = pre +:+ rest ∧
    match_at atoms (last (option_list previous ++ chars pre)) rest = true.
Proof.
  revert previous. induction s as [|d s IH]; intros previous;
    cbn [test_from]; rewrite orb_true_iff.
  - split.
    + intros [H|?]; [|done]. exists "", "". by rewrite last_previous.
    + intros (pre & rest & Hs & H). left.
      destruct pre; [|done]. destruct rest; [|done].
      by rewrite last_previous in H.
  - rewrite IH. split.
    + intros [H|(pre & rest & -> & H)].
      * exists "", (String d s). by rewrite last_previous.
      * exists (String d pre), rest. split; [done|].
        cbn [chars]. by rewrite last_app_cons.
    + intros (pre & rest & Hs & H). destruct pre as [|d' pre].
      * left. rewrite string_app_nil_l in Hs. subst rest.
        by rewrite last_previous in H.
      * right. rewrite string_app_cons in Hs. injection Hs as -> ->.
        exists pre, rest. split; [done|].
        cbn [chars] in H. by rewrite last_app_cons in H.
Qed.

Lemma test_wordPattern word s :
  default false (test_ignore_case (wordPattern word) s) = true ↔
  ∃ pre mid post, s = pre +:+ mid +:+ post ∧
    toLowerCase mid = toLowerCase word ∧
    xorb (IsWordChar (last (chars pre)))
         (IsWordChar (head (chars (mid +:+ post)))) = true ∧
    xorb (IsWordChar (last (chars (pre +:+ mid))))
         (IsWordChar (head (chars post))) = true.
Proof.
  unfold test_ignore_case. rewrite parse_wordPattern.
  change (default false (?f <$> Some ?x)) with (f x). cbv beta.
  rewrite test_from_spec. split.
  - intros (pre & rest & -> & H).
    change (option_list None ++ chars pre) with (chars pre) in H.
    cbn [match_at] in H. apply andb_true_iff in H as [Hb H].
    apply match_at_literal in H as (mid & post & -> & Hmid & H).
    cbn [match_at] in H. rewrite andb_true_r, last_option_list_app in H.
    exists pre, mid, post. split_and!; [done..|].
    by rewrite list_ascii_of_string_app.
  - intros (pre & mid & post & -> & Hmid & Hb1 & Hb2).
    exists pre, (mid +:+ post). split; [done|].
    change (option_list None ++ chars pre) with (chars pre).
    cbn [match_at]. rewrite Hb1. cbn [andb].
    apply match_at_literal. exists mid, post. split_and!; [done..|].
    cbn [match_at]. rewrite andb_true_r, last_option_list_app.
    by rewrite list_ascii_of_string_app in Hb2.
Qed.

End Moderation.

(** X24: the check of a text against the prohibited words.  The pattern
    built for a word is always well formed: the word boundary, the
    characters of the word as literal atoms, the word boundary.  A text is
    refused exactly when for some prohibited word the lower-cased text
    holds a part that is the word up to letter case, with a word boundary
    before it and a word boundary after it. *)
Theorem prohibited_word_check (inappropriateWords : list string)
    (text : string) :
  (∀ word,
     JSPattern.parse (ComputingHistoryModeration.wordPattern word)
     = Some (JSPattern.WordBoundary
             :: (JSPattern.Char <$> list_ascii_of_string word)
             ++ [JSPattern.WordBoundary])) ∧
  (ComputingHistoryModeration.containsInappropriate inappropriateWords text
   = true ↔
   ∃ word pre mid post,
     word ∈ inappropriateWords ∧
     JS.toLowerCase text = pre +:+ mid +:+ post ∧
     JS.toLowerCase mid = JS.toLowerCase word ∧
     xorb (JSPattern.IsWordChar (last (list_ascii_of_string pre)))
          (JSPattern.IsWordChar (head (list_ascii_of_string (mid +:+ post))))
     = true ∧
     xorb (JSPattern.IsWordChar (last (list_ascii_of_string (pre +:+ mid))))
          (JSPattern.IsWordChar (head (list_ascii_of_string post)))
     = true).
Proof.
  split; [apply parse_wordPattern|].
  unfold ComputingHistoryModeration.containsInappropriate.
  rewrite existsb_exists. split.
  - intros (word & Hin%list_elem_of_In & H).
    apply test_wordPattern in H as (pre & mid & post & ?).
    by exists word, pre, mid, post.
  - intros (word & pre & mid & post & Hin & H).
    exists word. split; [by apply list_elem_of_In|].
    apply test_wordPattern. by exists pre, mid, post.
Qed.

(** ** The summarization command *)

Section SummarizeCommand.
Import JS ComputingHistory.

Local Abbreviation no_line_feed := (λ c : ascii, negb (Ascii.eqb c "010")).

Lemma split_newline_nonempty s : split_newline s ≠ [].
Proof.
  destruct s as [|c r]; [done|]. cbn [split_newline].
  destruct (Ascii.eqb c "010"); [done|]. by destruct (split_newline r).
Qed.

Lemma join_split_newline s : join_with newline (split_newline s) = s.
Proof.
  induction s as [|c r IH]; [done|]. cbn [split_newline].
  destruct (Ascii.eqb_spec c "010") as [->|Hne].
  - destruct (split_newline r) as [|w ws] eqn:Hs;
      [by apply split_newline_nonempty in Hs|].
    change (join_with newline ("" :: w :: ws))
      with ("" +:+ newline +:+ join_with newline (w :: ws)).
    by rewrite IH.
  - destruct (split_newline r) as [|w ws] eqn:Hs;
      [by apply split_newline_nonempty in Hs|].
    destruct ws as [|w' ws].
    + cbn [join_with] in *. by rewrite IH.
    + change (join_with newline (String c w :: w' :: ws))
        with (String c (w +:+ newline +:+ join_with newline (w' :: ws))).
      change (join_with newline (w :: w' :: ws))
        with (w +:+ newline +:+ join_with newline (w' :: ws)) in IH.
      by rewrite IH.
Qed.

Lemma split_newline_head s l ls :
  split_newline s = l :: ls → Shape.all_chars no_line_feed l = true.
Proof.
  revert l ls. induction s as [|c r IH]; intros l ls.
  { by intros [= <- <-]. }
  cbn [split_newline]. destruct (Ascii.eqb c "010") eqn:Hc.
  - by intros [= <- <-].
  - destruct (split_newline r) as [|w ws] eqn:Hs.
    + intros [= <- <-]. cbn. by rewrite Hc.
    + intros [= <- <-]. cbn [Shape.all_chars]. rewrite Hc. cbn [negb andb].
      by apply (IH w ws).
Qed.

Lemma split_newline_line first content :
  Shape.all_chars no_line_feed first = true →
  split_newline (first +:+ newline +:+ content)
  = first :: split_newline content.
Proof.
  induction first as [|c r IH]; [done|]. cbn [Shape.all_chars].
  intros [Hc Hr]%andb_true_iff. apply negb_true_iff in Hc.
  rewrite string_app_cons. cbn [split_newline]. by rewrite Hc, (IH Hr).
Qed.

End SummarizeCommand.

(** X25: a text is a summarization command exactly when it has a line
    break and its first line, trimmed and lower-cased, starts with
    [summarize]; the text that is summarized is then everything after the
    first line break, unchanged. *)
Theorem summarize_command (text content : string) :
  ComputingHistory.summarizeCommand text = Some content ↔
  ∃ first rest,
    text = first +:+ newline +:+ content ∧
    Shape.all_chars (λ c, negb (Ascii.eqb c "010")) first = true ∧
    JS.toLowerCase (JS.trim first) = "summarize" +:+ rest.
Proof.
  unfold ComputingHistory.summarizeCommand. split.
  - destruct (ComputingHistory.split_newline text) as [|l ls] eqn:Hs;
      [by apply split_newline_nonempty in Hs|].
    destruct ls as [|l' ls]; [done|].
    change (1 <? length (l :: l' :: ls)) with true.
    change (JSText.Array_get (l :: l' :: ls) 0) with l. cbn [andb].
    destruct (String.prefix "summarize" (JS.toLowerCase (JS.trim l))) eqn:Hp;
      [|done].
    intros [= <-]. apply prefix_append in Hp as [rest Hrest].
    exists l, rest. split_and!; [|by apply (split_newline_head text l (l' :: ls))|done].
    rewrite <- (join_split_newline text), Hs.
    unfold JS.slice. cbn [length drop].
    change (S (S (length ls)) - 1) with (length (l' :: ls)).
    by rewrite firstn_all.
  - intros (first & rest & -> & Hfirst & Hrest).
    rewrite split_newline_line by done.
    destruct (ComputingHistory.split_newline content) as [|l' ls] eqn:Hs;
      [by apply split_newline_nonempty in Hs|].
    change (1 <? length (first :: l' :: ls)) with true.
    change (JSText.Array_get (first :: l' :: ls) 0) with first. cbn [andb].
    assert (String.prefix "summarize" (JS.toLowerCase (JS.trim first)) = true)
      as -> by (apply prefix_append; by exists rest).
    f_equal. unfold JS.slice. cbn [length drop].
    change (S (S (length ls)) - 1) with (length (l' :: ls)).
    by rewrite firstn_all, <- Hs, join_split_newline.
Qed.
